(** * errsum: extraction, signatures and grouping of diagnostics

    A shallow embedding of [src/parser.js], [src/grouper.js] and the
    [top] handling of [src/cli.js], with the properties of the
    specification stated over it.

    Conventions.
    - A JavaScript string is the list of its UTF-16 code units
      ([jsstring]); [length] is [String.prototype.length].
    - [None] in a record field stands for an absent ([undefined] or
      [null]) property.
    - Regular expressions are values of [regex]; the matcher follows
      the backtracking semantics of ECMA-262 (22.2.2), the parts of it
      that the patterns of this program use. *)

From Stdlib Require Import ZArith NArith QArith List Sorted Lia Bool String Ascii.
From stdpp Require Import base list gmap sets.

Set Default Proof Using "Type".
Local Open Scope nat_scope.
Local Open Scope list_scope.

(* ===================================================================== *)
(** ** Strings and code units *)
(* ===================================================================== *)

Definition jsstring := list N.

(** ASCII text of the source as a list of code units. *)
Definition u (s : string) : jsstring :=
  List.map N_of_ascii (list_ascii_of_string s).

Definition jsstring_eqb (a b : jsstring) : bool := bool_decide (a = b).

Definition between (lo hi c : N) : bool := ((lo <=? c) && (c <=? hi))%N.

Definition isDigit (c : N) : bool := between 48 57 c.
Definition isUpperAscii (c : N) : bool := between 65 90 c.
Definition isLowerAscii (c : N) : bool := between 97 122 c.

(** [\w]: [A-Za-z0-9_]. *)
Definition isWordChar (c : N) : bool :=
  isUpperAscii c || isLowerAscii c || isDigit c || (c =? 95)%N.

(** LineTerminator: LF, CR, LS, PS. *)
Definition isLineTerminator (c : N) : bool :=
  ((c =? 10) || (c =? 13) || (c =? 8232) || (c =? 8233))%N.

(** [\s], also what [trim] strips: WhiteSpace and LineTerminator. *)
Definition isWhiteSpace (c : N) : bool :=
  (between 9 13 c || (c =? 32) || (c =? 160) || (c =? 5760)
   || between 8192 8202 c || (c =? 8232) || (c =? 8233) || (c =? 8239)
   || (c =? 8287) || (c =? 12288) || (c =? 65279))%N.

Definition toUpperAscii (c : N) : N := if isLowerAscii c then (c - 32)%N else c.
Definition toLowerAscii (c : N) : N := if isUpperAscii c then (c + 32)%N else c.

(** [String.prototype.toLowerCase], one code unit at a time.  ASCII
    letters are folded.  Of the code units above 127 only two have a
    lower-case image that contains an ASCII code unit: U+0130 (to "i"
    followed by U+0307) and U+212A, the Kelvin sign (to "k"); they are
    mapped as Unicode says.  Every other code unit above 127 is left as
    it is: its image stays outside ASCII, and this program only looks
    at lower-cased text through ASCII patterns. *)
Definition lowerUnit (c : N) : jsstring :=
  if (c =? 304)%N then [105; 775]%N
  else if (c =? 8490)%N then [107]%N
  else [toLowerAscii c].

Definition toLowerCase (s : jsstring) : jsstring := concat (List.map lowerUnit s).

Fixpoint dropWhile {A} (p : A -> bool) (l : list A) : list A :=
  match l with
  | x :: l' => if p x then dropWhile p l' else l
  | [] => []
  end.

Definition trimStart (s : jsstring) : jsstring := dropWhile isWhiteSpace s.
Definition trimEnd (s : jsstring) : jsstring := rev (dropWhile isWhiteSpace (rev s)).
Definition trim (s : jsstring) : jsstring := trimEnd (trimStart s).

(** [s.substring(a, b)] for [a <= b]. *)
Definition substring (s : jsstring) (a b : nat) : jsstring := take (b - a) (drop a s).

(** Truthiness of an optional string property: absent and [""] are falsy. *)
Definition truthy (o : option jsstring) : bool :=
  match o with Some (_ :: _) => true | _ => false end.

(* ===================================================================== *)
(** ** Integer-valued numbers and [parseInt] *)
(* ===================================================================== *)

(** The numbers this program computes with [parseInt]. *)
Inductive jsnum := NaN | PosInf | NegInf | Fin (z : Z).

(** Nearest double of a non-negative integer (ties to even). *)
Definition roundNat (n : Z) : jsnum :=
  if (n <? 2 ^ 53)%Z then Fin n
  else
    let e := (Z.log2 n - 52)%Z in
    let q := Z.shiftr n e in
    let r := (n - Z.shiftl q e)%Z in
    let half := Z.shiftl 1 (e - 1) in
    let q' := if (half <? r)%Z || ((r =? half)%Z && Z.odd q) then (q + 1)%Z else q in
    let v := Z.shiftl q' e in
    if (2 ^ 1024 <=? v)%Z then PosInf else Fin v.

Definition negNum (x : jsnum) : jsnum :=
  match x with
  | NaN => NaN | PosInf => NegInf | NegInf => PosInf | Fin z => Fin (- z)
  end.

Fixpoint digitsValue (acc : Z) (s : jsstring) : Z :=
  match s with
  | c :: s' => if isDigit c then digitsValue (10 * acc + (Z.of_N c - 48)) s' else acc
  | [] => acc
  end.

(** [parseInt(s, 10)]. *)
Definition parseInt (s : jsstring) : jsnum :=
  let s1 := trimStart s in
  let '(neg, s2) :=
    match s1 with
    | 45%N :: r => (true, r)
    | 43%N :: r => (false, r)
    | _ => (false, s1)
    end in
  match s2 with
  | c :: _ =>
      if isDigit c then
        let v := roundNat (digitsValue 0 s2) in
        if neg then negNum v else v
      else NaN
  | [] => NaN
  end.

(** [x || d] for a number [x]: [NaN] and [0] are falsy. *)
Definition numOr (x d : jsnum) : jsnum :=
  match x with NaN => d | Fin 0 => d | _ => x end.

(* ===================================================================== *)
(** ** Regular expressions *)
(* ===================================================================== *)

(** Members of a character class. *)
Inductive cset :=
| CChar (c : N)
| CRange (lo hi : N)
| CDigit            (* \d *)
| CWord             (* \w *)
| CNotWord          (* \W *)
| CSpace            (* \s *)
| CNotSpace.        (* \S *)

Inductive regex :=
| Eps
| Lit (c : N)
| Dot
| Class (neg : bool) (cs : list cset)
| Seq (a b : regex)
| Alt (a b : regex)
| Cap (n : nat) (r : regex)
| Rep (r : regex) (min : nat) (max : option nat) (greedy : bool)
| Bol                (* ^ *)
| Eol                (* $ *)
| WordB.             (* \b *)

Record flags := { ignoreCase : bool; multiline : bool }.

Definition inCset (c : N) (m : cset) : bool :=
  match m with
  | CChar d => (c =? d)%N
  | CRange lo hi => between lo hi c
  | CDigit => isDigit c
  | CWord => isWordChar c
  | CNotWord => negb (isWordChar c)
  | CSpace => isWhiteSpace c
  | CNotSpace => negb (isWhiteSpace c)
  end.

(** Canonicalize (22.2.5.6) without the [u] flag maps a code unit to
    its upper case unless that leaves ASCII from outside of it; on
    ASCII it is [toUpperAscii], and no code unit above 127 has an ASCII
    canonical form.  The patterns used with the [i] flag here consist of
    ASCII characters and non-negated classes, for which comparing the
    ASCII case variants is exact. *)
Definition caseVariants (fl : flags) (c : N) : list N :=
  if ignoreCase fl then [c; toUpperAscii c; toLowerAscii c] else [c].

Definition litMatches (fl : flags) (p c : N) : bool :=
  if ignoreCase fl then (toUpperAscii p =? toUpperAscii c)%N else (p =? c)%N.

Definition classMatches (fl : flags) (neg : bool) (cs : list cset) (c : N) : bool :=
  xorb neg (existsb (fun v => existsb (inCset v) cs) (caseVariants fl c)).

(** The matcher state: the end index, the code unit before it, the
    input from it on, and the captures (start and end index of each
    group, [None] for undefined). *)
Record mstate := {
  ms_idx : nat;
  ms_prev : option N;
  ms_rest : jsstring;
  ms_caps : list (option (nat * nat))
}.

Definition cont := mstate -> option mstate.
Definition matcher := mstate -> cont -> option mstate.

Definition charMatcher (p : N -> bool) : matcher := fun x c =>
  match ms_rest x with
  | ch :: rest =>
      if p ch
      then c {| ms_idx := S (ms_idx x); ms_prev := Some ch;
                ms_rest := rest; ms_caps := ms_caps x |}
      else None
  | [] => None
  end.

Definition assertion (p : mstate -> bool) : matcher := fun x c =>
  if p x then c x else None.

Definition atLineStart (fl : flags) (x : mstate) : bool :=
  match ms_prev x with
  | None => true
  | Some ch => multiline fl && isLineTerminator ch
  end.

Definition atLineEnd (fl : flags) (x : mstate) : bool :=
  match ms_rest x with
  | [] => true
  | ch :: _ => multiline fl && isLineTerminator ch
  end.

Definition atWordBoundary (x : mstate) : bool :=
  let a := match ms_prev x with Some ch => isWordChar ch | None => false end in
  let b := match ms_rest x with ch :: _ => isWordChar ch | [] => false end in
  xorb a b.

Definition setCap (n : nat) (v : option (nat * nat)) (x : mstate) : mstate :=
  {| ms_idx := ms_idx x; ms_prev := ms_prev x; ms_rest := ms_rest x;
     ms_caps := <[n := v]> (ms_caps x) |}.

Definition clearCaps (gs : list nat) (x : mstate) : mstate :=
  foldr (fun n y => setCap n None y) x gs.

(** Capture groups inside a pattern, cleared at each iteration of a
    quantifier around it. *)
Fixpoint groupsOf (r : regex) : list nat :=
  match r with
  | Seq a b | Alt a b => groupsOf a ++ groupsOf b
  | Cap n r1 => n :: groupsOf r1
  | Rep r1 _ _ _ => groupsOf r1
  | _ => []
  end.

Definition predMax (max : option nat) : option nat :=
  match max with Some n => Some (pred n) | None => None end.

(** RepeatMatcher (22.2.2.3.1).  An iteration that matches the empty
    string once [min] is reached is rejected, so every further
    iteration moves the end index; [fuel] bounds the iterations, and
    the bound that [compile] gives is never reached
    ([compile_Rep_fuel]). *)
Fixpoint repeatMatcher (fuel : nat) (m : matcher) (gs : list nat)
    (min : nat) (max : option nat) (greedy : bool) (x : mstate) (c : cont)
    : option mstate :=
  match max with
  | Some 0 => c x
  | _ =>
    match fuel with
    | 0 => None
    | S fuel' =>
      let d : cont := fun y =>
        if (min =? 0) && (ms_idx y =? ms_idx x) then None
        else repeatMatcher fuel' m gs (pred min) (predMax max) greedy y c in
      let xr := clearCaps gs x in
      if negb (min =? 0) then m xr d
      else if negb greedy then
        match c x with Some z => Some z | None => m xr d end
      else
        match m xr d with Some z => Some z | None => c x end
    end
  end.

Fixpoint compile (fl : flags) (r : regex) : matcher :=
  match r with
  | Eps => fun x c => c x
  | Lit p => charMatcher (litMatches fl p)
  | Dot => charMatcher (fun ch => negb (isLineTerminator ch))
  | Class neg cs => charMatcher (classMatches fl neg cs)
  | Seq a b => fun x c => compile fl a x (fun y => compile fl b y c)
  | Alt a b => fun x c =>
      match compile fl a x c with
      | Some z => Some z
      | None => compile fl b x c
      end
  | Cap n r1 => fun x c =>
      compile fl r1 x (fun y => c (setCap n (Some (ms_idx x, ms_idx y)) y))
  | Rep r1 min max greedy => fun x c =>
      repeatMatcher (min + length (ms_rest x) + 1) (compile fl r1) (groupsOf r1)
                    min max greedy x c
  | Bol => assertion (atLineStart fl)
  | Eol => assertion (atLineEnd fl)
  | WordB => assertion atWordBoundary
  end.

(** Number of capture groups of a pattern. *)
Fixpoint maxGroup (r : regex) : nat :=
  match r with
  | Seq a b | Alt a b => Nat.max (maxGroup a) (maxGroup b)
  | Cap n r1 => Nat.max n (maxGroup r1)
  | Rep r1 _ _ _ => maxGroup r1
  | _ => 0
  end.

(** A position in the input: index, code unit before it, rest. *)
Record cursor := { cu_idx : nat; cu_prev : option N; cu_rest : jsstring }.

Definition startOf (s : jsstring) : cursor :=
  {| cu_idx := 0; cu_prev := None; cu_rest := s |}.

Definition cursorOf (x : mstate) : cursor :=
  {| cu_idx := ms_idx x; cu_prev := ms_prev x; cu_rest := ms_rest x |}.

Definition advance (c : cursor) : cursor :=
  match cu_rest c with
  | ch :: r => {| cu_idx := S (cu_idx c); cu_prev := Some ch; cu_rest := r |}
  | [] => c
  end.

Record jsregexp := { re_pattern : regex; re_flags : flags }.

(** One attempt at the cursor, all captures undefined at its start. *)
Definition matchAt (re : jsregexp) (c : cursor) : option mstate :=
  compile (re_flags re) (re_pattern re)
    {| ms_idx := cu_idx c; ms_prev := cu_prev c; ms_rest := cu_rest c;
       ms_caps := replicate (S (maxGroup (re_pattern re))) None |}
    Some.

(** RegExpBuiltinExec from a cursor, not sticky: the first index from
    the cursor on at which the pattern matches, with the end state. *)
Fixpoint searchFrom (re : jsregexp) (idx : nat) (prev : option N) (rest : jsstring)
    : option (nat * mstate) :=
  match matchAt re {| cu_idx := idx; cu_prev := prev; cu_rest := rest |} with
  | Some y => Some (idx, y)
  | None =>
      match rest with
      | ch :: rest' => searchFrom re (S idx) (Some ch) rest'
      | [] => None
      end
  end.

Definition search (re : jsregexp) (c : cursor) : option (nat * mstate) :=
  searchFrom re (cu_idx c) (cu_prev c) (cu_rest c).

(** [re.test(s)] for a pattern without the [g] flag. *)
Definition test (re : jsregexp) (s : jsstring) : bool :=
  match search re (startOf s) with Some _ => true | None => false end.

(** The match array of [exec]: [index], [match[0]] and the groups. *)
Record jsmatch := {
  m_index : nat;
  m_whole : jsstring;
  m_groups : list (option jsstring)     (* match[1], match[2], ... *)
}.

Definition capText (s : jsstring) (c : option (nat * nat)) : option jsstring :=
  match c with Some (a, b) => Some (substring s a b) | None => None end.

Definition toMatch (s : jsstring) (start : nat) (y : mstate) : jsmatch :=
  {| m_index := start;
     m_whole := substring s start (ms_idx y);
     m_groups := List.map (capText s) (drop 1 (ms_caps y)) |}.

(** [match[n]] for [n >= 1]. *)
Definition group (m : jsmatch) (n : nat) : option jsstring :=
  match m_groups m !! (n - 1) with Some g => g | None => None end.

(** [s.replace(re, repl)] for a pattern with the [g] flag and a
    replacement text without [$]: exec is repeated from [lastIndex],
    which an empty match moves on by one. *)
Fixpoint replaceLoop (fuel : nat) (re : jsregexp) (repl : jsstring) (c : cursor)
    : jsstring :=
  match fuel with
  | 0 => cu_rest c
  | S fuel' =>
    match search re c with
    | None => cu_rest c
    | Some (start, y) =>
        let skipped := take (start - cu_idx c) (cu_rest c) in
        if ms_idx y =? start then
          match ms_rest y with
          | ch :: _ =>
              skipped ++ repl ++ ch :: replaceLoop fuel' re repl (advance (cursorOf y))
          | [] => skipped ++ repl
          end
        else skipped ++ repl ++ replaceLoop fuel' re repl (cursorOf y)
    end
  end.

Definition replaceAll (re : jsregexp) (repl : jsstring) (s : jsstring) : jsstring :=
  replaceLoop (S (length s)) re repl (startOf s).

(** [s.replace(re, repl)] for a pattern without the [g] flag. *)
Definition replaceFirst (re : jsregexp) (repl : jsstring) (s : jsstring) : jsstring :=
  match search re (startOf s) with
  | None => s
  | Some (start, y) => take start s ++ repl ++ ms_rest y
  end.

(** [s.split(re)] for a pattern without capture groups (22.2.6.14):
    [pending] is the text from the end [p] of the last separator to
    the cursor [q]. *)
Fixpoint splitLoop (fuel : nat) (re : jsregexp) (pending : jsstring) (p : nat)
    (q : cursor) : list jsstring :=
  match fuel with
  | 0 => [pending ++ cu_rest q]
  | S fuel' =>
    match cu_rest q with
    | [] => [pending]
    | ch :: _ =>
        match matchAt re q with
        | None => splitLoop fuel' re (pending ++ [ch]) p (advance q)
        | Some y =>
            if ms_idx y =? p
            then splitLoop fuel' re (pending ++ [ch]) p (advance q)
            else pending :: splitLoop fuel' re [] (ms_idx y) (cursorOf y)
        end
    end
  end.

Definition split (re : jsregexp) (s : jsstring) : list jsstring :=
  match s with
  | [] => match matchAt re (startOf s) with Some _ => [] | None => [[]] end
  | _ => splitLoop (2 * length s + 2) re [] 0 (startOf s)
  end.

(** *** Writing patterns *)

Definition chr (s : string) : N := hd 0%N (u s).
Definition str (s : string) : regex := foldr (fun c r => Seq (Lit c) r) Eps (u s).
Definition seqs (l : list regex) : regex := foldr Seq Eps l.
Fixpoint alts (l : list regex) : regex :=
  match l with
  | [] => Eps
  | [r] => r
  | r :: l' => Alt r (alts l')
  end.

Definition star (r : regex) := Rep r 0 None true.          (* r*  *)
Definition plus (r : regex) := Rep r 1 None true.          (* r+  *)
Definition opt (r : regex) := Rep r 0 (Some 1) true.       (* r?  *)
Definition starLazy (r : regex) := Rep r 0 None false.     (* r*? *)
Definition plusLazy (r : regex) := Rep r 1 None false.     (* r+? *)

Definition digit := Class false [CDigit].                  (* \d *)
Definition word := Class false [CWord].                    (* \w *)
Definition notWord := Class false [CNotWord].              (* \W *)
Definition space := Class false [CSpace].                  (* \s *)
Definition notSpace := Class false [CNotSpace].            (* \S *)
Definition oneOf (s : string) := Class false (List.map CChar (u s)).

Definition dquote : N := 34.
Definition squote : N := 39.
Definition backquote : N := 96.
Definition backslash : N := 92.
Definition newline : N := 10.

Definition noFlags := {| ignoreCase := false; multiline := false |}.
Definition flagI := {| ignoreCase := true; multiline := false |}.
Definition flagM := {| ignoreCase := false; multiline := true |}.
Definition mkre (fl : flags) (r : regex) : jsregexp :=
  {| re_pattern := r; re_flags := fl |}.

(* ===================================================================== *)
(** ** parser.js *)
(* ===================================================================== *)

Record ErrorRecord := {
  e_file : option jsstring;
  e_line : option jsnum;
  e_column : option jsnum;
  e_severity : option jsstring;
  e_code : option jsstring;
  e_message : option jsstring;
  e_type : option jsstring;
  e_function : option jsstring;
  e_raw : option jsstring;
  e_position : option nat
}.

#[global] Instance jsnum_eq_dec : EqDecision jsnum.
Proof. solve_decision. Defined.
#[global] Instance ErrorRecord_eq_dec : EqDecision ErrorRecord.
Proof. solve_decision. Defined.

(** [a || d] for an optional string [a] and a string [d]. *)
Definition strOr (a : option jsstring) (d : jsstring) : option jsstring :=
  if truthy a then a else Some d.

(** An entry of [PATTERNS]: the regex (always with the [g] and [m]
    flags) and [extract], which is [None] where the JavaScript throws
    (a method called on an undefined group). *)
Record Pattern := {
  p_regex : jsregexp;
  p_extract : jsmatch -> option ErrorRecord
}.

(* /^(.+?)[:(](\d+)[,:](\d+)\)?[: -]+error\s+(TS\d+):\s*(.+)$/gm *)
Definition typescript_regex : jsregexp := mkre flagM (seqs [
  Bol; Cap 1 (plusLazy Dot); oneOf ":("; Cap 2 (plus digit); oneOf ",:";
  Cap 3 (plus digit); opt (Lit (chr ")")); plus (oneOf ": -"); str "error";
  plus space; Cap 4 (Seq (str "TS") (plus digit)); Lit (chr ":"); star space;
  Cap 5 (plus Dot); Eol ]).

Definition typescript : Pattern := {|
  p_regex := typescript_regex;
  p_extract := fun m =>
    m5 ← group m 5;
    Some {| e_file := group m 1;
            e_line := parseInt <$> group m 2;
            e_column := parseInt <$> group m 3;
            e_code := group m 4;
            e_message := Some (trim m5);
            e_type := Some (u "typescript");
            e_severity := None; e_function := None;
            e_raw := None; e_position := None |}
|}.

(* /^(?:(.+?):)?(\d+):(\d+)\s+(error|warning)\s+(.+?)\s+(\S+)$/gm *)
Definition eslint_regex : jsregexp := mkre flagM (seqs [
  Bol; opt (Seq (Cap 1 (plusLazy Dot)) (Lit (chr ":"))); Cap 2 (plus digit);
  Lit (chr ":"); Cap 3 (plus digit); plus space;
  Cap 4 (Alt (str "error") (str "warning")); plus space; Cap 5 (plusLazy Dot);
  plus space; Cap 6 (plus notSpace); Eol ]).

Definition eslint : Pattern := {|
  p_regex := eslint_regex;
  p_extract := fun m =>
    m5 ← group m 5;
    Some {| e_file := strOr (group m 1) (u "unknown");
            e_line := parseInt <$> group m 2;
            e_column := parseInt <$> group m 3;
            e_severity := group m 4;
            e_message := Some (trim m5);
            e_code := group m 6;
            e_type := Some (u "eslint");
            e_function := None; e_raw := None; e_position := None |}
|}.

Definition bullet : N := 9679.       (* U+25CF *)
Definition cross : N := 10005.       (* U+2715 *)
Definition heavyCross : N := 10006.  (* U+2716 *)
Definition chevron : N := 8250.      (* U+203A *)

(* /^\s*(?:●|✕|✖|FAIL)\s+(.+?)(?:\s+›\s+(.+))?$/gm *)
Definition jest_regex : jsregexp := mkre flagM (seqs [
  Bol; star space; alts [Lit bullet; Lit cross; Lit heavyCross; str "FAIL"];
  plus space; Cap 1 (plusLazy Dot);
  opt (seqs [plus space; Lit chevron; plus space; Cap 2 (plus Dot)]); Eol ]).

(* /^FAIL\s+/ *)
Definition failPrefix_regex : jsregexp := mkre noFlags (seqs [
  Bol; str "FAIL"; plus space ]).

Definition jest : Pattern := {|
  p_regex := jest_regex;
  p_extract := fun m =>
    m1 ← group m 1;
    Some {| e_file := Some (replaceFirst failPrefix_regex [] m1);
            e_message := if truthy (group m 2) then group m 2 else group m 1;
            e_type := Some (u "jest");
            e_line := None; e_column := None; e_severity := None; e_code := None;
            e_function := None; e_raw := None; e_position := None |}
|}.

(* /^(?:\s*File\s+Q(.+?)Q,\s*line\s*(\d+)(?:,\s*in\s+(\S+))?[\s\S]*?)?^\s*(\w+Error|\w+Exception):\s*(.+)$/gm
   where Q stands for the double quote *)
Definition python_regex : jsregexp := mkre flagM (seqs [
  Bol;
  opt (seqs [ star space; str "File"; plus space; Lit dquote; Cap 1 (plusLazy Dot);
              Lit dquote; Lit (chr ","); star space; str "line"; star space;
              Cap 2 (plus digit);
              opt (seqs [Lit (chr ","); star space; str "in"; plus space;
                         Cap 3 (plus notSpace)]);
              starLazy (Class false [CSpace; CNotSpace]) ]);
  Bol; star space;
  Cap 4 (Alt (Seq (plus word) (str "Error")) (Seq (plus word) (str "Exception")));
  Lit (chr ":"); star space; Cap 5 (plus Dot); Eol ]).

Definition python : Pattern := {|
  p_regex := python_regex;
  p_extract := fun m =>
    m5 ← group m 5;
    Some {| e_file := strOr (group m 1) (u "unknown");
            e_line := if truthy (group m 2) then parseInt <$> group m 2 else None;
            e_function := group m 3;
            e_code := group m 4;
            e_message := Some (trim m5);
            e_type := Some (u "python");
            e_column := None; e_severity := None;
            e_raw := None; e_position := None |}
|}.

(* /^(error|warning)\[(E\d+)\]:\s*(.+)\n\s*-->\s*(.+?):(\d+):(\d+)/gm *)
Definition rust_regex : jsregexp := mkre flagM (seqs [
  Bol; Cap 1 (Alt (str "error") (str "warning")); Lit (chr "[");
  Cap 2 (Seq (Lit (chr "E")) (plus digit)); Lit (chr "]"); Lit (chr ":");
  star space; Cap 3 (plus Dot); Lit newline; star space; str "-->"; star space;
  Cap 4 (plusLazy Dot); Lit (chr ":"); Cap 5 (plus digit); Lit (chr ":");
  Cap 6 (plus digit) ]).

Definition rust : Pattern := {|
  p_regex := rust_regex;
  p_extract := fun m =>
    m3 ← group m 3;
    Some {| e_severity := group m 1;
            e_code := group m 2;
            e_message := Some (trim m3);
            e_file := group m 4;
            e_line := parseInt <$> group m 5;
            e_column := parseInt <$> group m 6;
            e_type := Some (u "rust");
            e_function := None; e_raw := None; e_position := None |}
|}.

(* /^(.+?\.go):(\d+):(\d+):\s*(.+)$/gm *)
Definition go_regex : jsregexp := mkre flagM (seqs [
  Bol; Cap 1 (seqs [plusLazy Dot; Lit (chr "."); str "go"]); Lit (chr ":");
  Cap 2 (plus digit); Lit (chr ":"); Cap 3 (plus digit); Lit (chr ":");
  star space; Cap 4 (plus Dot); Eol ]).

Definition go : Pattern := {|
  p_regex := go_regex;
  p_extract := fun m =>
    m4 ← group m 4;
    Some {| e_file := group m 1;
            e_line := parseInt <$> group m 2;
            e_column := parseInt <$> group m 3;
            e_message := Some (trim m4);
            e_type := Some (u "go");
            e_severity := None; e_code := None; e_function := None;
            e_raw := None; e_position := None |}
|}.

(* /^(.+?\.[ch](?:pp|xx)?):(\d+):(\d+):\s*(error|warning):\s*(.+)$/gm *)
Definition gcc_regex : jsregexp := mkre flagM (seqs [
  Bol;
  Cap 1 (seqs [plusLazy Dot; Lit (chr "."); oneOf "ch";
               opt (Alt (str "pp") (str "xx"))]);
  Lit (chr ":"); Cap 2 (plus digit); Lit (chr ":"); Cap 3 (plus digit);
  Lit (chr ":"); star space; Cap 4 (Alt (str "error") (str "warning"));
  Lit (chr ":"); star space; Cap 5 (plus Dot); Eol ]).

Definition gcc : Pattern := {|
  p_regex := gcc_regex;
  p_extract := fun m =>
    m5 ← group m 5;
    Some {| e_file := group m 1;
            e_line := parseInt <$> group m 2;
            e_column := parseInt <$> group m 3;
            e_severity := group m 4;
            e_message := Some (trim m5);
            e_type := Some (u "gcc");
            e_code := None; e_function := None;
            e_raw := None; e_position := None |}
|}.

(* /^(?:\[?(ERROR|Error|error|ERR|FATAL|Fatal|fatal)\]?:?\s* )(.+)$/gm
   (written here with a blank before the closing parenthesis of the
   first group, which the source does not have) *)
Definition generic_regex : jsregexp := mkre flagM (seqs [
  Bol;
  seqs [ opt (Lit (chr "["));
         Cap 1 (alts [str "ERROR"; str "Error"; str "error"; str "ERR";
                      str "FATAL"; str "Fatal"; str "fatal"]);
         opt (Lit (chr "]")); opt (Lit (chr ":")); star space ];
  Cap 2 (plus Dot); Eol ]).

Definition generic : Pattern := {|
  p_regex := generic_regex;
  p_extract := fun m =>
    m1 ← group m 1;
    m2 ← group m 2;
    Some {| e_severity := Some (toLowerCase m1);
            e_message := Some (trim m2);
            e_type := Some (u "generic");
            e_file := None; e_line := None; e_column := None; e_code := None;
            e_function := None; e_raw := None; e_position := None |}
|}.

(** The own keys of [PATTERNS], in the order of the object literal. *)
Definition PATTERNS : list (jsstring * Pattern) := [
  (u "typescript", typescript); (u "eslint", eslint); (u "jest", jest);
  (u "python", python); (u "rust", rust); (u "go", go); (u "gcc", gcc);
  (u "generic", generic) ].

(** The fixed category set. *)
Definition categories : list jsstring := List.map fst PATTERNS.

(** Property names that every plain object inherits from
    [Object.prototype] (ECMA-262 20.1.3 and B.2.2). *)
Definition objectPrototypeKeys : list jsstring := [
  u "constructor"; u "__proto__"; u "__defineGetter__"; u "__defineSetter__";
  u "__lookupGetter__"; u "__lookupSetter__"; u "hasOwnProperty";
  u "isPrototypeOf"; u "propertyIsEnumerable"; u "toLocaleString";
  u "toString"; u "valueOf" ].

Definition inheritedKey (k : jsstring) : bool :=
  bool_decide (k ∈ objectPrototypeKeys).

Fixpoint assoc {V} (k : jsstring) (l : list (jsstring * V)) : option V :=
  match l with
  | (k', v) :: l' => if jsstring_eqb k k' then Some v else assoc k l'
  | [] => None
  end.

(** The value of [PATTERNS[type]]: an own pattern, a member inherited
    from [Object.prototype] (a function or object, truthy, without a
    [regex] property), or [undefined]. *)
Inductive registryValue :=
| OwnPattern (p : Pattern)
| InheritedMember
| Undefined.

Definition PATTERNS_get (type : jsstring) : registryValue :=
  match assoc type PATTERNS with
  | Some p => OwnPattern p
  | None => if inheritedKey type then InheritedMember else Undefined
  end.

(** *** detectType *)

(* /error\s+TS\d+:/i *)
Definition probe_typescript := mkre flagI (seqs [
  str "error"; plus space; str "TS"; plus digit; Lit (chr ":") ]).

(* /\d+:\d+\s+(error|warning)\s+.+\s+\S+$/m *)
Definition probe_eslint := mkre flagM (seqs [
  plus digit; Lit (chr ":"); plus digit; plus space;
  Cap 1 (Alt (str "error") (str "warning")); plus space; plus Dot; plus space;
  plus notSpace; Eol ]).

(* /^\s*(?:●|✕|✖|FAIL\s+)/m *)
Definition probe_jest := mkre flagM (seqs [
  Bol; star space;
  alts [Lit bullet; Lit cross; Lit heavyCross; Seq (str "FAIL") (plus space)] ]).

(* /Test Suites?:.*failed/i *)
Definition probe_jest_summary := mkre flagI (seqs [
  str "Test Suite"; opt (Lit (chr "s")); Lit (chr ":"); star Dot; str "failed" ]).

(* /File\s+Q.+Q,\s+line\s+\d+/i  where Q stands for the double quote *)
Definition probe_python := mkre flagI (seqs [
  str "File"; plus space; Lit dquote; plus Dot; Lit dquote; Lit (chr ",");
  plus space; str "line"; plus space; plus digit ]).

(* /\w+Error:|Traceback/i *)
Definition probe_python_error := mkre flagI (
  Alt (seqs [plus word; str "Error:"]) (str "Traceback")).

(* /^(error|warning)\[E\d+\]:/m *)
Definition probe_rust := mkre flagM (seqs [
  Bol; Cap 1 (Alt (str "error") (str "warning")); str "[E"; plus digit; str "]:" ]).

(* /\.go:\d+:\d+:/ *)
Definition probe_go := mkre noFlags (seqs [
  str ".go:"; plus digit; Lit (chr ":"); plus digit; Lit (chr ":") ]).

(* /\.[ch](pp|xx)?:\d+:\d+:\s*(error|warning):/ *)
Definition probe_gcc := mkre noFlags (seqs [
  Lit (chr "."); oneOf "ch"; opt (Cap 1 (Alt (str "pp") (str "xx")));
  Lit (chr ":"); plus digit; Lit (chr ":"); plus digit; Lit (chr ":"); star space;
  Cap 2 (Alt (str "error") (str "warning")); Lit (chr ":") ]).

Definition detectType (input : jsstring) : jsstring :=
  if test probe_typescript input then u "typescript"
  else if test probe_eslint input then u "eslint"
  else if test probe_jest input || test probe_jest_summary input then u "jest"
  else if test probe_python input || test probe_python_error input then u "python"
  else if test probe_rust input then u "rust"
  else if test probe_go input then u "go"
  else if test probe_gcc input then u "gcc"
  else u "generic".

(** *** parseErrors *)

(** How a call ends.  [Diverges]: the JavaScript loops for ever.
    [OutOfFuel] is an artefact of the embedding; [execLoop_fuel] shows
    that a scan never ends with it. *)
Inductive outcome (A : Type) :=
| Returns (a : A)
| Throws (e : jsstring)
| Diverges
| OutOfFuel.
Arguments Returns {A} a.
Arguments Throws {A} e.
Arguments Diverges {A}.
Arguments OutOfFuel {A}.

Definition TypeError : jsstring := u "TypeError".

Definition withRaw (e : ErrorRecord) (m : jsmatch) : ErrorRecord :=
  {| e_file := e_file e; e_line := e_line e; e_column := e_column e;
     e_severity := e_severity e; e_code := e_code e; e_message := e_message e;
     e_type := e_type e; e_function := e_function e;
     e_raw := Some (m_whole m); e_position := Some (m_index m) |}.

Definition pushed (e : option ErrorRecord) (rest : outcome (list ErrorRecord))
    : outcome (list ErrorRecord) :=
  match e, rest with
  | Some e, Returns l => Returns (e :: l)
  | _, _ => rest
  end.

(** The [while ((match = pattern.regex.exec(input)) !== null)] loop;
    the cursor is [lastIndex].  A match that leaves [lastIndex] where
    it was is found again at every later turn.  A match on which
    [extract] throws is skipped by the [catch]. *)
Fixpoint execLoop (fuel : nat) (pattern : Pattern) (input : jsstring) (c : cursor)
    : outcome (list ErrorRecord) :=
  match fuel with
  | 0 => OutOfFuel
  | S fuel' =>
    match search (p_regex pattern) c with
    | None => Returns []
    | Some (start, y) =>
        if ms_idx y <=? cu_idx c then Diverges
        else
          let m := toMatch input start y in
          pushed ((fun e => withRaw e m) <$> p_extract pattern m)
                 (execLoop fuel' pattern input (cursorOf y))
    end
  end.

(** One scan of the whole input, from [lastIndex = 0]. *)
Definition scan (pattern : Pattern) (input : jsstring) : outcome (list ErrorRecord) :=
  execLoop (S (length input)) pattern input (startOf input).

(** [PATTERNS[type] || PATTERNS.generic], with the key of the pattern
    chosen; [None] for an inherited member, on which
    [pattern.regex.lastIndex = 0] throws a TypeError. *)
Definition choosePattern (type : jsstring) : option (jsstring * Pattern) :=
  match PATTERNS_get type with
  | OwnPattern p => Some (type, p)
  | InheritedMember => None
  | Undefined => Some (u "generic", generic)
  end.

(** [parseErrors], with the keys of the patterns it has scanned the
    input with (a log kept by the embedding only).  [depth] bounds the
    recursion. *)
Fixpoint parseErrorsLog (depth : nat) (input forcedType : jsstring)
    : outcome (list ErrorRecord) * list jsstring :=
  match depth with
  | 0 => (OutOfFuel, [])
  | S depth' =>
    let type := if jsstring_eqb forcedType (u "auto") then detectType input
                else forcedType in
    match choosePattern type with
    | None => (Throws TypeError, [])
    | Some (key, pattern) =>
        match scan pattern input with
        | Returns errors =>
            if (length errors =? 0) && negb (jsstring_eqb type (u "generic"))
            then
              let '(r, log) := parseErrorsLog depth' input (u "generic") in
              (r, key :: log)
            else (Returns errors, [key])
        | other => (other, [key])
        end
    end
  end.

Definition parseErrors (input forcedType : jsstring) : outcome (list ErrorRecord) :=
  fst (parseErrorsLog 2 input forcedType).

Definition scansOf (input forcedType : jsstring) : list jsstring :=
  snd (parseErrorsLog 2 input forcedType).

(** *** getErrorSignature *)

Definition quotes : list cset := [CChar squote; CChar dquote; CChar backquote].
Definition segmentChar := Class false [CWord; CChar (chr "."); CChar (chr "-")].

(* /[Q]?(?:\/[\w.-]+)+(?:\/[\w.-]+)?[Q]?/g  where [Q] is the class of
   the single quote, the double quote and the backquote *)
Definition posixPath_regex := mkre noFlags (seqs [
  opt (Class false quotes);
  plus (Seq (Lit (chr "/")) (plus segmentChar));
  opt (Seq (Lit (chr "/")) (plus segmentChar));
  opt (Class false quotes) ]).

(* /[Q]?(?:[A-Za-z]:\\[\w.-]+)+(?:\\[\w.-]+)?[Q]?/g *)
Definition windowsPath_regex := mkre noFlags (seqs [
  opt (Class false quotes);
  plus (seqs [Class false [CRange (chr "A") (chr "Z"); CRange (chr "a") (chr "z")];
              Lit (chr ":"); Lit backslash; plus segmentChar]);
  opt (Seq (Lit backslash) (plus segmentChar));
  opt (Class false quotes) ]).

(* /\b(?:line|col|column)\s*\d+/gi *)
Definition lineCol_regex := mkre flagI (seqs [
  WordB; alts [str "line"; str "col"; str "column"]; star space; plus digit ]).

(* /:\d+:\d+/g *)
Definition position_regex := mkre noFlags (seqs [
  Lit (chr ":"); plus digit; Lit (chr ":"); plus digit ]).

(* /[Q]([^Q]{1,50})[Q]/g *)
Definition quoted_regex := mkre noFlags (seqs [
  Class false quotes; Cap 1 (Rep (Class true quotes) 1 (Some 50) true);
  Class false quotes ]).

(* /\b0x[0-9a-f]+\b/gi *)
Definition hex_regex := mkre flagI (seqs [
  WordB; str "0x";
  plus (Class false [CRange (chr "0") (chr "9"); CRange (chr "a") (chr "f")]);
  WordB ]).

(* /\b\d{5,}\b/g *)
Definition longNumber_regex := mkre noFlags (seqs [
  WordB; Rep digit 5 None true; WordB ]).

Definition getErrorSignature (error : ErrorRecord) : jsstring :=
  let sig := match e_message error with Some (c :: m) => c :: m | _ => [] end in
  let sig := replaceAll posixPath_regex (u "<path>") sig in
  let sig := replaceAll windowsPath_regex (u "<path>") sig in
  let sig := replaceAll lineCol_regex (u "<loc>") sig in
  let sig := replaceAll position_regex (u ":<loc>") sig in
  let sig := replaceAll quoted_regex (u "'<name>'") sig in
  let sig := replaceAll hex_regex (u "<hex>") sig in
  let sig := replaceAll longNumber_regex (u "<id>") sig in
  let sig := match e_code error with
             | Some (c :: code) => u "[" ++ (c :: code) ++ u "] " ++ sig
             | _ => sig
             end in
  trim sig.

(* ===================================================================== *)
(** ** grouper.js *)
(* ===================================================================== *)

(** A [Set] of strings: its elements in insertion order. *)
Abbreviation jsset := (list jsstring).

Definition setHas (s : jsset) (x : jsstring) : bool := bool_decide (x ∈ s).
Definition setAdd (s : jsset) (x : jsstring) : jsset :=
  if setHas s x then s else s ++ [x].
Definition newSet (l : list jsstring) : jsset := foldl setAdd [] l.

Record Group := {
  g_signature : jsstring;
  g_count : nat;
  g_errors : list ErrorRecord;
  g_files : jsset;
  g_representative : ErrorRecord;
  g_code : option jsstring;
  g_type : option jsstring;
  g_severity : option jsstring
}.

Record GroupOpts := { top : option jsnum }.

(** [opts = {}]. *)
Definition noOpts : GroupOpts := {| top := None |}.

(** [Array.prototype.sort] with a comparator.  The sort is stable
    (ECMA-262 23.1.3.30), so for a consistent comparator its result is
    the one computed here by insertion: an element goes before the
    first one that the comparator does not put before it. *)
Fixpoint insertSorted {A} (cmp : A -> A -> Z) (x : A) (l : list A) : list A :=
  match l with
  | [] => [x]
  | y :: l' => if (cmp x y <=? 0)%Z then x :: y :: l' else y :: insertSorted cmp x l'
  end.

Definition sort {A} (cmp : A -> A -> Z) (l : list A) : list A :=
  foldr (insertSorted cmp) [] l.

(** [(a, b) => b.count - a.count] *)
Definition byCountDesc (a b : Group) : Z := (Z.of_nat (g_count b) - Z.of_nat (g_count a))%Z.

(** The value at a key of a [Map] or object, replaced in place. *)
Fixpoint alter {V} (f : V -> V) (k : jsstring) (l : list (jsstring * V))
    : list (jsstring * V) :=
  match l with
  | (k', v) :: l' =>
      if jsstring_eqb k k' then (k', f v) :: l' else (k', v) :: alter f k l'
  | [] => []
  end.

(** The body of the [for (const error of errors)] loop of
    [groupErrors]; [groups] is the [Map], in insertion order. *)
Definition addError (groups : list (jsstring * Group)) (error : ErrorRecord)
    : list (jsstring * Group) :=
  let signature := getErrorSignature error in
  match assoc signature groups with
  | Some _ =>
      alter (fun group =>
        {| g_signature := g_signature group;
           g_count := S (g_count group);
           g_errors := g_errors group ++ [error];
           g_files :=
             match e_file error with
             | Some (c :: f) =>
                 if negb (setHas (g_files group) (c :: f))
                 then g_files group ++ [c :: f] else g_files group
             | _ => g_files group
             end;
           g_representative := g_representative group;
           g_code := g_code group;
           g_type := g_type group;
           g_severity := g_severity group |}) signature groups
  | None =>
      groups ++ [(signature,
        {| g_signature := signature;
           g_count := 1;
           g_errors := [error];
           g_files := newSet (match e_file error with
                              | Some (c :: f) => [c :: f]
                              | _ => []
                              end);
           g_representative := error;
           g_code := e_code error;
           g_type := e_type error;
           g_severity := e_severity error |})]
  end.

(** The [Map] after the loop. *)
Definition groupMap (errors : list ErrorRecord) : list (jsstring * Group) :=
  foldl addError [] errors.

(** [result.slice(0, n)] for a number [n > 0]. *)
Definition sliceTo {A} (n : jsnum) (l : list A) : list A :=
  match n with
  | Fin z => take (Z.to_nat z) l
  | _ => l
  end.

(** [opts.top && opts.top > 0] *)
Definition topLimit (opts : GroupOpts) : bool :=
  match top opts with
  | Some (Fin z) => (0 <? z)%Z
  | Some PosInf => true
  | _ => false
  end.

Definition groupErrors (errors : list ErrorRecord) (opts : GroupOpts) : list Group :=
  let result := sort byCountDesc (List.map snd (groupMap errors)) in
  if topLimit opts
  then sliceTo (default NaN (top opts)) result
  else result.

(** *** similarity *)

(* /\W+/ *)
Definition nonWord_regex := mkre noFlags (plus notWord).

(** [new Set(str.toLowerCase().split(/\W+/).filter(Boolean))] *)
Definition tokens (str : jsstring) : jsset :=
  newSet (List.filter (fun t => truthy (Some t)) (split nonWord_regex (toLowerCase str))).

(** The [for (const token of tokens1)] loop. *)
Definition countCommon (tokens1 tokens2 : jsset) : nat :=
  foldl (fun intersection token =>
           if setHas tokens2 token then S intersection else intersection)
        0 tokens1.

(** The result is the rational that the double returned by the
    JavaScript is nearest to ([intersection / union] is one rounded
    division of two integers; [0] and [1] are exact).  The test
    [|len1 - len2| > max(len1, len2) * 0.5] is exact in doubles and is
    written with integers. *)
Definition similarity (str1 str2 : jsstring) : Q :=
  if jsstring_eqb str1 str2 then 1
  else if negb (truthy (Some str1)) || negb (truthy (Some str2)) then 0
  else
    let len1 := Z.of_nat (length str1) in
    let len2 := Z.of_nat (length str2) in
    if (Z.max len1 len2 <? 2 * Z.abs (len1 - len2))%Z then 0
    else
      let tokens1 := tokens str1 in
      let tokens2 := tokens str2 in
      let intersection := countCommon tokens1 tokens2 in
      let union := length tokens1 + length tokens2 - intersection in
      if union =? 0 then 0
      else Z.of_nat intersection # Pos.of_nat union.

(** *** mergeSimilarGroups *)

(** [{ ...groups[j] }] with [group.count += ...] and the pushes into
    the copied [errors] and [files]. *)
Definition absorb (group other : Group) : Group :=
  {| g_signature := g_signature group;
     g_count := g_count group + g_count other;
     g_errors := g_errors group ++ g_errors other;
     g_files := foldl setAdd (g_files group) (g_files other);
     g_representative := g_representative group;
     g_code := g_code group;
     g_type := g_type group;
     g_severity := g_severity group |}.

(** One turn of the inner [for (let j = i + 1; ...)] loop. *)
Definition mergeStep (groups : list Group) (threshold : Q)
    (st : Group * gset nat) (j : nat) : Group * gset nat :=
  let '(group, used) := st in
  if bool_decide (j ∈ used) then st
  else
    match groups !! j with
    | Some other =>
        let sim := similarity (g_signature group) (g_signature other) in
        if Qle_bool threshold sim
        then (absorb group other, {[ j ]} ∪ used)
        else st
    | None => st
    end.

(** One turn of the outer [for (let i = 0; ...)] loop. *)
Definition mergeFrom (groups : list Group) (threshold : Q)
    (st : list Group * gset nat) (i : nat) : list Group * gset nat :=
  let '(merged, used) := st in
  if bool_decide (i ∈ used) then st
  else
    match groups !! i with
    | Some gi =>
        let '(group, used') :=
          foldl (mergeStep groups threshold) (gi, used)
                (seq (S i) (length groups - S i)) in
        (merged ++ [group], {[ i ]} ∪ used')
    | None => st
    end.

Definition mergeSimilarGroups (groups : list Group) (threshold : Q) : list Group :=
  sort byCountDesc
       (fst (foldl (mergeFrom groups threshold) ([], ∅) (seq 0 (length groups)))).

(** *** getStats *)

(** A value of the frequency tables [byType], [bySeverity] and
    [codeCounts]: a count, or the string that [(x || 0) + 1] makes
    when [x] is a member inherited from [Object.prototype] (the text of
    a function followed by ones), which is [NaN] as a number. *)
Inductive tally := Count (n : nat) | Text.

(** A plain object used as a table: its own properties in creation
    order. *)
Definition table := list (jsstring * tally).

Definition protoKey : jsstring := u "__proto__".

(** [table[key] = (table[key] || 0) + 1].  A key that is not an own
    property reads the inherited member when there is one; writing
    [__proto__] does not create a property. *)
Definition bump (key : jsstring) (t : table) : table :=
  match assoc key t with
  | Some _ => alter (fun v => match v with Count n => Count (S n) | Text => Text end) key t
  | None =>
      if inheritedKey key
      then if jsstring_eqb key protoKey then t else t ++ [(key, Text)]
      else t ++ [(key, Count 1)]
  end.

Definition allDigits (k : jsstring) : bool := forallb isDigit k.

(** The array index that a property key denotes, if any: a canonical
    decimal numeral below [2^32 - 1]. *)
Definition arrayIndex (k : jsstring) : option Z :=
  match k with
  | [] => None
  | c :: k' =>
      if allDigits k && (negb (c =? 48)%N || bool_decide (k' = []))
         && (digitsValue 0 k <? 2 ^ 32 - 1)%Z
      then Some (digitsValue 0 k)
      else None
  end.

Definition isIndexKey {V} (kv : jsstring * V) : bool :=
  match arrayIndex (fst kv) with Some _ => true | None => false end.

Definition byIndex {V} (a b : jsstring * V) : Z :=
  (default 0 (arrayIndex (fst a)) - default 0 (arrayIndex (fst b)))%Z.

(** [Object.entries]: array indices in ascending order, then the other
    keys in creation order (ECMA-262 10.1.11.1). *)
Definition entries {V} (t : list (jsstring * V)) : list (jsstring * V) :=
  sort byIndex (List.filter isIndexKey t) ++ List.filter (fun kv => negb (isIndexKey kv)) t.

(** The result of [getStats].  [byType] and [bySeverity] are plain
    objects that are only read once they are returned: they are given
    by their own properties in the order in which [Object.entries],
    [Object.keys] and [JSON.stringify] list them. *)
Record Stats := {
  totalErrors : nat;
  uniquePatterns : nat;
  filesAffected : nat;
  byType : table;
  bySeverity : table;
  topCode : option (jsstring * nat)
}.

(** [codeCounts] after the loop over [allErrors]. *)
Definition codeCounts (allErrors : list ErrorRecord) : table :=
  foldl (fun t error =>
           match e_code error with
           | Some (c :: code) => bump (c :: code) t
           | _ => t
           end) [] allErrors.

(** The [for (const [code, count] of Object.entries(codeCounts))] loop,
    on [(maxCount, stats.topCode)]. *)
Definition topCodeStep (st : nat * option (jsstring * nat)) (kv : jsstring * tally)
    : nat * option (jsstring * nat) :=
  match snd kv with
  | Count count => if fst st <? count then (count, Some (fst kv, count)) else st
  | Text => st
  end.

Definition getStats (groups : list Group) (allErrors : list ErrorRecord) : Stats :=
  {| totalErrors := length allErrors;
     uniquePatterns := length groups;
     filesAffected :=
       length (foldl (fun s error =>
                        match e_file error with
                        | Some (c :: f) => setAdd s (c :: f)
                        | _ => s
                        end) [] allErrors);
     byType :=
       entries
         (foldl (fun t error =>
                   bump (match e_type error with
                         | Some (c :: ty) => c :: ty
                         | _ => u "unknown"
                         end) t) [] allErrors);
     bySeverity :=
       entries
         (foldl (fun t error =>
                   bump (match e_severity error with
                         | Some (c :: sev) => c :: sev
                         | _ => u "error"
                         end) t) [] allErrors);
     topCode := snd (foldl topCodeStep (0, None) (entries (codeCounts allErrors))) |}.

(* ===================================================================== *)
(** ** cli.js: the [top] option *)
(* ===================================================================== *)

(** [parseCliArgs().top]: [parseInt(values.top, 10) || 10], where
    [values.top] is the argument of [--top], ['10'] when not given. *)
Definition parseCliTop (arg : option jsstring) : jsnum :=
  numOr (parseInt (default (u "10") arg)) (Fin 10).

(** [groupErrors(errors, opts)] as [main] calls it. *)
Definition mainGroups (arg : option jsstring) (errors : list ErrorRecord) : list Group :=
  groupErrors errors {| top := Some (parseCliTop arg) |}.

(* ===================================================================== *)
(** ** formatter.js: colors and the highlighted message *)
(* ===================================================================== *)

Module Formatter.

(** The keys of [COLORS]. *)
Inductive color := reset | bold | dim | red | yellow | green | cyan | magenta | gray.

Definition escape : N := 27.

(** [COLORS[color]] *)
Definition COLORS (k : color) : jsstring :=
  escape :: match k with
            | reset => u "[0m" | bold => u "[1m" | dim => u "[2m"
            | red => u "[31m" | yellow => u "[33m" | green => u "[32m"
            | cyan => u "[36m" | magenta => u "[35m" | gray => u "[90m"
            end.

(** The option that is read here. *)
Record Opts := { noColor : bool }.

(** [c(text, color, opts)]; every call has a key of [COLORS] as its
    color. *)
Definition c (text : jsstring) (k : color) (opts : Opts) : jsstring :=
  if noColor opts then text else COLORS k ++ text ++ COLORS reset.

(** [s.replace(re, f)] for a pattern with the [g] flag and a function
    [f] of the match, whose result is inserted as it is. *)
Fixpoint replaceLoopWith (fuel : nat) (re : jsregexp) (f : jsmatch -> jsstring)
    (input : jsstring) (p : cursor) : jsstring :=
  match fuel with
  | 0 => cu_rest p
  | S fuel' =>
    match search re p with
    | None => cu_rest p
    | Some (start, y) =>
        let skipped := take (start - cu_idx p) (cu_rest p) in
        let repl := f (toMatch input start y) in
        if ms_idx y =? start then
          match ms_rest y with
          | ch :: _ =>
              skipped ++ repl
                ++ ch :: replaceLoopWith fuel' re f input (advance (cursorOf y))
          | [] => skipped ++ repl
          end
        else skipped ++ repl ++ replaceLoopWith fuel' re f input (cursorOf y)
    end
  end.

Definition replaceAllWith (re : jsregexp) (f : jsmatch -> jsstring) (s : jsstring)
    : jsstring :=
  replaceLoopWith (S (length s)) re f s (startOf s).

(* /[Q]([^Q]+)[Q]/g  where [Q] is the class of the three quotes *)
Definition highlight_regex : jsregexp := mkre noFlags (seqs [
  Class false quotes; Cap 1 (plus (Class true quotes)); Class false quotes ]).

(** The text of a template literal for a capture: ['undefined'] for an
    undefined one. *)
Definition templateText (g : option jsstring) : jsstring := default (u "undefined") g.

Definition formatErrorMessage (error : ErrorRecord) (opts : Opts) : jsstring :=
  let msg := match e_message error with
             | Some (ch :: m) => ch :: m
             | _ => u "Unknown error"
             end in
  if negb (noColor opts)
  then replaceAllWith highlight_regex
         (fun m => c (u "'" ++ templateText (group m 1) ++ u "'") cyan opts) msg
  else msg.

End Formatter.

(* ===================================================================== *)
(** ** Vocabulary of the properties *)
(* ===================================================================== *)

(** *** Matcher *)

(** The lower bound of a quantifier, also when it is above the upper one. *)
Definition effMin (min : nat) (max : option nat) : nat :=
  match max with Some n => Nat.min min n | None => min end.

(** Least number of code units that a match of the pattern consumes. *)
Fixpoint minLen (r : regex) : nat :=
  match r with
  | Lit _ | Dot | Class _ _ => 1
  | Seq a b => minLen a + minLen b
  | Alt a b => Nat.min (minLen a) (minLen b)
  | Cap _ r1 => minLen r1
  | Rep r1 min max _ => effMin min max * minLen r1
  | _ => 0
  end.

(** [y] is at least [n] code units further in the same input as [x]. *)
Definition ahead (n : nat) (x y : mstate) : Prop :=
  ms_idx x + n <= ms_idx y /\
  ms_idx y + length (ms_rest y) = ms_idx x + length (ms_rest x).

(** A matcher that only succeeds through its continuation, at least
    [n] code units further. *)
Definition advances (n : nat) (m : matcher) : Prop :=
  forall x c z, m x c = Some z -> exists y, c y = Some z /\ ahead n x y.

(** A matcher that looks at its continuation only at states further
    in the same input. *)
Definition local (m : matcher) : Prop :=
  forall x c1 c2, (forall y, ahead 0 x y -> c1 y = c2 y) -> m x c1 = m x c2.

Section NeedsDefinitions.
Variable P : N -> bool.
Variable fl : flags.

(** Every match of the pattern contains a code unit in [P]. *)
Fixpoint needs (r : regex) : Prop :=
  match r with
  | Lit p => forall c, litMatches fl p c = true -> P c = true
  | Class neg cs => forall c, classMatches fl neg cs c = true -> P c = true
  | Seq a b => needs a \/ needs b
  | Alt a b => needs a /\ needs b
  | Cap _ r1 => needs r1
  | Rep r1 min max _ => 1 <= min /\ max <> Some 0 /\ needs r1
  | _ => False
  end.

(** No code unit of the rest of the input is in [P]. *)
Definition free (x : mstate) : Prop := Forall (fun c => P c = false) (ms_rest x).

(** A continuation that fails on every such state. *)
Definition fails (c : cont) : Prop := forall y, free y -> c y = None.
End NeedsDefinitions.

(** The state after the longest run of code units in [p]. *)
Fixpoint skipRun (p : N -> bool) (x : mstate) (rest : jsstring) : mstate :=
  match rest with
  | ch :: r =>
      if p ch
      then skipRun p {| ms_idx := S (ms_idx x); ms_prev := Some ch;
                        ms_rest := r; ms_caps := ms_caps x |} r
      else x
  | [] => x
  end.

(** *** Records and signatures *)

(** A record with a message and, possibly, a code, and nothing else. *)
Definition msg (s : jsstring) (code : option jsstring) : ErrorRecord :=
  {| e_file := None; e_line := None; e_column := None; e_severity := None;
     e_code := code; e_message := Some s; e_type := None; e_function := None;
     e_raw := None; e_position := None |}.

(** The record with its message replaced by its signature. *)
Definition reapplied (error : ErrorRecord) : ErrorRecord :=
  {| e_file := e_file error; e_line := e_line error; e_column := e_column error;
     e_severity := e_severity error; e_code := e_code error;
     e_message := Some (getErrorSignature error); e_type := e_type error;
     e_function := e_function error; e_raw := e_raw error;
     e_position := e_position error |}.

(** The signatures of the records, in input order. *)
Definition signatures (errors : list ErrorRecord) : list jsstring :=
  List.map getErrorSignature errors.

(** *** Extraction *)

(** The type that [parseErrors] works with. *)
Definition resolvedType (input forcedType : jsstring) : jsstring :=
  if jsstring_eqb forcedType (u "auto") then detectType input else forcedType.

(** *** Groups *)

(** Sum of the counts of the groups. *)
Definition totalCount (groups : list Group) : nat := sum_list_with g_count groups.

(** Descending order of count. *)
Definition countGe (a b : Group) : Prop := g_count b <= g_count a.

(** Index of the first occurrence ([length l] when there is none). *)
Fixpoint firstIndex (s : jsstring) (l : list jsstring) : nat :=
  match l with
  | [] => 0
  | x :: l' => if jsstring_eqb s x then 0 else S (firstIndex s l')
  end.

(** [a] occurs in [l] before an occurrence of [b]. *)
Definition before {A} (a b : A) (l : list A) : Prop :=
  exists l1 l2 l3, l = l1 ++ a :: l2 ++ b :: l3.

(** Sum of the counts of the groups whose index, counted from [off],
    is in [used]. *)
Fixpoint usedCount (used : gset nat) (off : nat) (l : list Group) : nat :=
  match l with
  | [] => 0
  | g :: l' =>
      (if bool_decide (off ∈ used) then g_count g else 0) + usedCount used (S off) l'
  end.

(** *** Similarity, as the specification words it *)

(** A run of word characters, when there is one. *)
Definition emit (cur : jsstring) : list jsstring :=
  match cur with [] => [] | _ => [cur] end.

(** The maximal runs of word characters of [s], in order; [cur] is the
    run being read. *)
Fixpoint wordsFrom (cur : jsstring) (s : jsstring) : list jsstring :=
  match s with
  | [] => emit cur
  | c :: s' =>
      if isWordChar c then wordsFrom (cur ++ [c]) s'
      else emit cur ++ wordsFrom [] s'
  end.

(** The text split at the runs of other characters. *)
Definition wordsOf (s : jsstring) : list jsstring := wordsFrom [] s.

(** The set of case-folded tokens of a string. *)
Definition tokenSet (s : jsstring) : gset jsstring :=
  list_to_set (wordsOf (toLowerCase s)).

(** The Jaccard index of two finite sets, [0] for two empty sets. *)
Definition jaccard (A B : gset jsstring) : Q :=
  if size (A ∪ B) =? 0 then 0
  else Z.of_nat (size (A ∩ B)) # Pos.of_nat (size (A ∪ B)).

(** The lengths differ by more than half of the longer one. *)
Definition lengthsFarApart (a b : jsstring) : Prop :=
  (inject_Z (Z.of_nat (Nat.max (length a) (length b))) * (1 # 2)
   < inject_Z (Z.abs (Z.of_nat (length a) - Z.of_nat (length b))))%Q.

#[global] Instance lengthsFarApart_dec a b : Decision (lengthsFarApart a b).
Proof.
  unfold lengthsFarApart.
  destruct (Qlt_le_dec
    (inject_Z (Z.of_nat (Nat.max (length a) (length b))) * (1 # 2))
    (inject_Z (Z.abs (Z.of_nat (length a) - Z.of_nat (length b))))) as [H|H].
  - left. exact H.
  - right. apply Qle_not_lt. exact H.
Defined.

(** [similarity] as the specification states it. *)
Definition similaritySpec (a b : jsstring) : Q :=
  if decide (a = b) then 1
  else if decide (a = [] \/ b = []) then 0
  else if decide (lengthsFarApart a b) then 0
  else jaccard (tokenSet a) (tokenSet b).

(** [Boolean(t)] for a string. *)
Definition nonEmpty (t : jsstring) : bool := truthy (Some t).

(** *** Statistics *)

(** The codes of the records that have one, in input order. *)
Fixpoint codesOf (errors : list ErrorRecord) : list jsstring :=
  match errors with
  | [] => []
  | error :: errors' =>
      match e_code error with
      | Some (c :: code) => (c :: code) :: codesOf errors'
      | _ => codesOf errors'
      end
  end.

(** Number of records with the code [c]. *)
Definition frequency (c : jsstring) (codes : list jsstring) : nat :=
  length (List.filter (jsstring_eqb c) codes).

(** The order in which [Object.entries] lists two keys of a table
    whose keys were created in the order of [codes]. *)
Definition listedBefore (codes : list jsstring) (c c' : jsstring) : Prop :=
  match arrayIndex c, arrayIndex c' with
  | Some i, Some i' => (i < i')%Z
  | Some _, None => True
  | None, Some _ => False
  | None, None => firstIndex c codes < firstIndex c' codes
  end.

(** The table after counting the codes one by one. *)
Definition tallyOf (codes : list jsstring) : table :=
  foldl (fun t c => bump c t) [] codes.

(** The array index of the key of an entry, [0] when it has none. *)
Definition indexOf {V} (kv : jsstring * V) : Z := default 0%Z (arrayIndex (fst kv)).

(** No record has a code that names a member inherited from
    [Object.prototype]. *)
Definition noInheritedCode (errors : list ErrorRecord) : bool :=
  forallb (fun c => negb (inheritedKey c)) (codesOf errors).

(** *** Matcher states *)

(** [y] is further in the input of [x], after the code units [pre]. *)
Definition follows (x y : mstate) : Prop :=
  exists pre, ms_rest x = pre ++ ms_rest y /\ ms_idx y = ms_idx x + length pre.

(** A matcher that only succeeds through its continuation, at a state
    that [R] relates to the one it starts from. *)
Definition threadsBy (R : mstate -> mstate -> Prop) (m : matcher) : Prop :=
  forall x c z, m x c = Some z -> exists y, c y = Some z /\ R x y.

(** A matcher that only succeeds further in the same input. *)
Definition threads (m : matcher) : Prop := threadsBy follows m.

(** The groups that every match of a pattern defines: those that are
    not inside a quantifier and are on both sides of every alternative. *)
Fixpoint surelySet (r : regex) : list nat :=
  match r with
  | Seq a b => surelySet a ++ surelySet b
  | Alt a b => List.filter (fun n => bool_decide (n ∈ surelySet b)) (surelySet a)
  | Cap n r1 => n :: surelySet r1
  | _ => []
  end.

(** The group [n] is defined in the state [x]. *)
Definition defined (n : nat) (x : mstate) : Prop :=
  exists v, ms_caps x !! n = Some (Some v).

(** From [x] to [y] only the groups [gs] have changed. *)
Definition capsKept (gs : list nat) (x y : mstate) : Prop :=
  length (ms_caps y) = length (ms_caps x) /\
  forall n, n ∉ gs -> ms_caps y !! n = ms_caps x !! n.

(** From [x] to [y] only the groups of [r] have changed, and those
    that [r] surely sets are defined. *)
Definition yields (r : regex) (x y : mstate) : Prop :=
  capsKept (groupsOf r) x y /\
  forall n, n ∈ surelySet r -> n < length (ms_caps x) -> defined n y.

(** *** Records *)

(** The records lie in the input one after the other, from the index
    [from] on: each has its position, and as [raw] the non-empty text
    of the input at that position. *)
Fixpoint laidOut (input : jsstring) (from : nat) (l : list ErrorRecord) : Prop :=
  match l with
  | [] => True
  | e :: l' =>
      exists p r,
        e_position e = Some p /\ e_raw e = Some r /\ from <= p /\ r <> [] /\
        p + length r <= length input /\ r = substring input p (p + length r) /\
        laidOut input (p + length r) l'
  end.

(** The records of signature [s], in input order. *)
Definition members (s : jsstring) (errors : list ErrorRecord) : list ErrorRecord :=
  List.filter (fun e => jsstring_eqb (getErrorSignature e) s) errors.

(** The files of the records that have one, in input order. *)
Fixpoint filesOf (errors : list ErrorRecord) : list jsstring :=
  match errors with
  | [] => []
  | error :: errors' =>
      match e_file error with
      | Some (c :: f) => (c :: f) :: filesOf errors'
      | _ => filesOf errors'
      end
  end.

(** [error.type || 'unknown'] *)
Definition typeOf (error : ErrorRecord) : jsstring :=
  match e_type error with Some (c :: ty) => c :: ty | _ => u "unknown" end.

(** [error.severity || 'error'] *)
Definition severityOf (error : ErrorRecord) : jsstring :=
  match e_severity error with Some (c :: sev) => c :: sev | _ => u "error" end.

(** *** Groups and their records *)

(** The group of the signature [s] in the records [errors]. *)
Definition groupFor (errors : list ErrorRecord) (s : jsstring) (g : Group) : Prop :=
  g_signature g = s /\
  g_errors g = members s errors /\
  g_count g = length (g_errors g) /\
  g_files g = newSet (filesOf (g_errors g)) /\
  head (g_errors g) = Some (g_representative g) /\
  g_code g = e_code (g_representative g) /\
  g_type g = e_type (g_representative g) /\
  g_severity g = e_severity (g_representative g).

(** What [groupErrors] and [mergeSimilarGroups] keep true of a group. *)
Definition consistent (g : Group) : Prop :=
  g_count g = length (g_errors g) /\
  g_files g = newSet (filesOf (g_errors g)) /\
  head (g_errors g) = Some (g_representative g).

(** [m] is built on [g]: it has its signature, representative, code,
    type and severity. *)
Definition builtOn (g m : Group) : Prop :=
  g_signature m = g_signature g /\ g_representative m = g_representative g /\
  g_code m = g_code g /\ g_type m = g_type g /\ g_severity m = g_severity g.

(** The records of the groups, group after group. *)
Definition recordsOf (groups : list Group) : list ErrorRecord :=
  flat_map g_errors groups.

(** The records of the groups whose index, counted from [off], is in
    [used]. *)
Fixpoint usedRecords (used : gset nat) (off : nat) (l : list Group) : list ErrorRecord :=
  match l with
  | [] => []
  | g :: l' =>
      (if bool_decide (off ∈ used) then g_errors g else []) ++ usedRecords used (S off) l'
  end.

(** *** Tables *)

(** The sum of the counts of a table. *)
Definition countSum (t : table) : nat :=
  sum_list_with (fun kv => match snd kv with Count n => n | Text => 0 end) t.

(** *** The shown message *)

(** One of the three quotes. *)
Definition isQuote (ch : N) : bool :=
  ((ch =? squote) || (ch =? dquote) || (ch =? backquote))%N.

(** [error.message || 'Unknown error'] *)
Definition shownText (error : ErrorRecord) : jsstring :=
  match e_message error with Some (ch :: m) => ch :: m | _ => u "Unknown error" end.

(** *** Replacements *)

(** The code unit before a position that is [pre] after one that has
    [prev] before it. *)
Definition lastOr (prev : option N) (pre : jsstring) : option N :=
  match last pre with Some ch => Some ch | None => prev end.

(** [y] is further in the input of [x], after the code units [pre],
    the last of which is the one before [y]. *)
Definition tracks (x y : mstate) : Prop :=
  exists pre, ms_rest x = pre ++ ms_rest y /\
              ms_idx y = ms_idx x + length pre /\
              ms_prev y = lastOr (ms_prev x) pre.

(** The cursor [g] after [c], with [t] from there on. *)
Definition after (c : cursor) (g t : jsstring) : cursor :=
  {| cu_idx := cu_idx c + length g; cu_prev := lastOr (cu_prev c) g; cu_rest := t |}.

(** The pattern matches at no position from the cursor on. *)
Definition unmatched (re : jsregexp) (c : cursor) : Prop :=
  forall g t, cu_rest c = g ++ t -> matchAt re (after c g t) = None.

(** The pattern matches nowhere in the text: [exec] finds nothing. *)
Definition matchless (re : jsregexp) (s : jsstring) : Prop :=
  search re (startOf s) = None.

(** The pattern matches at no position of [g], which [t] follows. *)
Definition unmatchedIn (re : jsregexp) (c : cursor) (g t : jsstring) : Prop :=
  forall g1 g2, g = g1 ++ g2 -> g2 <> [] -> matchAt re (after c g1 (g2 ++ t)) = None.

(** What the replacement of every match gives from a cursor: the input
    as it is when nothing matches, and otherwise the text [g] before
    the first match [m], the replacement text, and what the
    replacement gives from the end of that match. *)
Inductive replaced (re : jsregexp) (repl : jsstring) : cursor -> jsstring -> Prop :=
| replaced_none c :
    unmatched re c -> replaced re repl c (cu_rest c)
| replaced_match c g m t y out :
    cu_rest c = g ++ m ++ t -> m <> [] ->
    unmatchedIn re c g (m ++ t) ->
    matchAt re (after c g (m ++ t)) = Some y ->
    ms_rest y = t ->
    replaced re repl (after c (g ++ m) t) out ->
    replaced re repl c (g ++ repl ++ out).

(** *** Texts in which a pattern has no match *)

(** A pattern that is a fixed sequence of classes and runs is
    recognised from a position by a scan: in a state, a code unit ends
    the scan without a match, ends it with one, or leads to a state. *)
Inductive verdict := Dead | Found | Next (q : nat).

Definition scanner := nat -> N -> verdict.

Fixpoint run (d : scanner) (q : nat) (t : jsstring) : bool :=
  match t with
  | [] => false
  | ch :: t' =>
      match d q ch with
      | Dead => false
      | Found => true
      | Next q' => run d q' t'
      end
  end.

(** No position of the text has what the scan looks for. *)
Definition clean (d : scanner) (t : jsstring) : Prop :=
  forall a b, t = a ++ b -> run d 0 b = false.

(** The scan from state [q] ends without a match inside [w]. *)
Fixpoint stops (d : scanner) (q : nat) (w : jsstring) : bool :=
  match w with
  | [] => false
  | ch :: w' =>
      match d q ch with
      | Dead => true
      | Found => false
      | Next q' => stops d q' w'
      end
  end.

(** A text that ends every scan that reaches it or begins inside it,
    for a scanner with the states below [n]. *)
Definition opaque (d : scanner) (n : nat) (w : jsstring) : bool :=
  forallb (fun q => stops d q w) (seq 0 n) &&
  forallb (fun k => stops d 0 (drop k w)) (seq 0 (length w)).

(** What the scan finds from the cursor on begins a match of the pattern. *)
Definition covered (d : scanner) (re : jsregexp) (c : cursor) : Prop :=
  forall g t, cu_rest c = g ++ t -> matchAt re (after c g t) = None -> run d 0 t = false.

(** The longest run of code units in [p] at the head of a text. *)
Fixpoint takeWhile {A} (p : A -> bool) (l : list A) : list A :=
  match l with
  | x :: l' => if p x then x :: takeWhile p l' else []
  | [] => []
  end.

Definition nonWordBefore (prev : option N) : bool :=
  match prev with Some ch => negb (isWordChar ch) | None => true end.

Definition nonWordAhead (t : jsstring) : bool :=
  match t with ch :: _ => negb (isWordChar ch) | [] => true end.

(** A pattern between two [\b] that matches word characters only looks
    for a whole word in a set [lang]: the position is the beginning of
    a word, and the word is in the set. *)
Definition wordHit (lang : jsstring -> bool) (prev : option N) (t : jsstring) : bool :=
  nonWordBefore prev && lang (takeWhile isWordChar t).

(** No position of the text, which has [prev] before it, is one. *)
Definition cleanAt (lang : jsstring -> bool) (prev : option N) (t : jsstring) : Prop :=
  forall a b, t = a ++ b -> wordHit lang (lastOr prev a) b = false.

(** Every such word from the cursor on is a match of the pattern. *)
Definition coveredAt (lang : jsstring -> bool) (re : jsregexp) (c : cursor) : Prop :=
  forall g t, cu_rest c = g ++ t -> matchAt re (after c g t) = None ->
    wordHit lang (lastOr (cu_prev c) g) t = false.

(** The matches of the pattern are whole words. *)
Definition matchesWords (re : jsregexp) : Prop :=
  forall c y, matchAt re c = Some y ->
    nonWordBefore (cu_prev c) = true /\ nonWordAhead (cu_rest c) = false /\
    nonWordAhead (ms_rest y) = true.

(** A continuation that succeeds wherever it is used. *)
Definition total (k : cont) : Prop := forall y, k y <> None.

(** The classes of the patterns of the signature. *)
Definition digitUnit : N -> bool := classMatches noFlags false [CDigit].
Definition hexUnit : N -> bool :=
  classMatches flagI false [CRange (chr "0") (chr "9"); CRange (chr "a") (chr "f")].
Definition segmentUnit : N -> bool :=
  classMatches noFlags false [CWord; CChar (chr "."); CChar (chr "-")].
Definition quoteUnit : N -> bool := classMatches noFlags false quotes.
Definition letterUnit : N -> bool :=
  classMatches noFlags false [CRange (chr "A") (chr "Z"); CRange (chr "a") (chr "z")].

(** The words that [longNumber_regex] matches: five digits or more. *)
Definition longNumber (w : jsstring) : bool :=
  (5 <=? length w) && forallb digitUnit w.

(** The words that [hex_regex] matches: [0x], in either case, and one
    hexadecimal digit or more. *)
Definition hexNumber (w : jsstring) : bool :=
  match w with
  | z :: x :: h =>
      litMatches flagI (chr "0") z && litMatches flagI (chr "x") x &&
      (1 <=? length h) && forallb hexUnit h
  | _ => false
  end.

(** Whether there is a match. *)
Definition found (o : option mstate) : bool :=
  match o with Some _ => true | None => false end.

(** What [position_regex] looks for: a colon, digits, a colon and a digit. *)
Definition positionScan : scanner := fun q ch =>
  match q with
  | 0 => if litMatches noFlags (chr ":") ch then Next 1 else Dead
  | 1 => if digitUnit ch then Next 2 else Dead
  | 2 => if digitUnit ch then Next 2
         else if litMatches noFlags (chr ":") ch then Next 3 else Dead
  | 3 => if digitUnit ch then Found else Dead
  | _ => Dead
  end.

(** What [posixPath_regex] looks for: a slash and a character of a
    path segment. *)
Definition posixScan : scanner := fun q ch =>
  match q with
  | 0 => if litMatches noFlags (chr "/") ch then Next 1 else Dead
  | 1 => if segmentUnit ch then Found else Dead
  | _ => Dead
  end.

(** What [windowsPath_regex] looks for: a letter, a colon, a backslash
    and a character of a path segment. *)
Definition windowsScan : scanner := fun q ch =>
  match q with
  | 0 => if letterUnit ch then Next 1 else Dead
  | 1 => if litMatches noFlags (chr ":") ch then Next 2 else Dead
  | 2 => if litMatches noFlags backslash ch then Next 3 else Dead
  | 3 => if segmentUnit ch then Found else Dead
  | _ => Dead
  end.

(** A replacement text that ends outside a word and holds no word of
    [lang]. *)
Definition inert (lang : jsstring -> bool) (repl : jsstring) : bool :=
  match last repl with Some ch => negb (isWordChar ch) | None => false end &&
  forallb (fun k => negb (lang (takeWhile isWordChar (drop k repl)))) (seq 0 (length repl)).

(** A text without white space at either end. *)
Definition trimmed (x : jsstring) : Prop :=
  (forall ch, head x = Some ch -> isWhiteSpace ch = false) /\
  (forall ch, last x = Some ch -> isWhiteSpace ch = false).

(** The number of code units of a text that are in [p]. *)
Definition unitCount (p : N -> bool) (t : jsstring) : nat := length (List.filter p t).

(** Every match of the pattern holds a code unit in [p]. *)
Definition matchesHold (p : N -> bool) (re : jsregexp) : Prop :=
  forall c y m, matchAt re c = Some y -> cu_rest c = m ++ ms_rest y -> 1 <= unitCount p m.

(** The slash and the backslash. *)
Definition slashUnit : N -> bool := litMatches noFlags (chr "/").
Definition backslashUnit : N -> bool := litMatches noFlags backslash.

(** *** Sample inputs *)

(** A record without a code, with a quoted name, a path, a position
    and a line number in its message. *)
Definition mixedRecord : ErrorRecord :=
  msg (u "Cannot find name 'foo' in /src/app.ts:10:20 at line 5") None.

(** Three records, two of one signature. *)
Definition threeErrors : list ErrorRecord :=
  [msg (u "Cannot find name 'foo'") (Some (u "TS2304"));
   msg (u "Unexpected token") None;
   msg (u "Cannot find name 'bar'") (Some (u "TS2304"))].

(** Three signatures, twice each, first seen as beta, alpha, gamma. *)
Definition tiedErrors : list ErrorRecord :=
  [msg (u "beta") None; msg (u "alpha") None; msg (u "gamma") None;
   msg (u "gamma") None; msg (u "alpha") None; msg (u "beta") None].

(** Eleven records with eleven signatures. *)
Definition elevenErrors : list ErrorRecord :=
  List.map (fun c => msg [c] None) (u "abcdefghijk").

(** The two groups of scenario 6 of the specification. *)
Definition similarGroups : list Group :=
  [ {| g_signature := u "Cannot find foo"; g_count := 2;
       g_errors := []; g_files := [u "a.ts"];
       g_representative := msg (u "Cannot find foo") None;
       g_code := None; g_type := None; g_severity := None |};
    {| g_signature := u "Cannot find bar"; g_count := 3;
       g_errors := []; g_files := [u "b.ts"];
       g_representative := msg (u "Cannot find bar") None;
       g_code := None; g_type := None; g_severity := None |} ].

(** Two codes, once each; the second is an array index. *)
Definition tiedCodes : list ErrorRecord :=
  [msg (u "d") (Some (u "E1")); msg (u "c") (Some (u "42"))].

(** Four records; the code TS2304 occurs twice. *)
Definition codedErrors : list ErrorRecord :=
  [msg (u "Property 'x' does not exist") (Some (u "TS2339"));
   msg (u "Cannot find name 'foo'") (Some (u "TS2304"));
   msg (u "no code") None;
   msg (u "Cannot find name 'bar'") (Some (u "TS2304"))].

(** Three records whose types are [go], [10] and [2]. *)
Definition numberedTypes : list ErrorRecord :=
  List.map (fun t => {| e_file := None; e_line := None; e_column := None;
                        e_severity := None; e_code := None; e_message := Some (u "m");
                        e_type := Some t; e_function := None; e_raw := None;
                        e_position := None |})
           [u "go"; u "10"; u "2"].

(** Two lines in the format of the Go compiler. *)
Definition twoGoErrors : jsstring :=
  u "a.go:1:2: x" ++ newline :: u "b.go:3:4: y".

(* ===================================================================== *)
(** ** The tests of the repository, on the embedding *)
(* ===================================================================== *)

(** From [tests/parser.test.js]: detectType. *)
Example test_detectType :
  detectType (u "src/file.ts(10,5): error TS2304: Cannot find name 'foo'.") = u "typescript" /\
  detectType (u "10:5  error  Unexpected var  no-var") = u "eslint" /\
  detectType (bullet :: u " Test Suite " ++ chevron :: u " should do something") = u "jest" /\
  detectType (u "File " ++ dquote :: u "test.py" ++ dquote :: u ", line 10, in <module>"
              ++ newline :: u "  SyntaxError: invalid syntax") = u "python" /\
  detectType (u "error[E0425]: cannot find value `x` in this scope"
              ++ newline :: u " --> src/main.rs:5:13") = u "rust" /\
  detectType (u "main.go:10:5: undefined: x") = u "go" /\
  detectType (u "main.c:10:5: error: 'x' undeclared") = u "gcc" /\
  detectType (u "Something went wrong") = u "generic".
Proof. repeat split; vm_compute; reflexivity. Qed.

(** Scenario 1 of the specification, and the first test of parseErrors. *)
Example test_parse_typescript :
  parseErrors (u "src/utils.ts(10,5): error TS2304: Cannot find name 'foo'.") (u "typescript")
  = Returns [ {| e_file := Some (u "src/utils.ts");
                 e_line := Some (Fin 10); e_column := Some (Fin 5);
                 e_severity := None; e_code := Some (u "TS2304");
                 e_message := Some (u "Cannot find name 'foo'.");
                 e_type := Some (u "typescript"); e_function := None;
                 e_raw := Some (u "src/utils.ts(10,5): error TS2304: Cannot find name 'foo'.");
                 e_position := Some 0 |} ].
Proof. vm_compute. reflexivity. Qed.

(** From [tests/parser.test.js]: ESLint, Python, Rust, Go and generic input. *)
Example test_parse_others :
  (match parseErrors
           (u "5:10  error  Unexpected var, use let or const instead  no-var"
            ++ newline :: u "10:1  warning  Missing semicolon  semi")
           (u "eslint")
   with
   | Returns l => List.map (fun e => (e_line e, e_severity e, e_code e)) l
   | _ => []
   end)
  = [ (Some (Fin 5), Some (u "error"), Some (u "no-var"));
      (Some (Fin 10), Some (u "warning"), Some (u "semi")) ] /\
  (match parseErrors
           (u "Traceback (most recent call last):" ++ newline :: u "  File "
            ++ dquote :: u "test.py" ++ dquote :: u ", line 10, in main"
            ++ newline :: u "NameError: name 'undefined_var' is not defined")
           (u "python")
   with Returns [e] => e_code e | _ => None end) = Some (u "NameError") /\
  (match parseErrors
           (u "error[E0425]: cannot find value `x` in this scope"
            ++ newline :: u " --> src/main.rs:5:13")
           (u "rust")
   with Returns [e] => (e_code e, e_file e, e_line e) | _ => (None, None, None) end)
  = (Some (u "E0425"), Some (u "src/main.rs"), Some (Fin 5)) /\
  (match parseErrors
           (u "main.go:10:5: undefined: someVar"
            ++ newline :: u "utils.go:20:10: syntax error: unexpected token")
           (u "go")
   with Returns [e1; e2] => (e_file e1, e_line e1) | _ => (None, None) end)
  = (Some (u "main.go"), Some (Fin 10)) /\
  (match parseErrors
           (u "[ERROR] Something went wrong" ++ newline :: u "Error: Another problem"
            ++ newline :: u "error: lowercase error")
           (u "generic")
   with Returns l => length l | _ => 0 end) = 3 /\
  (match parseErrors (u "[ERROR] Something completely different") (u "auto")
   with Returns [e] => e_type e | _ => None end) = Some (u "generic").
Proof. repeat split; vm_compute; reflexivity. Qed.

(** From [tests/parser.test.js]: getErrorSignature. *)
Example test_signature :
  getErrorSignature (msg (u "Cannot find '/path/to/file.ts'") None)
  = getErrorSignature (msg (u "Cannot find '/other/path/file.ts'") None) /\
  getErrorSignature (msg (u "Error at line 10") None)
  = getErrorSignature (msg (u "Error at line 999") None) /\
  getErrorSignature (msg (u "Cannot find name 'foo'") (Some (u "TS2304")))
  = u "[TS2304] Cannot find name '<name>'" /\
  getErrorSignature (msg (u "at C:\src\app.js:10:20 id 1234567 0xdeadBEEF") None)
  = u "at <path>:<loc> id <id> <hex>".
Proof. repeat split; vm_compute; reflexivity. Qed.

(** From [tests/grouper.test.js]: groupErrors (scenarios 2 and 3). *)
Example test_groupErrors :
  List.map g_count (groupErrors threeErrors noOpts) = [2; 1] /\
  List.map (fun g => (g_signature g, g_count g))
    (groupErrors [msg (u "Error A") None; msg (u "Error B") None; msg (u "Error B") None;
                  msg (u "Error B") None; msg (u "Error A") None] noOpts)
  = [(u "Error B", 3); (u "Error A", 2)] /\
  length (groupErrors elevenErrors {| top := Some (Fin 5) |}) = 5.
Proof. repeat split; vm_compute; reflexivity. Qed.

(** From [tests/grouper.test.js]: getStats. *)
Example test_getStats :
  topCode (getStats [] codedErrors) = Some (u "TS2304", 2) /\
  totalErrors (getStats [] codedErrors) = 4 /\
  byType (getStats [] codedErrors) = [(u "unknown", Count 4)] /\
  bySeverity (getStats [] codedErrors) = [(u "error", Count 4)].
Proof. repeat split; vm_compute; reflexivity. Qed.

(* ===================================================================== *)
(** ** Properties of the matcher *)
(* ===================================================================== *)

Lemma ahead_refl x : ahead 0 x x.
Proof. unfold ahead. lia. Qed.

Lemma ahead_trans n1 n2 x y z : ahead n1 x y -> ahead n2 y z -> ahead (n1 + n2) x z.
Proof. unfold ahead. lia. Qed.

Lemma ahead_weaken n n' x y : n' <= n -> ahead n x y -> ahead n' x y.
Proof. unfold ahead. lia. Qed.

Lemma setCap_idx n v x : ms_idx (setCap n v x) = ms_idx x.
Proof. reflexivity. Qed.
Lemma setCap_rest n v x : ms_rest (setCap n v x) = ms_rest x.
Proof. reflexivity. Qed.
Lemma setCap_prev n v x : ms_prev (setCap n v x) = ms_prev x.
Proof. reflexivity. Qed.

Lemma clearCaps_idx gs x : ms_idx (clearCaps gs x) = ms_idx x.
Proof. induction gs as [|g gs IH]; simpl; auto. Qed.
Lemma clearCaps_rest gs x : ms_rest (clearCaps gs x) = ms_rest x.
Proof. induction gs as [|g gs IH]; simpl; auto. Qed.
Lemma clearCaps_prev gs x : ms_prev (clearCaps gs x) = ms_prev x.
Proof. induction gs as [|g gs IH]; simpl; auto. Qed.

Lemma ahead_setCap_r k n v x y : ahead k x y -> ahead k x (setCap n v y).
Proof. unfold ahead. rewrite setCap_idx, setCap_rest. auto. Qed.

Lemma ahead_clearCaps_l k gs x y : ahead k (clearCaps gs x) y -> ahead k x y.
Proof. unfold ahead. rewrite clearCaps_idx, clearCaps_rest. auto. Qed.

Lemma charMatcher_advances p : advances 1 (charMatcher p).
Proof.
  intros x c z. unfold charMatcher.
  destruct (ms_rest x) as [|ch rest] eqn:Hr; [discriminate|].
  destruct (p ch); [|discriminate].
  intros Hc. eexists. split; [exact Hc|].
  unfold ahead. simpl. rewrite Hr. simpl. lia.
Qed.

Lemma assertion_advances p : advances 0 (assertion p).
Proof.
  intros x c z. unfold assertion. destruct (p x); [|discriminate].
  intros Hc. exists x. split; [exact Hc | apply ahead_refl].
Qed.

Lemma effMin_step min max :
  max <> Some 0 -> effMin min max <= 1 + effMin (pred min) (predMax max).
Proof. destruct max as [[|n]|]; simpl; intros; try congruence; lia. Qed.

Lemma repeatMatcher_zero fuel m gs min greedy x c :
  repeatMatcher fuel m gs min (Some 0) greedy x c = c x.
Proof. destruct fuel; reflexivity. Qed.

Lemma repeatMatcher_step fuel m gs min max greedy x c :
  max <> Some 0 ->
  repeatMatcher (S fuel) m gs min max greedy x c =
    let d : cont := fun y =>
      if (min =? 0) && (ms_idx y =? ms_idx x) then None
      else repeatMatcher fuel m gs (pred min) (predMax max) greedy y c in
    if negb (min =? 0) then m (clearCaps gs x) d
    else if negb greedy then
      match c x with Some z => Some z | None => m (clearCaps gs x) d end
    else
      match m (clearCaps gs x) d with Some z => Some z | None => c x end.
Proof. destruct max as [[|n]|]; intros; [congruence| |]; reflexivity. Qed.

Lemma repeatMatcher_advances k m gs greedy :
  advances k m ->
  forall fuel min max x c z,
    repeatMatcher fuel m gs min max greedy x c = Some z ->
    exists y, c y = Some z /\ ahead (effMin min max * k) x y.
Proof.
  intros Hm. induction fuel as [|fuel IH]; intros min max x c z H.
  - destruct max as [[|n]|]; simpl in H; try discriminate.
    exists x. split; [exact H|]. simpl. rewrite Nat.min_0_r. apply ahead_refl.
  - destruct (decide (max = Some 0)) as [->|Hmax].
    { simpl in H. exists x. split; [exact H|].
      simpl. rewrite Nat.min_0_r. apply ahead_refl. }
    rewrite repeatMatcher_step in H by exact Hmax. cbv zeta in H.
    assert (Hiter : forall z',
      m (clearCaps gs x) (fun y =>
          if (min =? 0) && (ms_idx y =? ms_idx x) then None
          else repeatMatcher fuel m gs (pred min) (predMax max) greedy y c) = Some z' ->
      exists y, c y = Some z' /\ ahead (effMin min max * k) x y).
    { intros z' Hz. apply Hm in Hz as (y & Hd & Hy).
      destruct ((min =? 0) && (ms_idx y =? ms_idx x)); [discriminate|].
      apply IH in Hd as (y' & Hc & Hy').
      exists y'. split; [exact Hc|].
      apply ahead_clearCaps_l in Hy.
      pose proof (ahead_trans _ _ _ _ _ Hy Hy') as Ht.
      eapply ahead_weaken; [|exact Ht].
      pose proof (effMin_step min max Hmax). nia. }
    assert (Hstop : min = 0 -> forall z', c x = Some z' ->
      exists y, c y = Some z' /\ ahead (effMin min max * k) x y).
    { intros -> z' Hz. exists x. split; [exact Hz|].
      replace (effMin 0 max) with 0 by (destruct max; reflexivity).
      apply ahead_refl. }
    destruct (min =? 0) eqn:Hmin; cbn [negb] in H.
    + apply Nat.eqb_eq in Hmin. destruct greedy; cbn [negb] in H.
      * destruct (m (clearCaps gs x) _) eqn:Hm1 in H.
        -- inversion H; subst z. apply Hiter. exact Hm1.
        -- apply Hstop; assumption.
      * destruct (c x) eqn:Hc1 in H.
        -- inversion H; subst z. apply Hstop; assumption.
        -- apply Hiter. exact H.
    + apply Hiter. exact H.
Qed.

Lemma compile_advances fl r : advances (minLen r) (compile fl r).
Proof.
  induction r as [| p | | neg cs | a IHa b IHb | a IHa b IHb | n r1 IH
                 | r1 IH min max greedy | | | ]; cbn [compile minLen].
  - intros x c z H. exists x. split; [exact H | apply ahead_refl].
  - apply charMatcher_advances.
  - apply charMatcher_advances.
  - apply charMatcher_advances.
  - intros x c z H. apply IHa in H as (y & H & Hy).
    apply IHb in H as (y' & H & Hy'). exists y'. split; [exact H|].
    eapply ahead_trans; eassumption.
  - intros x c z H. destruct (compile fl a x c) eqn:Ha.
    + inversion H; subst. apply IHa in Ha as (y & Hc & Hy).
      exists y. split; [exact Hc|]. eapply ahead_weaken; [|exact Hy]. lia.
    + apply IHb in H as (y & Hc & Hy).
      exists y. split; [exact Hc|]. eapply ahead_weaken; [|exact Hy]. lia.
  - intros x c z H. apply IH in H as (y & H & Hy).
    eexists. split; [exact H|]. apply ahead_setCap_r. exact Hy.
  - intros x c z H. eapply repeatMatcher_advances in H; [exact H | exact IH].
  - apply assertion_advances.
  - apply assertion_advances.
  - apply assertion_advances.
Qed.

Lemma matchAt_ahead re c y :
  matchAt re c = Some y ->
  cu_idx c + minLen (re_pattern re) <= ms_idx y /\
  ms_idx y + length (ms_rest y) = cu_idx c + length (cu_rest c).
Proof.
  unfold matchAt. intros H.
  apply compile_advances in H as (y' & Hy & Ha).
  inversion Hy; subst y'. exact Ha.
Qed.

Lemma searchFrom_ahead re rest : forall idx prev start y,
  searchFrom re idx prev rest = Some (start, y) ->
  idx <= start /\ start + minLen (re_pattern re) <= ms_idx y /\
  ms_idx y + length (ms_rest y) = idx + length rest.
Proof.
  induction rest as [|ch rest IH]; intros idx prev start y; cbn [searchFrom].
  - destruct (matchAt re _) eqn:Hm; [|discriminate].
    intros H; inversion H; subst. apply matchAt_ahead in Hm. simpl in *. lia.
  - destruct (matchAt re _) eqn:Hm.
    + intros H; inversion H; subst. apply matchAt_ahead in Hm. simpl in *. lia.
    + intros H. apply IH in H. simpl. lia.
Qed.

Lemma search_ahead re c start y :
  search re c = Some (start, y) ->
  cu_idx c <= start /\ start + minLen (re_pattern re) <= ms_idx y /\
  ms_idx y + length (ms_rest y) = cu_idx c + length (cu_rest c).
Proof. apply searchFrom_ahead. Qed.

(** The fuel of [replaceAll] is never used up: more of it changes nothing. *)
Lemma replaceLoop_fuel re repl : forall f1 f2 c,
  length (cu_rest c) < f1 -> length (cu_rest c) < f2 ->
  replaceLoop f1 re repl c = replaceLoop f2 re repl c.
Proof.
  induction f1 as [|f1 IH]; intros f2 c H1 H2; [lia|].
  destruct f2 as [|f2]; [lia|]. cbn [replaceLoop].
  destruct (search re c) as [[start y]|] eqn:Hs; [|reflexivity].
  apply search_ahead in Hs as (Hs1 & Hs2 & Hs3).
  destruct (ms_idx y =? start) eqn:He.
  - destruct (ms_rest y) as [|ch r] eqn:Hr; [reflexivity|].
    do 3 f_equal. apply IH; unfold advance, cursorOf; simpl; rewrite Hr; simpl;
      simpl in Hs3; lia.
  - apply Nat.eqb_neq in He. do 2 f_equal.
    apply IH; unfold cursorOf; simpl; lia.
Qed.

(** The fuel of the [exec] loop is never used up, whatever the pattern. *)
Lemma execLoop_fuel pattern input : forall fuel c,
  length (cu_rest c) < fuel -> execLoop fuel pattern input c <> OutOfFuel.
Proof.
  induction fuel as [|fuel IH]; intros c Hf; [lia|]. cbn [execLoop].
  destruct (search (p_regex pattern) c) as [[start y]|] eqn:Hs; [|discriminate].
  apply search_ahead in Hs as (Hs1 & Hs2 & Hs3).
  destruct (ms_idx y <=? cu_idx c) eqn:Hle; [discriminate|].
  apply Nat.leb_gt in Hle.
  assert (Hrec : execLoop fuel pattern input (cursorOf y) <> OutOfFuel)
    by (apply IH; unfold cursorOf; simpl; lia).
  destruct (execLoop fuel pattern input (cursorOf y)), (p_extract pattern _);
    simpl; congruence.
Qed.

Lemma pushed_returns e r :
  (exists l, r = Returns l) -> exists l, pushed e r = Returns l.
Proof. intros [l ->]. destruct e; simpl; eauto. Qed.

(** The [exec] loop of a pattern that cannot match the empty string
    returns: it neither loops for ever nor uses up its fuel. *)
Lemma execLoop_returns pattern input :
  1 <= minLen (re_pattern (p_regex pattern)) ->
  forall fuel c, length (cu_rest c) < fuel ->
  exists l, execLoop fuel pattern input c = Returns l.
Proof.
  intros Hmin. induction fuel as [|fuel IH]; intros c Hf; [lia|].
  cbn [execLoop].
  destruct (search (p_regex pattern) c) as [[start y]|] eqn:Hs; [|eauto].
  apply search_ahead in Hs as (Hs1 & Hs2 & Hs3).
  destruct (ms_idx y <=? cu_idx c) eqn:Hle.
  - apply Nat.leb_le in Hle. lia.
  - apply pushed_returns. apply IH. unfold cursorOf; simpl. lia.
Qed.

Lemma scan_returns pattern input :
  1 <= minLen (re_pattern (p_regex pattern)) ->
  exists l, scan pattern input = Returns l.
Proof. intros H. apply execLoop_returns; [exact H | simpl; lia]. Qed.

(** Every record that a scan returns comes from [extract]. *)
Lemma execLoop_extracted (Q : ErrorRecord -> Prop) pattern input :
  (forall m e, p_extract pattern m = Some e -> Q (withRaw e m)) ->
  forall fuel c l, execLoop fuel pattern input c = Returns l -> Forall Q l.
Proof.
  intros HQ. induction fuel as [|fuel IH]; intros c l; cbn [execLoop]; [discriminate|].
  destruct (search (p_regex pattern) c) as [[start y]|]; [|intros [= <-]; constructor].
  destruct (ms_idx y <=? cu_idx c); [discriminate|].
  destruct (execLoop fuel pattern input (cursorOf y)) as [l'| | |] eqn:Hrec;
    destruct (p_extract pattern (toMatch input start y)) as [e0|] eqn:He; simpl;
    try discriminate.
  - intros [= <-]. constructor; [apply HQ; exact He | eapply IH; exact Hrec].
  - intros [= <-]. eapply IH; exact Hrec.
Qed.

(** *** The fuel of the quantifiers is never used up *)

Lemma charMatcher_local p : local (charMatcher p).
Proof.
  intros x c1 c2 H. unfold charMatcher.
  destruct (ms_rest x) as [|ch rest] eqn:Hr; [reflexivity|].
  destruct (p ch); [|reflexivity]. apply H.
  unfold ahead. simpl. rewrite Hr. simpl. lia.
Qed.

Lemma assertion_local p : local (assertion p).
Proof.
  intros x c1 c2 H. unfold assertion. destruct (p x); [|reflexivity].
  apply H, ahead_refl.
Qed.

Lemma repeatMatcher_local m gs greedy :
  local m -> advances 0 m ->
  forall fuel min max, local (repeatMatcher fuel m gs min max greedy).
Proof.
  intros Hm Ha. induction fuel as [|fuel IH]; intros min max x c1 c2 H.
  - destruct max as [[|n]|]; simpl; auto. apply H, ahead_refl.
  - destruct (decide (max = Some 0)) as [->|Hmax].
    { simpl. apply H, ahead_refl. }
    rewrite !repeatMatcher_step by exact Hmax. cbv zeta.
    assert (Hd : m (clearCaps gs x) (fun y =>
        if (min =? 0) && (ms_idx y =? ms_idx x) then None
        else repeatMatcher fuel m gs (pred min) (predMax max) greedy y c1)
      = m (clearCaps gs x) (fun y =>
        if (min =? 0) && (ms_idx y =? ms_idx x) then None
        else repeatMatcher fuel m gs (pred min) (predMax max) greedy y c2)).
    { apply Hm. intros y Hy. destruct (_ && _); [reflexivity|].
      apply IH. intros z Hz. apply H.
      apply ahead_clearCaps_l in Hy. exact (ahead_trans 0 0 _ _ _ Hy Hz). }
    rewrite Hd, (H x (ahead_refl x)). reflexivity.
Qed.

Lemma compile_local fl r : local (compile fl r).
Proof.
  induction r as [| p | | neg cs | a IHa b IHb | a IHa b IHb | n r1 IH
                 | r1 IH min max greedy | | | ]; cbn [compile].
  - intros x c1 c2 H. apply H, ahead_refl.
  - apply charMatcher_local.
  - apply charMatcher_local.
  - apply charMatcher_local.
  - intros x c1 c2 H. apply IHa. intros y Hy. apply IHb. intros z Hz.
    apply H. exact (ahead_trans 0 0 _ _ _ Hy Hz).
  - intros x c1 c2 H. rewrite (IHa x c1 c2 H), (IHb x c1 c2 H). reflexivity.
  - intros x c1 c2 H. apply IH. intros y Hy. apply H, ahead_setCap_r, Hy.
  - intros x c1 c2 H. apply repeatMatcher_local; [exact IH | | exact H].
    intros x0 c z Hz. apply compile_advances in Hz as (y & Hc & Hy).
    exists y. split; [exact Hc|]. eapply ahead_weaken; [|exact Hy]. lia.
  - apply assertion_local.
  - apply assertion_local.
  - apply assertion_local.
Qed.

Lemma compile_advances_0 fl r : advances 0 (compile fl r).
Proof.
  intros x c z Hz. apply compile_advances in Hz as (y & Hc & Hy).
  exists y. split; [exact Hc|]. eapply ahead_weaken; [|exact Hy]. lia.
Qed.

(** More fuel than the bound that [compile] gives changes nothing. *)
Lemma repeatMatcher_fuel m gs greedy :
  local m -> advances 0 m ->
  forall f1 f2 min max x c,
    min + length (ms_rest x) < f1 -> min + length (ms_rest x) < f2 ->
    repeatMatcher f1 m gs min max greedy x c = repeatMatcher f2 m gs min max greedy x c.
Proof.
  intros Hm Ha. induction f1 as [|f1 IH]; intros f2 min max x c H1 H2; [lia|].
  destruct f2 as [|f2]; [lia|].
  destruct (decide (max = Some 0)) as [->|Hmax]; [reflexivity|].
  rewrite !repeatMatcher_step by exact Hmax. cbv zeta.
  assert (Hd : m (clearCaps gs x) (fun y =>
      if (min =? 0) && (ms_idx y =? ms_idx x) then None
      else repeatMatcher f1 m gs (pred min) (predMax max) greedy y c)
    = m (clearCaps gs x) (fun y =>
      if (min =? 0) && (ms_idx y =? ms_idx x) then None
      else repeatMatcher f2 m gs (pred min) (predMax max) greedy y c)).
  { apply Hm. intros y Hy. apply ahead_clearCaps_l in Hy. destruct Hy as [Hy1 Hy2].
    destruct (min =? 0) eqn:Hmin; cbn [andb].
    - apply Nat.eqb_eq in Hmin. subst min.
      destruct (ms_idx y =? ms_idx x) eqn:Hidx; [reflexivity|].
      apply Nat.eqb_neq in Hidx. apply IH; simpl in *; lia.
    - apply Nat.eqb_neq in Hmin. apply IH; lia. }
  rewrite Hd. reflexivity.
Qed.

Lemma compile_Rep_fuel fl r1 min max greedy fuel x c :
  min + length (ms_rest x) < fuel ->
  repeatMatcher fuel (compile fl r1) (groupsOf r1) min max greedy x c
  = compile fl (Rep r1 min max greedy) x c.
Proof.
  intros H. cbn [compile].
  apply repeatMatcher_fuel; [apply compile_local | apply compile_advances_0 | exact H | lia].
Qed.

(** *** Patterns that need a code unit the input does not have *)

Section Needs.
Variable P : N -> bool.
Variable fl : flags.

Local Abbreviation needs := (needs P fl).
Local Abbreviation free := (free P).
Local Abbreviation fails := (fails P).

Lemma free_setCap n v x : free x -> free (setCap n v x).
Proof. auto. Qed.

Lemma free_clearCaps gs x : free x -> free (clearCaps gs x).
Proof. unfold free. rewrite clearCaps_rest. auto. Qed.

Lemma charMatcher_none p x c :
  free x -> (forall ch, p ch = true -> P ch = true) \/ fails c ->
  charMatcher p x c = None.
Proof.
  unfold charMatcher, free. intros Hx Hor.
  destruct (ms_rest x) as [|ch rest] eqn:Hr; [reflexivity|].
  destruct (p ch) eqn:Hp; [|reflexivity].
  inversion Hx as [|? ? Hch Hrest]; subst.
  destruct Hor as [Hn|Hc].
  - apply Hn in Hp. congruence.
  - apply Hc. exact Hrest.
Qed.

Lemma repeatMatcher_fails m gs greedy :
  (forall x c, free x -> fails c -> m x c = None) ->
  forall fuel min max x c, free x -> fails c ->
  repeatMatcher fuel m gs min max greedy x c = None.
Proof.
  intros Hm. induction fuel as [|fuel IH]; intros min max x c Hx Hc.
  - destruct max as [[|n]|]; simpl; auto.
  - destruct (decide (max = Some 0)) as [->|Hmax]; [simpl; auto|].
    rewrite repeatMatcher_step by exact Hmax. cbv zeta.
    assert (Hd : m (clearCaps gs x) (fun y =>
        if (min =? 0) && (ms_idx y =? ms_idx x) then None
        else repeatMatcher fuel m gs (pred min) (predMax max) greedy y c) = None).
    { apply Hm; [apply free_clearCaps; exact Hx|].
      intros y Hy. destruct (_ && _); [reflexivity|]. apply IH; assumption. }
    rewrite Hd, (Hc x Hx). destruct (negb (min =? 0)), (negb greedy); reflexivity.
Qed.

Lemma compile_none r : forall x c,
  free x -> needs r \/ fails c -> compile fl r x c = None.
Proof.
  induction r as [| p | | neg cs | a IHa b IHb | a IHa b IHb | n r1 IH
                 | r1 IH min max greedy | | | ];
    intros x c Hx Hor; cbn [compile].
  - destruct Hor as [[]|Hc]. apply Hc, Hx.
  - apply charMatcher_none; [exact Hx|]. destruct Hor; [left; assumption | right; assumption].
  - apply charMatcher_none; [exact Hx|]. destruct Hor as [[]|Hc]. right; exact Hc.
  - apply charMatcher_none; [exact Hx|]. destruct Hor; [left; assumption | right; assumption].
  - apply IHa; [exact Hx|]. destruct Hor as [[Ha|Hb]|Hc].
    + left; exact Ha.
    + right. intros y Hy. apply IHb; auto.
    + right. intros y Hy. apply IHb; auto.
  - destruct Hor as [[Ha Hb]|Hc].
    + rewrite IHa by auto. apply IHb; auto.
    + rewrite IHa by auto. apply IHb; auto.
  - apply IH; [exact Hx|]. destruct Hor as [Hn|Hc]; [left; exact Hn|].
    right. intros y Hy. apply Hc. apply free_setCap. exact Hy.
  - destruct Hor as [(Hmin & Hmax & Hn)|Hc].
    + replace (min + length (ms_rest x) + 1) with (S (min + length (ms_rest x))) by lia.
      rewrite repeatMatcher_step by exact Hmax. cbv zeta.
      destruct (min =? 0) eqn:E; [apply Nat.eqb_eq in E; lia|]. cbn [negb].
      apply IH; [apply free_clearCaps; exact Hx | left; exact Hn].
    + apply repeatMatcher_fails; auto.
  - destruct Hor as [[]|Hc]. unfold assertion. destruct (atLineStart fl x); auto.
  - destruct Hor as [[]|Hc]. unfold assertion. destruct (atLineEnd fl x); auto.
  - destruct Hor as [[]|Hc]. unfold assertion. destruct (atWordBoundary x); auto.
Qed.
End Needs.

(* ===================================================================== *)
(** ** Signatures *)
(* ===================================================================== *)

Lemma searchFrom_none P re rest : forall idx prev,
  needs P (re_flags re) (re_pattern re) ->
  Forall (fun c => P c = false) rest ->
  searchFrom re idx prev rest = None.
Proof.
  induction rest as [|ch rest IH]; intros idx prev Hn Hf; cbn [searchFrom].
  - unfold matchAt. rewrite (compile_none P) by (auto; exact Hf). reflexivity.
  - unfold matchAt. rewrite (compile_none P) by (auto; exact Hf).
    apply IH; [exact Hn|]. inversion Hf; assumption.
Qed.

Lemma dropWhile_idem {A} (p : A -> bool) l : dropWhile p (dropWhile p l) = dropWhile p l.
Proof.
  induction l as [|x l IH]; simpl; [reflexivity|].
  destruct (p x) eqn:E; [exact IH | simpl; rewrite E; reflexivity].
Qed.

Lemma dropWhile_snoc {A} (p : A -> bool) l x :
  p x = false -> exists t, dropWhile p (l ++ [x]) = t ++ [x].
Proof.
  intros Hx. induction l as [|y l IH]; simpl.
  - rewrite Hx. exists []. reflexivity.
  - destruct (p y); [exact IH | exists (y :: l); reflexivity].
Qed.

Lemma trimStart_trim s : trimStart (trim s) = trim s.
Proof.
  unfold trim, trimEnd, trimStart.
  destruct (dropWhile isWhiteSpace s) as [|c a] eqn:Ha; [reflexivity|].
  assert (Hc : isWhiteSpace c = false).
  { clear -Ha. induction s as [|x s IH]; simpl in Ha; [discriminate|].
    destruct (isWhiteSpace x) eqn:E; [auto | inversion Ha; subst; exact E]. }
  change (rev (c :: a)) with (rev a ++ [c]).
  destruct (dropWhile_snoc isWhiteSpace (rev a) c Hc) as [t Ht].
  rewrite Ht, rev_app_distr. simpl. rewrite Hc. reflexivity.
Qed.

Lemma trim_idem s : trim (trim s) = trim s.
Proof.
  unfold trim at 1. rewrite trimStart_trim.
  unfold trim, trimEnd. rewrite rev_involutive, dropWhile_idem. reflexivity.
Qed.

(* ===================================================================== *)
(** ** Extraction (C5, C9, C10) *)
(* ===================================================================== *)

Lemma patterns_consume :
  Forall (fun kp => 1 <= minLen (re_pattern (p_regex (snd kp)))) PATTERNS.
Proof. repeat constructor; vm_compute; lia. Qed.

Lemma assoc_Some_In {V} k (p : V) l : assoc k l = Some p -> (k, p) ∈ l.
Proof.
  induction l as [|[k' v] l IH]; simpl; [discriminate|].
  unfold jsstring_eqb. case_bool_decide as E.
  - intros [= ->]. subst. left.
  - intros H. right. auto.
Qed.

Lemma assoc_None {V} k (l : list (jsstring * V)) : k ∉ List.map fst l -> assoc k l = None.
Proof.
  induction l as [|[k' v] l IH]; simpl; [reflexivity|].
  intros H. unfold jsstring_eqb. case_bool_decide as E.
  - subst. exfalso. apply H. left.
  - apply IH. intros Hin. apply H. right. exact Hin.
Qed.

Lemma own_pattern_consumes type pattern :
  assoc type PATTERNS = Some pattern -> 1 <= minLen (re_pattern (p_regex pattern)).
Proof.
  intros H. apply assoc_Some_In in H.
  pose proof patterns_consume as Hall.
  rewrite Forall_forall in Hall.
  apply (Hall (type, pattern)). exact H.
Qed.

Lemma chosen_pattern_consumes type key pattern :
  choosePattern type = Some (key, pattern) ->
  1 <= minLen (re_pattern (p_regex pattern)).
Proof.
  unfold choosePattern, PATTERNS_get.
  destruct (assoc type PATTERNS) as [p|] eqn:Hp.
  - intros [= <- <-]. eapply own_pattern_consumes; exact Hp.
  - destruct (inheritedKey type); [discriminate|].
    intros [= <- <-]. vm_compute. lia.
Qed.

Lemma scan_generic_returns input : exists l, scan generic input = Returns l.
Proof. apply scan_returns. vm_compute. lia. Qed.

(** [detectType] always answers with a member of the fixed set. *)
Lemma detectType_category input : detectType input ∈ categories.
Proof.
  unfold detectType.
  repeat match goal with |- context [if ?b then _ else _] => destruct b end;
    compute_done.
Qed.

Lemma parseErrorsLog_generic depth input :
  parseErrorsLog (S depth) input (u "generic")
  = (scan generic input, [u "generic"]).
Proof.
  cbn [parseErrorsLog].
  change (jsstring_eqb (u "generic") (u "auto")) with false. cbv iota.
  change (choosePattern (u "generic")) with (Some (u "generic", generic)).
  change (jsstring_eqb (u "generic") (u "generic")) with true. cbn [negb].
  destruct (scan generic input); try reflexivity.
  rewrite andb_false_r. reflexivity.
Qed.

Lemma parseErrorsLog_step depth input forcedType key pattern :
  choosePattern (resolvedType input forcedType) = Some (key, pattern) ->
  parseErrorsLog (S (S depth)) input forcedType =
    match scan pattern input with
    | Returns errors =>
        if (length errors =? 0)
           && negb (jsstring_eqb (resolvedType input forcedType) (u "generic"))
        then (scan generic input, [key; u "generic"])
        else (Returns errors, [key])
    | other => (other, [key])
    end.
Proof.
  intros Hc. cbn [parseErrorsLog]. fold (resolvedType input forcedType).
  rewrite Hc. destruct (scan pattern input) as [errors| | |]; try reflexivity.
  destruct (_ && _); [|reflexivity].
  change (jsstring_eqb (u "generic") (u "auto")) with false. cbv iota.
  change (choosePattern (u "generic")) with (Some (u "generic", generic)).
  change (jsstring_eqb (u "generic") (u "generic")) with true. cbn [negb].
  destruct (scan generic input); try reflexivity.
  rewrite andb_false_r. reflexivity.
Qed.

Lemma jsstring_eqb_eq a b : jsstring_eqb a b = true <-> a = b.
Proof. unfold jsstring_eqb. apply bool_decide_eq_true. Qed.

Lemma jsstring_eqb_neq a b : jsstring_eqb a b = false <-> a <> b.
Proof. unfold jsstring_eqb. apply bool_decide_eq_false. Qed.

(** C5: when the pattern of the category, forced or detected, yields
    no record and the category is not [generic], the input is scanned
    once more, with the generic pattern, and the result of that scan is
    returned; for [generic] there is one scan and its result, empty or
    not, is returned.  The scans return. *)
Theorem C5_generic_fallback (input forcedType : jsstring) (pattern : Pattern) :
  let type := resolvedType input forcedType in
  assoc type PATTERNS = Some pattern ->
  (type <> u "generic" -> scan pattern input = Returns [] ->
     parseErrors input forcedType = scan generic input /\
     scansOf input forcedType = [type; u "generic"]) /\
  (type = u "generic" ->
     parseErrors input forcedType = scan generic input /\
     scansOf input forcedType = [u "generic"]) /\
  (exists l, scan pattern input = Returns l) /\
  (exists l, scan generic input = Returns l).
Proof.
  intros type Hp.
  assert (Hc : choosePattern type = Some (type, pattern)).
  { unfold choosePattern, PATTERNS_get. rewrite Hp. reflexivity. }
  pose proof (parseErrorsLog_step 0 input forcedType type pattern Hc) as Hstep.
  fold type in Hstep.
  repeat split.
  - unfold parseErrors. rewrite Hstep, H0. simpl.
    apply jsstring_eqb_neq in H. rewrite H. reflexivity.
  - unfold scansOf. rewrite Hstep, H0. simpl.
    apply jsstring_eqb_neq in H. rewrite H. reflexivity.
  - assert (pattern = generic) as ->.
    { rewrite H in Hp.
      change (assoc (u "generic") PATTERNS) with (Some generic) in Hp. congruence. }
    unfold parseErrors. rewrite Hstep, H.
    change (jsstring_eqb (u "generic") (u "generic")) with true. cbn [negb].
    destruct (scan generic input); try reflexivity.
    rewrite andb_false_r. reflexivity.
  - assert (pattern = generic) as ->.
    { rewrite H in Hp.
      change (assoc (u "generic") PATTERNS) with (Some generic) in Hp. congruence. }
    unfold scansOf. rewrite Hstep, H.
    change (jsstring_eqb (u "generic") (u "generic")) with true. cbn [negb].
    destruct (scan generic input); try reflexivity.
    rewrite andb_false_r. reflexivity.
  - apply scan_returns. eapply own_pattern_consumes. exact Hp.
  - apply scan_generic_returns.
Qed.

Lemma C5_generic_fallback_witness :
  assoc (resolvedType (u "Error: disk full") (u "go")) PATTERNS = Some go /\
  parseErrors (u "Error: disk full") (u "go") = scan generic (u "Error: disk full") /\
  scansOf (u "Error: disk full") (u "go") = [u "go"; u "generic"].
Proof.
  destruct (C5_generic_fallback (u "Error: disk full") (u "go") go)
    as (Hfall & _ & _ & _); [reflexivity|].
  split; [reflexivity|].
  apply Hfall; [compute_done | vm_compute; reflexivity].
Defined.

(** Without a forced type the detected category is used in the same way. *)
Example fallback_after_detection :
  detectType (u "x.go:1:2:") = u "go" /\
  scansOf (u "x.go:1:2:") (u "auto") = [u "go"; u "generic"] /\
  parseErrors (u "x.go:1:2:") (u "auto") = Returns [].
Proof. repeat split; vm_compute; reflexivity. Qed.

(** [parseErrors] returns for every type that is not the name of a
    member inherited from [Object.prototype]. *)
Lemma parseErrors_returns input forcedType :
  inheritedKey (resolvedType input forcedType) = false ->
  exists l, parseErrors input forcedType = Returns l.
Proof.
  intros Hk.
  destruct (choosePattern (resolvedType input forcedType)) as [[key pattern]|] eqn:Hc.
  - unfold parseErrors. rewrite (parseErrorsLog_step 0 _ _ _ _ Hc).
    destruct (scan_returns pattern input (chosen_pattern_consumes _ _ _ Hc)) as [l ->].
    destruct (_ && _); [|eauto].
    destruct (scan_generic_returns input) as [l' ->]. eauto.
  - unfold choosePattern, PATTERNS_get in Hc.
    destruct (assoc _ PATTERNS); [discriminate|]. rewrite Hk in Hc. discriminate.
Qed.

(** With auto-detection [parseErrors] always returns. *)
Lemma parseErrors_auto_returns input : exists l, parseErrors input (u "auto") = Returns l.
Proof.
  apply parseErrors_returns.
  change (resolvedType input (u "auto")) with (detectType input).
  unfold detectType.
  repeat match goal with |- context [if ?b then _ else _] => destruct b end;
    reflexivity.
Qed.

(** C9: the failing input.  [PATTERNS['constructor']] is the inherited
    [Object], which is truthy, so [PATTERNS.generic] is not taken, and
    setting [lastIndex] on its missing [regex] throws. *)
Theorem C9_parseErrors_throws_on_inherited_key :
  parseErrors (u "Error: boom") (u "constructor") = Throws TypeError.
Proof. vm_compute. reflexivity. Qed.

(** C10, the claim as stated, fails at ['auto'], which is outside the
    fixed set and selects the detected category, and at the name of an
    inherited member, where the call throws. *)
Lemma C10_category_outside_set_differs :
  ((u "auto" ∉ categories) /\
   parseErrors (u "a.ts(1,2): error TS1: x") (u "auto")
   <> parseErrors (u "a.ts(1,2): error TS1: x") (u "generic")) /\
  ((u "constructor" ∉ categories) /\
   parseErrors (u "Error: boom") (u "constructor")
   <> parseErrors (u "Error: boom") (u "generic")).
Proof.
  repeat split; try compute_done; intros H; vm_compute in H; discriminate H.
Qed.

Lemma generic_extract_type m e :
  p_extract generic m = Some e -> e_type (withRaw e m) = Some (u "generic").
Proof.
  unfold generic. cbn [p_extract].
  destruct (group m 1); [|discriminate]. destruct (group m 2); [|discriminate].
  simpl. intros [= <-]. reflexivity.
Qed.

Lemma scan_generic_typed input l :
  scan generic input = Returns l -> Forall (fun e => e_type e = Some (u "generic")) l.
Proof.
  unfold scan. apply execLoop_extracted. intros m e. apply generic_extract_type.
Qed.

(** C10 (amended): a category that is not in the fixed set, is not
    ['auto'] and is not the name of a member that [PATTERNS] inherits
    gives the records of the generic category, all of type [generic]. *)
Theorem C10_unknown_category_is_generic (input category : jsstring) :
  category ∉ categories -> category <> u "auto" -> inheritedKey category = false ->
  exists l, parseErrors input category = Returns l /\
            parseErrors input (u "generic") = Returns l /\
            Forall (fun e => e_type e = Some (u "generic")) l.
Proof.
  intros Hcat Hauto Hinh.
  assert (Hres : resolvedType input category = category).
  { unfold resolvedType. apply jsstring_eqb_neq in Hauto. rewrite Hauto. reflexivity. }
  assert (Hc : choosePattern (resolvedType input category) = Some (u "generic", generic)).
  { rewrite Hres. unfold choosePattern, PATTERNS_get.
    rewrite (assoc_None category PATTERNS Hcat), Hinh. reflexivity. }
  destruct (scan_generic_returns input) as [l Hl].
  exists l. split; [|split].
  - unfold parseErrors. rewrite (parseErrorsLog_step 0 _ _ _ _ Hc), Hl.
    destruct l as [|e l]; [|reflexivity].
    destruct (_ && _); reflexivity.
  - unfold parseErrors. rewrite parseErrorsLog_generic. exact Hl.
  - apply (scan_generic_typed input). exact Hl.
Qed.

Lemma C10_unknown_category_is_generic_witness :
  (u "typscript" ∉ categories) /\
  exists l, parseErrors (u "error: no such file") (u "typscript") = Returns l /\
            parseErrors (u "error: no such file") (u "generic") = Returns l /\
            Forall (fun e => e_type e = Some (u "generic")) l.
Proof.
  split; [compute_done|].
  apply (C10_unknown_category_is_generic (u "error: no such file") (u "typscript"));
    [compute_done | compute_done | reflexivity].
Defined.

(* ===================================================================== *)
(** ** Grouping (C2, C6, C7) *)
(* ===================================================================== *)

Lemma totalCount_app a b : totalCount (a ++ b) = totalCount a + totalCount b.
Proof. apply sum_list_with_app. Qed.

Lemma totalCount_insertSorted cmp x l :
  totalCount (insertSorted cmp x l) = g_count x + totalCount l.
Proof.
  induction l as [|y l IH]; simpl; [reflexivity|].
  destruct (cmp x y <=? 0)%Z; [reflexivity|].
  unfold totalCount in *. simpl. rewrite IH. lia.
Qed.

Lemma totalCount_sort cmp l : totalCount (sort cmp l) = totalCount l.
Proof.
  induction l as [|x l IH]; simpl; [reflexivity|].
  rewrite totalCount_insertSorted. unfold totalCount in *. simpl. lia.
Qed.

Lemma length_insertSorted {A} (cmp : A -> A -> Z) x l :
  length (insertSorted cmp x l) = S (length l).
Proof.
  induction l as [|y l IH]; simpl; [reflexivity|].
  destruct (cmp x y <=? 0)%Z; simpl; auto.
Qed.

Lemma length_sort {A} (cmp : A -> A -> Z) l : length (sort cmp l) = length l.
Proof.
  induction l as [|x l IH]; simpl; [reflexivity|].
  rewrite length_insertSorted. auto.
Qed.

Lemma assoc_None_iff {V} k (l : list (jsstring * V)) :
  assoc k l = None <-> k ∉ List.map fst l.
Proof.
  split; [|apply assoc_None].
  induction l as [|[k' v] l IH]; simpl.
  - intros _ H. inversion H.
  - unfold jsstring_eqb. case_bool_decide as E; [discriminate|].
    intros H Hin. apply elem_of_cons in Hin as [Hin|Hin]; [congruence|].
    apply IH; assumption.
Qed.

Lemma alter_keys {V} (f : V -> V) k l : List.map fst (alter f k l) = List.map fst l.
Proof.
  induction l as [|[k' v] l IH]; simpl; [reflexivity|].
  destruct (jsstring_eqb k k'); simpl; congruence.
Qed.

Lemma alter_count f k l :
  (forall g, g_count (f g) = S (g_count g)) ->
  assoc k l <> None ->
  totalCount (List.map snd (alter f k l)) = S (totalCount (List.map snd l)).
Proof.
  intros Hf. induction l as [|[k' v] l IH]; simpl; [congruence|].
  destruct (jsstring_eqb k k'); simpl; intros H.
  - unfold totalCount. simpl. rewrite Hf. reflexivity.
  - unfold totalCount in *. simpl. rewrite IH by exact H. lia.
Qed.

Lemma addError_count groups error :
  totalCount (List.map snd (addError groups error))
  = S (totalCount (List.map snd groups)).
Proof.
  unfold addError.
  destruct (assoc (getErrorSignature error) groups) eqn:Ha.
  - apply alter_count; [reflexivity | congruence].
  - rewrite List.map_app, totalCount_app. unfold totalCount. simpl. lia.
Qed.

Lemma groupMap_snoc errors error :
  groupMap (errors ++ [error]) = addError (groupMap errors) error.
Proof. unfold groupMap. apply foldl_snoc. Qed.

Lemma groupMap_count errors :
  totalCount (List.map snd (groupMap errors)) = length errors.
Proof.
  induction errors as [|error errors IH] using rev_ind; [reflexivity|].
  rewrite groupMap_snoc, addError_count, IH, length_app. simpl. lia.
Qed.

(** C2: without a limit the counts of the groups add up to the number
    of records. *)
Theorem C2_counts_add_up (errors : list ErrorRecord) (opts : GroupOpts) :
  top opts = None \/ top opts = Some (Fin 0) ->
  totalCount (groupErrors errors opts) = length errors.
Proof.
  intros Htop. unfold groupErrors.
  replace (topLimit opts) with false
    by (unfold topLimit; destruct Htop as [-> | ->]; reflexivity).
  rewrite totalCount_sort. apply groupMap_count.
Qed.

Lemma C2_counts_add_up_witness :
  (top noOpts = None \/ top noOpts = Some (Fin 0)) /\
  totalCount (groupErrors threeErrors noOpts) = 3.
Proof.
  split; [left; reflexivity|].
  apply (C2_counts_add_up threeErrors noOpts). left. reflexivity.
Defined.

(** *** Order of the groups *)

Lemma insertSorted_Forall {A} (Q : A -> Prop) cmp x l :
  Q x -> Forall Q l -> Forall Q (insertSorted cmp x l).
Proof.
  intros Hx Hl. induction Hl as [|y l Hy Hl IH]; simpl; [repeat constructor; auto|].
  destruct (cmp x y <=? 0)%Z; repeat constructor; auto.
Qed.

Lemma insertSorted_sorted x l :
  StronglySorted countGe l -> StronglySorted countGe (insertSorted byCountDesc x l).
Proof.
  induction 1 as [|y l Hl IH Hy]; simpl; [repeat constructor|].
  destruct (byCountDesc x y <=? 0)%Z eqn:E.
  - apply Z.leb_le in E. unfold byCountDesc in E.
    constructor; [constructor; assumption|].
    constructor; [unfold countGe; lia|].
    eapply Forall_impl; [exact Hy|]. unfold countGe. intros; simpl in *; lia.
  - apply Z.leb_gt in E. unfold byCountDesc in E.
    constructor; [exact IH|].
    apply insertSorted_Forall; [unfold countGe; lia | exact Hy].
Qed.

Lemma sort_sorted l : StronglySorted countGe (sort byCountDesc l).
Proof.
  induction l as [|x l IH]; simpl; [constructor | apply insertSorted_sorted, IH].
Qed.

Lemma StronglySorted_take {A} (R : A -> A -> Prop) n l :
  StronglySorted R l -> StronglySorted R (take n l).
Proof.
  intros H. revert n. induction H as [|x l Hl IH Hx]; intros [|n]; simpl;
    try constructor; auto.
  apply Forall_take. exact Hx.
Qed.

Lemma StronglySorted_before {A} (R : A -> A -> Prop) a b l :
  StronglySorted R l -> before a b l -> R a b.
Proof.
  intros Hs (l1 & l2 & l3 & ->).
  induction l1 as [|x l1 IH]; simpl in Hs.
  - inversion Hs as [|? ? _ Hall]; subst.
    rewrite Forall_forall in Hall. apply Hall.
    apply elem_of_app. right. left.
  - inversion Hs; subst. auto.
Qed.

Lemma lookup_before {A} (l : list A) i j a b :
  i < j -> l !! i = Some a -> l !! j = Some b -> before a b l.
Proof.
  intros Hij Hi Hj.
  apply list_elem_of_split_length in Hi as (l1 & l2 & -> & Hlen).
  rewrite lookup_app_r in Hj by lia.
  destruct (j - length l1) as [|k] eqn:Hk; [lia|]. simpl in Hj.
  apply list_elem_of_split_length in Hj as (m1 & m2 & -> & _).
  exists l1, m1, m2. reflexivity.
Qed.

Lemma before_take {A} (a b : A) n l : before a b (take n l) -> before a b l.
Proof.
  intros (l1 & l2 & l3 & H). exists l1, l2, (l3 ++ drop n l).
  rewrite <- (take_drop n l) at 1. rewrite H.
  rewrite <- !app_assoc. simpl. rewrite <- !app_assoc. reflexivity.
Qed.

Lemma before_filter {A} (p : A -> bool) a b l :
  p a = true -> p b = true -> before a b l -> before a b (List.filter p l).
Proof.
  intros Ha Hb (l1 & l2 & l3 & ->).
  exists (List.filter p l1), (List.filter p l2), (List.filter p l3).
  rewrite List.filter_app. simpl. rewrite Ha, List.filter_app. simpl. rewrite Hb.
  reflexivity.
Qed.

Lemma filter_split {A} (p : A -> bool) l : forall m1 x m2,
  List.filter p l = m1 ++ x :: m2 ->
  exists l1 l2, l = l1 ++ x :: l2 /\ List.filter p l2 = m2.
Proof.
  induction l as [|y l IH]; intros m1 x m2 H; simpl in H.
  - destruct m1; discriminate.
  - destruct (p y) eqn:Hy.
    + destruct m1 as [|z m1]; simpl in H.
      * inversion H; subst. exists [], l. split; reflexivity.
      * inversion H; subst. destruct (IH _ _ _ H2) as (l1 & l2 & -> & Hf).
        exists (z :: l1), l2. split; [reflexivity | exact Hf].
    + destruct (IH _ _ _ H) as (l1 & l2 & -> & Hf).
      exists (y :: l1), l2. split; [reflexivity | exact Hf].
Qed.

Lemma filter_before {A} (p : A -> bool) a b l :
  before a b (List.filter p l) -> before a b l.
Proof.
  intros (m1 & m2 & m3 & H).
  destruct (filter_split p l _ _ _ H) as (l1 & l2 & -> & Hf).
  destruct (filter_split p l2 _ _ _ Hf) as (k1 & k2 & -> & _).
  exists l1, k1, k2. reflexivity.
Qed.

(** Stability: the groups of any one count are in the order they had. *)
Lemma insertSorted_stable k x l :
  List.filter (fun g => g_count g =? k) (insertSorted byCountDesc x l)
  = List.filter (fun g => g_count g =? k) (x :: l).
Proof.
  induction l as [|y l IH]; [reflexivity|].
  cbn [insertSorted]. destruct (byCountDesc x y <=? 0)%Z eqn:E; [reflexivity|].
  apply Z.leb_gt in E. unfold byCountDesc in E.
  cbn [List.filter] in *. rewrite IH.
  destruct (g_count x =? k) eqn:Hx; [|reflexivity].
  apply Nat.eqb_eq in Hx.
  destruct (g_count y =? k) eqn:Hy; [|reflexivity].
  apply Nat.eqb_eq in Hy. lia.
Qed.

Lemma sort_stable k l :
  List.filter (fun g => g_count g =? k) (sort byCountDesc l)
  = List.filter (fun g => g_count g =? k) l.
Proof.
  induction l as [|x l IH]; [reflexivity|].
  cbn [sort foldr]. fold (sort byCountDesc l).
  rewrite insertSorted_stable. cbn [List.filter]. rewrite IH. reflexivity.
Qed.

Lemma sort_before a b l :
  g_count a = g_count b -> before a b (sort byCountDesc l) -> before a b l.
Proof.
  intros Hab H.
  apply (filter_before (fun g => g_count g =? g_count a)).
  rewrite <- sort_stable. apply before_filter; [apply Nat.eqb_refl | | exact H].
  apply Nat.eqb_eq. auto.
Qed.

(** *** First-seen order *)

Lemma setAdd_elem s x y : y ∈ setAdd s x <-> y ∈ s \/ y = x.
Proof.
  unfold setAdd, setHas. case_bool_decide as E.
  - split; [auto|]. intros [H| ->]; assumption.
  - rewrite elem_of_app, list_elem_of_singleton. reflexivity.
Qed.

Lemma newSet_snoc l x : newSet (l ++ [x]) = setAdd (newSet l) x.
Proof. unfold newSet. apply foldl_snoc. Qed.

Lemma newSet_elem l y : y ∈ newSet l <-> y ∈ l.
Proof.
  induction l as [|x l IH] using rev_ind.
  - reflexivity.
  - rewrite newSet_snoc, setAdd_elem, IH, elem_of_app, list_elem_of_singleton.
    reflexivity.
Qed.

Lemma newSet_NoDup l : NoDup (newSet l).
Proof.
  induction l as [|x l IH] using rev_ind; [constructor|].
  rewrite newSet_snoc. unfold setAdd, setHas. case_bool_decide as E; [exact IH|].
  apply NoDup_app. split; [exact IH|]. split.
  - intros y Hy Hx. apply list_elem_of_singleton in Hx. subst. contradiction.
  - apply NoDup_singleton.
Qed.

Lemma firstIndex_in s l l' : s ∈ l -> firstIndex s (l ++ l') = firstIndex s l.
Proof.
  induction l as [|x l IH]; intros H; [inversion H|]. simpl.
  unfold jsstring_eqb. case_bool_decide as E; [reflexivity|].
  apply elem_of_cons in H as [H|H]; [contradiction|]. rewrite IH; auto.
Qed.

Lemma firstIndex_lt s l : s ∈ l -> firstIndex s l < length l.
Proof.
  induction l as [|x l IH]; intros H; [inversion H|]. simpl.
  unfold jsstring_eqb. case_bool_decide as E; [lia|].
  apply elem_of_cons in H as [H|H]; [contradiction|]. apply IH in H. lia.
Qed.

Lemma firstIndex_new s l : s ∉ l -> firstIndex s (l ++ [s]) = length l.
Proof.
  induction l as [|x l IH]; intros H; simpl.
  - unfold jsstring_eqb. rewrite bool_decide_eq_true_2; reflexivity.
  - unfold jsstring_eqb. case_bool_decide as E.
    + subst. exfalso. apply H. left.
    + rewrite IH; [reflexivity|]. intros Hin. apply H. right. exact Hin.
Qed.

Lemma before_elem {A} (a b : A) l : before a b l -> a ∈ l /\ b ∈ l.
Proof.
  intros (l1 & l2 & l3 & ->). split.
  - apply elem_of_app. right. left.
  - apply elem_of_app. right. right. apply elem_of_app. right. left.
Qed.

Lemma before_snoc {A} (a b x : A) l :
  before a b (l ++ [x]) -> before a b l \/ (a ∈ l /\ b = x).
Proof.
  intros (l1 & l2 & l3 & H).
  destruct l3 as [|z l3 _] using rev_ind.
  - right. rewrite app_comm_cons, app_assoc in H.
    apply app_inj_tail in H as [-> ->]. split; [|reflexivity].
    rewrite elem_of_app, elem_of_cons. auto.
  - left. rewrite app_comm_cons, (app_comm_cons l3), !app_assoc in H.
    apply app_inj_tail in H as [-> _].
    exists l1, l2, l3. rewrite <- !app_assoc. reflexivity.
Qed.

(** [newSet] lists its elements in the order of their first occurrence. *)
Lemma newSet_order l s t :
  before s t (newSet l) -> firstIndex s l < firstIndex t l.
Proof.
  induction l as [|x l IH] using rev_ind.
  - intros (l1 & l2 & l3 & H). destruct l1; discriminate.
  - rewrite newSet_snoc. unfold setAdd, setHas. case_bool_decide as E.
    + intros H. pose proof (before_elem _ _ _ H) as [Hs Ht].
      rewrite newSet_elem in Hs. rewrite newSet_elem in Ht.
      rewrite (firstIndex_in s) by exact Hs. rewrite (firstIndex_in t) by exact Ht.
      auto.
    + intros H. apply before_snoc in H as [H|[Hs ->]].
      * pose proof (before_elem _ _ _ H) as [Hs Ht].
        rewrite newSet_elem in Hs. rewrite newSet_elem in Ht.
        rewrite (firstIndex_in s) by exact Hs. rewrite (firstIndex_in t) by exact Ht.
        auto.
      * rewrite newSet_elem in Hs. rewrite newSet_elem in E.
        rewrite (firstIndex_in s) by exact Hs. rewrite firstIndex_new by exact E.
        apply firstIndex_lt. exact Hs.
Qed.

Lemma assoc_Some_key {V} k (v : V) l : assoc k l = Some v -> k ∈ List.map fst l.
Proof.
  intros H. destruct (decide (k ∈ List.map fst l)) as [Hin|Hn]; [exact Hin|].
  apply assoc_None in Hn. congruence.
Qed.

(** The keys of the [Map] are the signatures in first-seen order. *)
Lemma groupMap_keys errors :
  List.map fst (groupMap errors) = newSet (signatures errors).
Proof.
  induction errors as [|error errors IH] using rev_ind; [reflexivity|].
  rewrite groupMap_snoc. unfold signatures. rewrite List.map_app. simpl.
  rewrite newSet_snoc. fold (signatures errors). rewrite <- IH.
  unfold addError, setAdd, setHas.
  destruct (assoc (getErrorSignature error) (groupMap errors)) eqn:Ha.
  - rewrite alter_keys. apply assoc_Some_key in Ha.
    rewrite bool_decide_eq_true_2 by exact Ha. reflexivity.
  - apply assoc_None_iff in Ha. rewrite bool_decide_eq_false_2 by exact Ha.
    rewrite List.map_app. reflexivity.
Qed.

Lemma alter_Forall {V} (Q : jsstring * V -> Prop) f k l :
  (forall k' v, Q (k', v) -> Q (k', f v)) -> Forall Q l -> Forall Q (alter f k l).
Proof.
  intros Hf. induction 1 as [|[k' v] l Hx Hl IH]; simpl; [constructor|].
  destruct (jsstring_eqb k k'); constructor; auto.
Qed.

(** Every group is stored under its own signature. *)
Lemma groupMap_signature errors :
  Forall (fun kg => g_signature (snd kg) = fst kg) (groupMap errors).
Proof.
  induction errors as [|error errors IH] using rev_ind; [constructor|].
  rewrite groupMap_snoc. unfold addError.
  destruct (assoc (getErrorSignature error) (groupMap errors)).
  - apply alter_Forall; [|exact IH]. intros k' v H. exact H.
  - apply Forall_app. split; [exact IH|]. repeat constructor.
Qed.

Lemma groupMap_signatures errors :
  List.map g_signature (List.map snd (groupMap errors)) = newSet (signatures errors).
Proof.
  rewrite <- groupMap_keys. rewrite List.map_map.
  pose proof (groupMap_signature errors) as H.
  induction H as [|kg l Hkg Hl IH]; simpl; congruence.
Qed.

Lemma before_map {A B} (f : A -> B) a b l : before a b l -> before (f a) (f b) (List.map f l).
Proof.
  intros (l1 & l2 & l3 & ->). exists (List.map f l1), (List.map f l2), (List.map f l3).
  rewrite List.map_app. simpl. rewrite List.map_app. reflexivity.
Qed.

Lemma groupErrors_before errors opts a b :
  before a b (groupErrors errors opts) ->
  before a b (sort byCountDesc (List.map snd (groupMap errors))).
Proof.
  unfold groupErrors. destruct (topLimit opts); [|auto].
  unfold sliceTo. destruct (default NaN (top opts)); auto. apply before_take.
Qed.

Lemma groupErrors_sorted errors opts : StronglySorted countGe (groupErrors errors opts).
Proof.
  unfold groupErrors. destruct (topLimit opts); [|apply sort_sorted].
  unfold sliceTo. destruct (default NaN (top opts)); try apply sort_sorted.
  apply StronglySorted_take, sort_sorted.
Qed.

(** C6: the groups are in descending order of count, and groups of the
    same count are in the order in which their signatures first occur
    in the input. *)
Theorem C6_sorted_descending_stable (errors : list ErrorRecord) (opts : GroupOpts) :
  forall i j a b,
    groupErrors errors opts !! i = Some a ->
    groupErrors errors opts !! j = Some b ->
    i < j ->
    g_count b <= g_count a /\
    (g_count a = g_count b ->
     firstIndex (g_signature a) (signatures errors)
     < firstIndex (g_signature b) (signatures errors)).
Proof.
  intros i j a b Hi Hj Hij.
  pose proof (lookup_before _ _ _ _ _ Hij Hi Hj) as Hb.
  split.
  - exact (StronglySorted_before _ _ _ _ (groupErrors_sorted errors opts) Hb).
  - intros Heq. apply newSet_order. rewrite <- groupMap_signatures.
    apply before_map. apply sort_before; [exact Heq|].
    eapply groupErrors_before. exact Hb.
Qed.

Lemma C6_sorted_descending_stable_witness :
  List.map g_signature (groupErrors tiedErrors noOpts) = [u "beta"; u "alpha"; u "gamma"] /\
  exists a b,
    groupErrors tiedErrors noOpts !! 0 = Some a /\
    groupErrors tiedErrors noOpts !! 1 = Some b /\
    g_count b <= g_count a /\
    (g_count a = g_count b ->
     firstIndex (g_signature a) (signatures tiedErrors)
     < firstIndex (g_signature b) (signatures tiedErrors)).
Proof.
  split; [vm_compute; reflexivity|].
  eexists. eexists.
  split; [vm_compute; reflexivity|]. split; [vm_compute; reflexivity|].
  apply (C6_sorted_descending_stable tiedErrors noOpts 0 1);
    [vm_compute; reflexivity | vm_compute; reflexivity | lia].
Defined.

(** C7, the claim as stated, fails: [groupErrors] called without a
    [top] returns eleven groups for eleven different signatures. *)
Lemma C7_no_default_in_groupErrors :
  ~ length (groupErrors elevenErrors noOpts) <= 10.
Proof. vm_compute. lia. Qed.

Lemma groupErrors_length_unlimited errors :
  length (groupErrors errors noOpts) = length (newSet (signatures errors)).
Proof.
  unfold groupErrors. simpl. rewrite length_sort, <- groupMap_keys, !length_map.
  reflexivity.
Qed.

(** C7 (amended): [groupErrors] has no default of its own, without a
    [top] it returns one group for each signature; a positive [top]
    bounds the number of groups; the default of 10 is the one of the
    command line, whose options, when [--top] is not given, make
    [groupErrors] return at most 10 groups. *)
Theorem C7_top_default_is_cli (errors : list ErrorRecord) :
  length (groupErrors errors noOpts) = length (newSet (signatures errors)) /\
  (forall n, (0 < n)%Z ->
     length (groupErrors errors {| top := Some (Fin n) |}) <= Z.to_nat n) /\
  parseCliTop None = Fin 10 /\
  length (mainGroups None errors) <= 10.
Proof.
  split; [apply groupErrors_length_unlimited|].
  assert (Hn : forall n, (0 < n)%Z ->
     length (groupErrors errors {| top := Some (Fin n) |}) <= Z.to_nat n).
  { intros n Hn. unfold groupErrors, topLimit. simpl.
    apply Z.ltb_lt in Hn. rewrite Hn. rewrite length_take. lia. }
  split; [exact Hn|]. split; [reflexivity|].
  unfold mainGroups. change (parseCliTop None) with (Fin 10).
  apply (Hn 10%Z). lia.
Qed.

Lemma C7_top_default_is_cli_witness :
  length (groupErrors elevenErrors noOpts) = 11 /\
  length (groupErrors elevenErrors {| top := Some (Fin 5) |}) <= 5 /\
  length (mainGroups None elevenErrors) <= 10.
Proof.
  destruct (C7_top_default_is_cli elevenErrors) as (Hall & Htop & _ & Hcli).
  split; [rewrite Hall; vm_compute; reflexivity|].
  split; [apply (Htop 5%Z); lia | exact Hcli].
Defined.

(* ===================================================================== *)
(** ** Fuzzy merging (C3) *)
(* ===================================================================== *)

Lemma usedCount_ext used1 used2 l : forall off,
  (forall k, off <= k -> k ∈ used1 <-> k ∈ used2) ->
  usedCount used1 off l = usedCount used2 off l.
Proof.
  induction l as [|g l IH]; intros off H; simpl; [reflexivity|].
  rewrite (IH (S off)) by (intros k Hk; apply H; lia).
  f_equal. rewrite (bool_decide_ext _ _ (H off (Nat.le_refl off))). reflexivity.
Qed.

Lemma usedCount_insert used j g l : forall off,
  j ∉ used -> off <= j -> l !! (j - off) = Some g ->
  usedCount ({[ j ]} ∪ used) off l = usedCount used off l + g_count g.
Proof.
  induction l as [|g0 l IH]; intros off Hj Hoff Hl; [discriminate|]. simpl.
  destruct (decide (j = off)) as [->|Hne].
  - rewrite Nat.sub_diag in Hl. simpl in Hl. inversion Hl; subst g0.
    rewrite bool_decide_eq_true_2
      by (apply elem_of_union; left; apply elem_of_singleton; reflexivity).
    rewrite bool_decide_eq_false_2 by exact Hj.
    rewrite (usedCount_ext ({[ off ]} ∪ used) used l (S off)); [lia|].
    intros k Hk. split; [|intros H; apply elem_of_union; right; exact H].
    intros H. apply elem_of_union in H as [H|H]; [|exact H].
    apply elem_of_singleton in H. lia.
  - replace (j - off) with (S (j - S off)) in Hl by lia. simpl in Hl.
    rewrite (IH (S off)) by (auto; lia).
    assert (off ∈ {[ j ]} ∪ used <-> off ∈ used) as Hiff.
    { rewrite elem_of_union, elem_of_singleton. intuition lia. }
    rewrite (bool_decide_ext _ _ Hiff). lia.
Qed.

Lemma usedCount_all used l : forall off,
  (forall k, off <= k < off + length l -> k ∈ used) ->
  usedCount used off l = totalCount l.
Proof.
  induction l as [|g l IH]; intros off H; simpl; [reflexivity|].
  rewrite bool_decide_eq_true_2 by (apply H; simpl; lia).
  rewrite (IH (S off)) by (intros k Hk; apply H; simpl; lia).
  reflexivity.
Qed.

Lemma mergeStep_cases groups threshold g0 used0 j :
  mergeStep groups threshold (g0, used0) j = (g0, used0) \/
  exists other, (j ∉ used0) /\ groups !! j = Some other /\
    mergeStep groups threshold (g0, used0) j = (absorb g0 other, {[ j ]} ∪ used0).
Proof.
  unfold mergeStep. case_bool_decide as Hj; [left; reflexivity|].
  destruct (groups !! j) as [other|]; [|left; reflexivity].
  destruct (Qle_bool threshold _); [|left; reflexivity].
  right. exists other. auto.
Qed.

(** The inner loop: what the merged group gains is what [used] gains. *)
Lemma mergeStep_fold groups threshold js : forall g0 used0 g used',
  foldl (mergeStep groups threshold) (g0, used0) js = (g, used') ->
  g_count g + usedCount used0 0 groups = g_count g0 + usedCount used' 0 groups /\
  (forall k, k ∈ used' -> k ∈ used0 \/ k ∈ js) /\
  used0 ⊆ used'.
Proof.
  induction js as [|j js IH]; intros g0 used0 g used' H.
  - inversion H; subst. split; [reflexivity|]. split; [auto | reflexivity].
  - change (foldl (mergeStep groups threshold)
              (mergeStep groups threshold (g0, used0) j) js = (g, used')) in H.
    destruct (mergeStep_cases groups threshold g0 used0 j)
      as [Hst|(other & Hj & Hother & Hst)]; rewrite Hst in H;
      apply IH in H as (Hc & Hk & Hs).
    + split; [exact Hc|]. split; [|exact Hs].
      intros k Hin. rewrite elem_of_cons. apply Hk in Hin as [?|?]; auto.
    + rewrite (usedCount_insert used0 j other groups 0) in Hc
        by first [exact Hj | lia | rewrite Nat.sub_0_r; exact Hother].
      simpl in Hc. split; [lia|].
      split; [|intros k Hin; apply Hs, elem_of_union; right; exact Hin].
      intros k Hin. rewrite elem_of_cons. apply Hk in Hin as [Hin|?]; [|auto].
      apply elem_of_union in Hin as [Hin|Hin]; [|auto].
      apply elem_of_singleton in Hin. auto.
Qed.

(** The outer loop: the merged groups hold the counts of the used ones. *)
Lemma mergeFrom_fold groups threshold n : forall i merged used merged' used',
  i + n <= length groups ->
  totalCount merged = usedCount used 0 groups ->
  (forall k, k < i -> k ∈ used) ->
  foldl (mergeFrom groups threshold) (merged, used) (seq i n) = (merged', used') ->
  totalCount merged' = usedCount used' 0 groups /\
  (forall k, k < i + n -> k ∈ used').
Proof.
  induction n as [|n IH]; intros i merged used merged' used' Hlen Hc Hall H.
  - inversion H; subst. rewrite Nat.add_0_r. auto.
  - change (foldl (mergeFrom groups threshold)
              (mergeFrom groups threshold (merged, used) i) (seq (S i) n)
            = (merged', used')) in H.
    unfold mergeFrom at 2 in H.
    replace (i + S n) with (S i + n) by lia.
    case_bool_decide as Hi.
    + eapply IH; [lia | exact Hc | | exact H].
      intros k Hk. destruct (decide (k = i)) as [->|]; [exact Hi | apply Hall; lia].
    + destruct (groups !! i) as [gi|] eqn:Hgi.
      2:{ apply lookup_ge_None in Hgi. lia. }
      destruct (foldl (mergeStep groups threshold) (gi, used)
                 (seq (S i) (length groups - S i))) as [group used1] eqn:Hinner.
      apply mergeStep_fold in Hinner as (Hc1 & Hk1 & Hs1).
      assert (Hnot : i ∉ used1).
      { intros Hin. apply Hk1 in Hin as [?|Hin]; [contradiction|].
        apply elem_of_seq in Hin. lia. }
      eapply IH; [lia | | | exact H].
      * rewrite totalCount_app.
        rewrite (usedCount_insert used1 i gi groups 0)
          by first [exact Hnot | lia | rewrite Nat.sub_0_r; exact Hgi].
        unfold totalCount at 2. simpl. lia.
      * intros k Hk. apply elem_of_union.
        destruct (decide (k = i)) as [->|]; [left; apply elem_of_singleton; reflexivity|].
        right. apply Hs1, Hall. lia.
Qed.

(** C3: merging keeps the sum of the counts, whatever the threshold. *)
Theorem C3_merge_conserves_count (groups : list Group) (threshold : Q) :
  totalCount (mergeSimilarGroups groups threshold) = totalCount groups.
Proof.
  unfold mergeSimilarGroups. rewrite totalCount_sort.
  destruct (foldl (mergeFrom groups threshold) ([], ∅) (seq 0 (length groups)))
    as [merged used] eqn:H.
  apply mergeFrom_fold in H as (Hc & Hall); [| simpl; lia | | intros; lia].
  - simpl. rewrite Hc. apply usedCount_all. intros k Hk. apply Hall. simpl in *. lia.
  - clear. generalize 0. induction groups as [|g l IH]; intros off; simpl; [reflexivity|].
    rewrite bool_decide_eq_false_2 by apply not_elem_of_empty. apply IH.
Qed.

(** Scenario 6 of the specification. *)
Example merge_scenario :
  List.map (fun g => (g_signature g, g_count g, g_files g))
           (mergeSimilarGroups similarGroups (1 # 2))
  = [(u "Cannot find foo", 5, [u "a.ts"; u "b.ts"])].
Proof. vm_compute. reflexivity. Qed.

(* ===================================================================== *)
(** ** Similarity (C4) *)
(* ===================================================================== *)

(** *** The tokens, as the specification words them *)

(** *** The separator pattern *)

Lemma skipRun_idx p rest : forall x, ms_idx x <= ms_idx (skipRun p x rest).
Proof.
  induction rest as [|ch r IH]; intros x; simpl; [lia|].
  destruct (p ch); [|lia]. etransitivity; [|apply IH]. simpl. lia.
Qed.

Lemma skipRun_rest p rest : forall x,
  ms_rest x = rest -> length (ms_rest (skipRun p x rest)) <= length rest.
Proof.
  induction rest as [|ch r IH]; intros x Hx; simpl; [rewrite Hx; simpl; lia|].
  destruct (p ch); [|rewrite Hx; simpl; lia].
  etransitivity; [apply IH; reflexivity|]. lia.
Qed.

(** A greedy [*] over a character class takes the whole run. *)
Lemma repeat_class_greedy p : forall fuel x,
  length (ms_rest x) < fuel ->
  repeatMatcher fuel (charMatcher p) [] 0 None true x Some
  = Some (skipRun p x (ms_rest x)).
Proof.
  induction fuel as [|fuel IH]; intros x Hf; [lia|].
  rewrite repeatMatcher_step by discriminate. cbv zeta. cbn [Nat.eqb negb clearCaps foldr].
  unfold charMatcher at 1.
  destruct (ms_rest x) as [|ch r] eqn:Hr; [reflexivity|].
  cbn [skipRun]. destruct (p ch); [|reflexivity].
  cbn [andb ms_idx].
  replace (S (ms_idx x) =? ms_idx x) with false by (symmetry; apply Nat.eqb_neq; lia).
  cbn [pred predMax]. rewrite IH by (simpl in *; lia). reflexivity.
Qed.

(** A greedy [+] over a character class needs one code unit of the
    class and then takes the whole run. *)
Lemma matchAt_class_plus p cs q :
  (forall c, classMatches noFlags false cs c = p c) ->
  matchAt (mkre noFlags (plus (Class false cs))) q =
    match cu_rest q with
    | ch :: r =>
        if p ch
        then Some (skipRun (classMatches noFlags false cs)
                     {| ms_idx := S (cu_idx q); ms_prev := Some ch; ms_rest := r;
                        ms_caps := [None] |} r)
        else None
    | [] => None
    end.
Proof.
  intros Hp. unfold matchAt, mkre, plus. cbn [re_pattern re_flags compile maxGroup].
  cbn [ms_rest groupsOf].
  replace (1 + length (cu_rest q) + 1) with (S (S (length (cu_rest q)))) by lia.
  rewrite repeatMatcher_step by discriminate. cbv zeta.
  cbn [Nat.eqb negb clearCaps foldr]. unfold charMatcher at 1. cbn [ms_rest].
  destruct (cu_rest q) as [|ch r]; [reflexivity|].
  rewrite Hp. destruct (p ch); [|reflexivity].
  cbn [andb pred predMax]. rewrite repeat_class_greedy by (simpl; lia). reflexivity.
Qed.

Lemma notWord_class c : classMatches noFlags false [CNotWord] c = negb (isWordChar c).
Proof. unfold classMatches. simpl. rewrite !orb_false_r. reflexivity. Qed.

Lemma skipRun_dropWhile p rest : forall x,
  ms_rest x = rest -> ms_rest (skipRun p x rest) = dropWhile p rest.
Proof.
  induction rest as [|ch r IH]; intros x Hx; simpl; [exact Hx|].
  destruct (p ch); [apply IH; reflexivity | exact Hx].
Qed.

Lemma dropWhile_length {A} (p : A -> bool) l : length (dropWhile p l) <= length l.
Proof.
  induction l as [|x l IH]; simpl; [lia|]. destruct (p x); simpl; lia.
Qed.

Lemma wordsFrom_dropWhile r :
  wordsFrom [] (dropWhile (classMatches noFlags false [CNotWord]) r) = wordsFrom [] r.
Proof.
  induction r as [|c r IH]; [reflexivity|]. cbn [dropWhile].
  rewrite notWord_class. cbn [wordsFrom].
  destruct (isWordChar c) eqn:Hc; cbn [negb emit app].
  - cbn [wordsFrom]. rewrite Hc. reflexivity.
  - exact IH.
Qed.

Lemma filter_emit pending l :
  List.filter nonEmpty (pending :: l) = emit pending ++ List.filter nonEmpty l.
Proof. destruct pending; reflexivity. Qed.

(** Splitting on [/\W+/] and dropping the empty pieces gives the runs
    of word characters. *)
Lemma splitLoop_words : forall fuel pending p q,
  2 * length (cu_rest q) < fuel -> p <= cu_idx q ->
  List.filter nonEmpty (splitLoop fuel nonWord_regex pending p q)
  = wordsFrom pending (cu_rest q).
Proof.
  induction fuel as [|fuel IH]; intros pending p q Hf Hp; [lia|].
  cbn [splitLoop]. unfold nonWord_regex, notWord.
  rewrite (matchAt_class_plus (fun c => negb (isWordChar c))) by apply notWord_class.
  destruct (cu_rest q) as [|ch r] eqn:Hr.
  - rewrite filter_emit. simpl. apply app_nil_r.
  - cbn [wordsFrom]. destruct (isWordChar ch); cbn [negb].
    + fold notWord. fold nonWord_regex. rewrite IH.
      * unfold advance. rewrite Hr. reflexivity.
      * unfold advance. rewrite Hr. simpl in *. lia.
      * unfold advance. rewrite Hr. simpl. lia.
    + match goal with |- context [skipRun ?P ?X r] => set (y := skipRun P X r) end.
      assert (Hy : S (cu_idx q) <= ms_idx y).
      { subst y. etransitivity; [|apply skipRun_idx]. reflexivity. }
      assert (Hrest : ms_rest y = dropWhile (classMatches noFlags false [CNotWord]) r)
        by (apply skipRun_dropWhile; reflexivity).
      replace (ms_idx y =? p) with false by (symmetry; apply Nat.eqb_neq; lia).
      rewrite filter_emit. fold notWord. fold nonWord_regex. rewrite IH.
      * unfold cursorOf. cbn [cu_rest]. rewrite Hrest, wordsFrom_dropWhile. reflexivity.
      * unfold cursorOf. cbn [cu_rest]. rewrite Hrest.
        pose proof (dropWhile_length (classMatches noFlags false [CNotWord]) r).
        simpl in Hf. lia.
      * unfold cursorOf. simpl. lia.
Qed.

Lemma split_words s : List.filter nonEmpty (split nonWord_regex s) = wordsOf s.
Proof.
  unfold split, wordsOf. destruct s as [|c s]; [reflexivity|].
  apply splitLoop_words; simpl; lia.
Qed.

Lemma tokens_words str : tokens str = newSet (wordsOf (toLowerCase str)).
Proof. unfold tokens. fold nonEmpty. rewrite split_words. reflexivity. Qed.

(** *** The counting loop and the Jaccard index *)

Lemma countCommon_filter tokens1 tokens2 :
  countCommon tokens1 tokens2 = length (filter (fun x => x ∈ tokens2) tokens1).
Proof.
  unfold countCommon.
  enough (forall n, foldl (fun intersection token =>
                      if setHas tokens2 token then S intersection else intersection)
                    n tokens1
                    = n + length (filter (fun x => x ∈ tokens2) tokens1)) as H
    by apply (H 0).
  induction tokens1 as [|x l IH]; intros n; [simpl; lia|].
  rewrite filter_cons. cbn [foldl]. rewrite IH. unfold setHas.
  case_bool_decide as E.
  - rewrite decide_True by exact E. simpl. lia.
  - rewrite decide_False by exact E. lia.
Qed.

Lemma size_common (l1 l2 : list jsstring) :
  NoDup l1 ->
  size (list_to_set l1 ∩ list_to_set l2 : gset jsstring)
  = length (filter (fun x => x ∈ l2) l1).
Proof.
  intros Hnd.
  rewrite <- (size_list_to_set (C := gset jsstring)) by (apply NoDup_filter; exact Hnd).
  f_equal. apply set_eq. intros x.
  rewrite elem_of_intersection, !elem_of_list_to_set, list_elem_of_filter. tauto.
Qed.

Lemma size_union_common (A B : gset jsstring) :
  size (A ∪ B) = size A + size B - size (A ∩ B).
Proof.
  rewrite size_union_alt, size_difference_alt.
  assert (size (B ∩ A) <= size B) by apply subseteq_size, intersection_subseteq_l.
  rewrite (intersection_comm_L A B). lia.
Qed.

Lemma list_to_set_newSet l : (list_to_set (newSet l) : gset jsstring) = list_to_set l.
Proof.
  apply set_eq. intros x. rewrite !elem_of_list_to_set. apply newSet_elem.
Qed.

Lemma tokens_tokenSet str : (list_to_set (tokens str) : gset jsstring) = tokenSet str.
Proof. rewrite tokens_words. apply list_to_set_newSet. Qed.

Lemma tokens_size str : length (tokens str) = size (tokenSet str).
Proof.
  rewrite <- tokens_tokenSet.
  rewrite size_list_to_set; [reflexivity|]. unfold tokens. apply newSet_NoDup.
Qed.

Lemma common_size str1 str2 :
  countCommon (tokens str1) (tokens str2) = size (tokenSet str1 ∩ tokenSet str2).
Proof.
  rewrite countCommon_filter, <- !tokens_tokenSet, size_common; [reflexivity|].
  unfold tokens. apply newSet_NoDup.
Qed.

Lemma union_size str1 str2 :
  length (tokens str1) + length (tokens str2) - countCommon (tokens str1) (tokens str2)
  = size (tokenSet str1 ∪ tokenSet str2).
Proof. rewrite !tokens_size, common_size, size_union_common. reflexivity. Qed.

Lemma farApart_test a b :
  (Z.max (Z.of_nat (length a)) (Z.of_nat (length b))
     <? 2 * Z.abs (Z.of_nat (length a) - Z.of_nat (length b)))%Z
  = bool_decide (lengthsFarApart a b).
Proof.
  symmetry. destruct (Z.ltb_spec
    (Z.max (Z.of_nat (length a)) (Z.of_nat (length b)))
    (2 * Z.abs (Z.of_nat (length a) - Z.of_nat (length b)))) as [H|H].
  - apply bool_decide_eq_true_2. unfold lengthsFarApart, Qlt. simpl.
    rewrite Nat2Z.inj_max. lia.
  - apply bool_decide_eq_false_2. unfold lengthsFarApart, Qlt. simpl.
    rewrite Nat2Z.inj_max. lia.
Qed.

Lemma jaccard_range A B : (0 <= jaccard A B <= 1)%Q.
Proof.
  unfold jaccard. destruct (size (A ∪ B) =? 0) eqn:E.
  - split; unfold Qle; simpl; lia.
  - apply Nat.eqb_neq in E.
    assert (size (A ∩ B) <= size (A ∪ B)).
    { apply subseteq_size. intros x Hx. apply elem_of_intersection in Hx as [Hx _].
      apply elem_of_union. left. exact Hx. }
    split; unfold Qle; simpl; [lia|].
    rewrite <- (positive_nat_Z (Pos.of_nat (size (A ∪ B)))).
    rewrite Nat2Pos.id by exact E. lia.
Qed.

(** C4: [similarity] is [1] on equal strings, [0] when one string is
    empty, [0] when the lengths differ by more than half of the longer
    one, and otherwise the Jaccard index of the sets of tokens of the
    lower-cased strings, the runs of word characters; it is in [0,1]. *)
Theorem C4_similarity_is_jaccard (a b : jsstring) :
  similarity a b = similaritySpec a b /\ (0 <= similarity a b <= 1)%Q.
Proof.
  assert (Heq : similarity a b = similaritySpec a b).
  { unfold similarity, similaritySpec, jsstring_eqb.
    destruct (decide (a = b)) as [->|Hab].
    - rewrite bool_decide_eq_true_2 by reflexivity. reflexivity.
    - rewrite bool_decide_eq_false_2 by exact Hab.
      destruct (decide (a = [] \/ b = [])) as [Hemp|Hne].
      + destruct Hemp as [-> | ->]; [reflexivity|]. destruct a; reflexivity.
      + destruct a as [|ca a]; [exfalso; auto|]. destruct b as [|cb b]; [exfalso; auto|].
        cbn [truthy negb orb]. rewrite farApart_test.
        destruct (decide (lengthsFarApart (ca :: a) (cb :: b))) as [Hfar|Hnear].
        * rewrite bool_decide_eq_true_2 by exact Hfar. reflexivity.
        * rewrite bool_decide_eq_false_2 by exact Hnear.
          cbv zeta. rewrite union_size, common_size. reflexivity. }
  split; [exact Heq|]. rewrite Heq. unfold similaritySpec.
  destruct (decide (a = b)); [split; unfold Qle; simpl; lia|].
  destruct (decide (a = [] \/ b = [])); [split; unfold Qle; simpl; lia|].
  destruct (decide (lengthsFarApart a b)); [split; unfold Qle; simpl; lia|].
  apply jaccard_range.
Qed.

(** The values that the specification gives. *)
Example similarity_values :
  similarity (u "") (u "") = 1%Q /\
  similarity (u "disk full") (u "") = 0%Q /\
  similarity (u "a") (u "abc") = 0%Q /\
  similarity (u "Cannot find foo") (u "cannot FIND bar") = (2 # 4)%Q /\
  similarity (u "!!") (u "??") = 0%Q.
Proof. repeat split; vm_compute; reflexivity. Qed.

(* ===================================================================== *)
(** ** Statistics (C8) *)
(* ===================================================================== *)

Lemma codeCounts_tally errors : codeCounts errors = tallyOf (codesOf errors).
Proof.
  unfold codeCounts, tallyOf.
  generalize (@nil (jsstring * tally)).
  induction errors as [|e errors IH]; intros t; [reflexivity|].
  cbn [foldl codesOf]. rewrite IH.
  destruct (e_code e) as [[|c code]|]; reflexivity.
Qed.

Lemma frequency_snoc_same c codes : frequency c (codes ++ [c]) = S (frequency c codes).
Proof.
  unfold frequency. rewrite List.filter_app, length_app. simpl.
  unfold jsstring_eqb. rewrite bool_decide_eq_true_2 by reflexivity. simpl. lia.
Qed.

Lemma frequency_snoc_other c c' codes :
  c <> c' -> frequency c (codes ++ [c']) = frequency c codes.
Proof.
  intros H. unfold frequency. rewrite List.filter_app, length_app. simpl.
  unfold jsstring_eqb. rewrite bool_decide_eq_false_2 by exact H. simpl. lia.
Qed.

Lemma frequency_absent c codes : c ∉ codes -> frequency c codes = 0.
Proof.
  unfold frequency. induction codes as [|x l IH]; intros H; [reflexivity|]. simpl.
  unfold jsstring_eqb. rewrite bool_decide_eq_false_2.
  - apply IH. intros Hin. apply H. right. exact Hin.
  - intros ->. apply H. left.
Qed.

Lemma frequency_present c codes : c ∈ codes -> 1 <= frequency c codes.
Proof.
  unfold frequency. induction codes as [|x l IH]; intros H; [inversion H|]. simpl.
  unfold jsstring_eqb. case_bool_decide as E; [simpl; lia|].
  apply elem_of_cons in H as [H|H]; [contradiction | auto].
Qed.

Lemma Forall_other_keys {V} (P Q : jsstring -> V -> Prop) k (l : list (jsstring * V)) :
  (forall k' v, k' <> k -> P k' v -> Q k' v) ->
  k ∉ List.map fst l ->
  Forall (fun kv => P (fst kv) (snd kv)) l ->
  Forall (fun kv => Q (fst kv) (snd kv)) l.
Proof.
  intros Hother. induction l as [|[k2 v2] l IH]; intros Hk H; [constructor|].
  inversion H as [|? ? Hx Hl]; subst. simpl in *. constructor.
  - apply Hother; [|exact Hx]. intros Heq. simpl in Heq. subst. apply Hk. left.
  - apply IH; [|exact Hl]. intros Hin. apply Hk. right. exact Hin.
Qed.

Lemma alter_entries {V} (P Q : jsstring -> V -> Prop) f k (l : list (jsstring * V)) :
  NoDup (List.map fst l) ->
  (forall v, P k v -> Q k (f v)) ->
  (forall k' v, k' <> k -> P k' v -> Q k' v) ->
  Forall (fun kv => P (fst kv) (snd kv)) l ->
  Forall (fun kv => Q (fst kv) (snd kv)) (alter f k l).
Proof.
  intros Hnd Hf Hother H. induction H as [|[k' v] l Hx Hl IH]; simpl; [constructor|].
  simpl in Hnd. apply NoDup_cons in Hnd as [Hk' Hnd].
  unfold jsstring_eqb. case_bool_decide as E.
  - subst. constructor; [apply Hf; exact Hx|].
    eapply Forall_other_keys; eassumption.
  - constructor; [apply Hother; [simpl; congruence | exact Hx]|]. apply IH. exact Hnd.
Qed.

Lemma Forall_keys_impl {V} (P Q : jsstring -> V -> Prop) (l : list (jsstring * V)) :
  (forall k v, k ∈ List.map fst l -> P k v -> Q k v) ->
  Forall (fun kv => P (fst kv) (snd kv)) l ->
  Forall (fun kv => Q (fst kv) (snd kv)) l.
Proof.
  intros H Hl. induction Hl as [|[k v] l Hx Hl IH]; [constructor|].
  constructor.
  - apply H; [left | exact Hx].
  - apply IH. intros k' v' Hin. apply H. right. exact Hin.
Qed.

(** Without inherited names the table has one entry for each code, in
    first-seen order, with the number of its occurrences. *)
Lemma tallyOf_spec codes :
  Forall (fun c => inheritedKey c = false) codes ->
  List.map fst (tallyOf codes) = newSet codes /\
  Forall (fun kv => snd kv = Count (frequency (fst kv) codes)) (tallyOf codes).
Proof.
  induction codes as [|c codes IH] using rev_ind; intros Hall.
  - split; [reflexivity | constructor].
  - apply Forall_app in Hall as [Hall Hc]. inversion Hc as [|? ? Hinh _]; subst.
    destruct (IH Hall) as [Hkeys Hvals].
    unfold tallyOf. rewrite foldl_snoc. fold (tallyOf codes).
    rewrite newSet_snoc. unfold bump, setAdd, setHas.
    destruct (assoc c (tallyOf codes)) as [v|] eqn:Ha.
    + pose proof (assoc_Some_key _ _ _ Ha) as Hin. rewrite Hkeys in Hin.
      rewrite bool_decide_eq_true_2 by exact Hin.
      split; [rewrite alter_keys; exact Hkeys|].
      apply (alter_entries (fun k v => v = Count (frequency k codes))
                           (fun k v => v = Count (frequency k (codes ++ [c])))).
      * rewrite Hkeys. apply newSet_NoDup.
      * intros v' ->. rewrite frequency_snoc_same. reflexivity.
      * intros k v' Hne ->. rewrite frequency_snoc_other by exact Hne. reflexivity.
      * exact Hvals.
    + apply assoc_None_iff in Ha. rewrite Hkeys in Ha.
      rewrite bool_decide_eq_false_2 by exact Ha. rewrite Hinh.
      split; [rewrite List.map_app, Hkeys; reflexivity|].
      apply Forall_app. split.
      * revert Hvals.
        apply (Forall_keys_impl (fun k v => v = Count (frequency k codes))
                 (fun k v => v = Count (frequency k (codes ++ [c])))).
        intros k v' Hk ->.
        rewrite frequency_snoc_other; [reflexivity|].
        intros ->. rewrite Hkeys in Hk. contradiction.
      * repeat constructor. simpl. rewrite frequency_snoc_same.
        rewrite frequency_absent; [reflexivity|].
        intros Hin. apply Ha, newSet_elem. exact Hin.
Qed.

(** *** Array indices are canonical numerals *)

Lemma digitsValue_acc k : forall acc,
  allDigits k = true ->
  digitsValue acc k = (acc * 10 ^ Z.of_nat (length k) + digitsValue 0 k)%Z.
Proof.
  induction k as [|c k IH]; intros acc H.
  - simpl. lia.
  - cbn [allDigits forallb] in H. apply andb_prop in H as [Hc Hk].
    cbn [digitsValue length]. rewrite Hc.
    rewrite (IH (10 * acc + (Z.of_N c - 48))%Z Hk), (IH (10 * 0 + (Z.of_N c - 48))%Z Hk).
    rewrite Nat2Z.inj_succ, Z.pow_succ_r by lia. lia.
Qed.

Lemma digit_range c : isDigit c = true -> (0 <= Z.of_N c - 48 <= 9)%Z.
Proof.
  unfold isDigit, between. intros H. apply andb_prop in H as [H1 H2].
  apply N.leb_le in H1, H2. lia.
Qed.

Lemma digitsValue_bound k :
  allDigits k = true -> (0 <= digitsValue 0 k < 10 ^ Z.of_nat (length k))%Z.
Proof.
  induction k as [|c k IH]; intros H; [simpl; lia|].
  cbn [allDigits forallb] in H. apply andb_prop in H as [Hc Hk].
  cbn [digitsValue length]. rewrite Hc.
  rewrite (digitsValue_acc k _ Hk).
  pose proof (digit_range c Hc). specialize (IH Hk).
  rewrite Nat2Z.inj_succ, Z.pow_succ_r by lia. nia.
Qed.

Lemma digitsValue_same_length k : forall k',
  allDigits k = true -> allDigits k' = true -> length k = length k' ->
  digitsValue 0 k = digitsValue 0 k' -> k = k'.
Proof.
  induction k as [|c k IH]; intros [|c' k'] H H' Hlen Hv; try discriminate;
    [reflexivity|].
  cbn [allDigits forallb] in H, H'.
  apply andb_prop in H as [Hc Hk]. apply andb_prop in H' as [Hc' Hk'].
  cbn [digitsValue] in Hv. rewrite Hc in Hv. rewrite Hc' in Hv.
  rewrite (digitsValue_acc k _ Hk), (digitsValue_acc k' _ Hk') in Hv.
  cbn [length] in Hlen. injection Hlen as Hlen. rewrite <- Hlen in Hv.
  pose proof (digit_range c Hc). pose proof (digit_range c' Hc').
  pose proof (digitsValue_bound k Hk). pose proof (digitsValue_bound k' Hk') as Hb'.
  rewrite <- Hlen in Hb'.
  assert (Z.of_N c - 48 = Z.of_N c' - 48)%Z by nia.
  assert (digitsValue 0 k = digitsValue 0 k') by nia.
  f_equal; [lia | apply IH; auto].
Qed.

Lemma arrayIndex_Some k v :
  arrayIndex k = Some v ->
  allDigits k = true /\ v = digitsValue 0 k /\
  exists c k', k = c :: k' /\ (c = 48%N -> k' = []).
Proof.
  unfold arrayIndex. destruct k as [|c k']; [discriminate|].
  destruct (allDigits (c :: k')) eqn:Hd; [|discriminate]. cbn [andb].
  destruct (negb (c =? 48)%N || bool_decide (k' = [])) eqn:Hz; [|discriminate].
  cbn [andb]. destruct (_ <? _)%Z; [|discriminate]. intros [= <-].
  split; [reflexivity|]. split; [reflexivity|]. exists c, k'. split; [reflexivity|].
  intros ->. simpl in Hz. apply bool_decide_eq_true in Hz. exact Hz.
Qed.

Lemma leading_digit_value c k :
  allDigits (c :: k) = true -> c <> 48%N ->
  (10 ^ Z.of_nat (length k) <= digitsValue 0 (c :: k))%Z.
Proof.
  intros H Hc. cbn [allDigits forallb] in H. apply andb_prop in H as [Hd Hk].
  cbn [digitsValue]. rewrite Hd.
  rewrite (digitsValue_acc k _ Hk).
  pose proof (digit_range c Hd). pose proof (digitsValue_bound k Hk).
  assert (1 <= Z.of_N c - 48)%Z by lia. nia.
Qed.

(** Two keys with the same array index are the same key. *)
Lemma arrayIndex_inj k k' v : arrayIndex k = Some v -> arrayIndex k' = Some v -> k = k'.
Proof.
  intros H H'.
  apply arrayIndex_Some in H as (Hd & Hv & c & t & -> & Hz).
  apply arrayIndex_Some in H' as (Hd' & Hv' & c' & t' & -> & Hz').
  assert (Heq : digitsValue 0 (c :: t) = digitsValue 0 (c' :: t')) by congruence.
  apply digitsValue_same_length; auto.
  pose proof (digitsValue_bound _ Hd) as Hb. pose proof (digitsValue_bound _ Hd') as Hb'.
  destruct (decide (c = 48%N)) as [Hc|Hc]; destruct (decide (c' = 48%N)) as [Hc'|Hc'].
  - rewrite (Hz Hc), (Hz' Hc'). reflexivity.
  - exfalso. subst c. rewrite (Hz eq_refl) in Heq.
    pose proof (leading_digit_value c' t' Hd' Hc') as Hl.
    assert (0 < 10 ^ Z.of_nat (length t'))%Z by (apply Z.pow_pos_nonneg; lia).
    change (digitsValue 0 [48%N]) with 0%Z in Heq. lia.
  - exfalso. subst c'. rewrite (Hz' eq_refl) in Heq.
    pose proof (leading_digit_value c t Hd Hc) as Hl.
    assert (0 < 10 ^ Z.of_nat (length t))%Z by (apply Z.pow_pos_nonneg; lia).
    change (digitsValue 0 [48%N]) with 0%Z in Heq. lia.
  - pose proof (leading_digit_value c t Hd Hc) as Hl.
    pose proof (leading_digit_value c' t' Hd' Hc') as Hl'.
    simpl length in *. f_equal.
    destruct (Nat.lt_trichotomy (length t) (length t')) as [Hlt|[Heq'|Hgt]];
      [exfalso | exact Heq' | exfalso].
    + assert (10 ^ Z.of_nat (S (length t)) <= 10 ^ Z.of_nat (length t'))%Z
        by (apply Z.pow_le_mono_r; lia).
      lia.
    + assert (10 ^ Z.of_nat (S (length t')) <= 10 ^ Z.of_nat (length t))%Z
        by (apply Z.pow_le_mono_r; lia).
      lia.
Qed.

(** *** The scan for the most frequent code *)

(** The scan keeps the first entry that reaches the largest count. *)
Lemma topCode_scan L : forall m0 r0 m r,
  foldl topCodeStep (m0, r0) L = (m, r) ->
  m0 <= m /\
  (forall k n, (k, Count n) ∈ L -> n <= m) /\
  ((m = m0 /\ r = r0) \/
   (m0 < m /\ exists c L1 L2,
      r = Some (c, m) /\ L = L1 ++ (c, Count m) :: L2 /\
      forall k n, (k, Count n) ∈ L1 -> n < m)).
Proof.
  induction L as [|[k v] L IH]; intros m0 r0 m r H.
  - inversion H; subst. split; [lia|]. split; [|left; auto].
    intros k n Hin. inversion Hin.
  - change (foldl topCodeStep (topCodeStep (m0, r0) (k, v)) L = (m, r)) in H.
    unfold topCodeStep at 2 in H. cbn [fst snd] in H.
    destruct v as [n|].
    + destruct (m0 <? n) eqn:Hlt.
      * apply Nat.ltb_lt in Hlt. apply IH in H as (Hle & Hmax & Hcase).
        split; [lia|]. split.
        { intros k' n' Hin. apply elem_of_cons in Hin as [Heq|Hin]; [|eauto].
          inversion Heq; subst. exact Hle. }
        right. split; [lia|].
        destruct Hcase as [[-> ->]|(Hlt' & c & L1 & L2 & -> & -> & Hsmall)].
        -- exists k, [], L. split; [reflexivity|]. split; [reflexivity|].
           intros k' n' Hin. inversion Hin.
        -- exists c, ((k, Count n) :: L1), L2. split; [reflexivity|].
           split; [reflexivity|].
           intros k' n' Hin. apply elem_of_cons in Hin as [Heq|Hin]; [|eauto].
           inversion Heq; subst. exact Hlt'.
      * apply Nat.ltb_ge in Hlt. apply IH in H as (Hle & Hmax & Hcase).
        split; [exact Hle|]. split.
        { intros k' n' Hin. apply elem_of_cons in Hin as [Heq|Hin]; [|eauto].
          inversion Heq; subst. lia. }
        destruct Hcase as [Hsame|(Hlt' & c & L1 & L2 & -> & -> & Hsmall)];
          [left; exact Hsame|].
        right. split; [exact Hlt'|].
        exists c, ((k, Count n) :: L1), L2. split; [reflexivity|].
        split; [reflexivity|].
        intros k' n' Hin. apply elem_of_cons in Hin as [Heq|Hin]; [|eauto].
        inversion Heq; subst. lia.
    + apply IH in H as (Hle & Hmax & Hcase).
      split; [exact Hle|]. split.
      { intros k' n' Hin. apply elem_of_cons in Hin as [Heq|Hin]; [|eauto].
        inversion Heq. }
      destruct Hcase as [Hsame|(Hlt' & c & L1 & L2 & -> & -> & Hsmall)];
        [left; exact Hsame|].
      right. split; [exact Hlt'|].
      exists c, ((k, Text) :: L1), L2. split; [reflexivity|].
      split; [reflexivity|].
      intros k' n' Hin. apply elem_of_cons in Hin as [Heq|Hin]; [|eauto].
      inversion Heq.
Qed.

(** *** The order of [Object.entries] *)

Lemma insertSorted_elem {A} (cmp : A -> A -> Z) x y l :
  y ∈ insertSorted cmp x l <-> y = x \/ y ∈ l.
Proof.
  induction l as [|z l IH]; simpl.
  - rewrite list_elem_of_singleton. split; [auto|]. intros [H|H]; [exact H | inversion H].
  - destruct (cmp x z <=? 0)%Z.
    + rewrite elem_of_cons. reflexivity.
    + rewrite !elem_of_cons, IH. tauto.
Qed.

Lemma sort_elem {A} (cmp : A -> A -> Z) y l : y ∈ sort cmp l <-> y ∈ l.
Proof.
  induction l as [|x l IH]; [reflexivity|].
  cbn [sort foldr]. fold (sort cmp l).
  rewrite insertSorted_elem, elem_of_cons, IH. reflexivity.
Qed.

Lemma sort_byIndex_sorted {V} (l : list (jsstring * V)) :
  StronglySorted (fun a b => (indexOf a <= indexOf b)%Z) (sort byIndex l).
Proof.
  induction l as [|x l IH]; [constructor|].
  cbn [sort foldr]. fold (sort (@byIndex V) l).
  induction IH as [|y s Hs IHs Hy]; simpl; [repeat constructor|].
  destruct (byIndex x y <=? 0)%Z eqn:E.
  - apply Z.leb_le in E. unfold byIndex in E. fold (indexOf x) (indexOf y) in E.
    constructor; [constructor; assumption|].
    constructor; [lia|].
    eapply Forall_impl; [exact Hy|]. intros; simpl in *; lia.
  - apply Z.leb_gt in E. unfold byIndex in E. fold (indexOf x) (indexOf y) in E.
    constructor; [exact IHs|].
    apply insertSorted_Forall; [lia | exact Hy].
Qed.

Lemma filter_elem {A} (p : A -> bool) x l : x ∈ List.filter p l <-> x ∈ l /\ p x = true.
Proof. rewrite !list_elem_of_In. apply List.filter_In. Qed.

Lemma entries_elem {V} (x : jsstring * V) t : x ∈ entries t <-> x ∈ t.
Proof.
  unfold entries. rewrite elem_of_app, sort_elem, !filter_elem.
  destruct (isIndexKey x); simpl; intuition discriminate.
Qed.

Lemma before_app_inv {A} (x y : A) l1 l2 :
  before x y (l1 ++ l2) ->
  before x y l1 \/ (x ∈ l1 /\ y ∈ l2) \/ before x y l2.
Proof.
  induction l1 as [|a l1 IH]; intros H; [auto|].
  destruct H as (m1 & m2 & m3 & H). destruct m1 as [|b m1]; simpl in H.
  - inversion H as [[Ha Hrest]]. subst a.
    assert (Hy : y ∈ l1 ++ l2) by (rewrite Hrest, elem_of_app; right; left).
    apply elem_of_app in Hy as [Hy|Hy].
    + left. apply list_elem_of_split in Hy as (k1 & k2 & ->).
      exists [], k1, k2. reflexivity.
    + right. left. split; [left | exact Hy].
  - inversion H as [[Ha Hrest]]. subst b.
    destruct (IH (ex_intro _ m1 (ex_intro _ m2 (ex_intro _ m3 Hrest))))
      as [Hb|[[Hx Hy]|Hb]].
    + left. destruct Hb as (k1 & k2 & k3 & ->). exists (a :: k1), k2, k3. reflexivity.
    + right. left. split; [right; exact Hx | exact Hy].
    + right. right. exact Hb.
Qed.

(** Where [Object.entries] lists one key before another. *)
Lemma entries_order {V} (t : list (jsstring * V)) (x y : jsstring * V) :
  before x y (entries t) -> fst x <> fst y ->
  match arrayIndex (fst x), arrayIndex (fst y) with
  | Some i, Some i' => (i < i')%Z
  | Some _, None => True
  | None, Some _ => False
  | None, None => before x y t
  end.
Proof.
  intros H Hne. unfold entries in H.
  apply before_app_inv in H as [H|[[Hx Hy]|H]].
  - pose proof (before_elem _ _ _ H) as [Hx Hy].
    rewrite sort_elem, filter_elem in Hx, Hy.
    destruct Hx as [_ Hx], Hy as [_ Hy]. unfold isIndexKey in Hx, Hy.
    pose proof (StronglySorted_before _ _ _ _ (sort_byIndex_sorted _) H) as Hle.
    unfold indexOf in Hle.
    destruct (arrayIndex (fst x)) as [i|] eqn:Hi; [|discriminate].
    destruct (arrayIndex (fst y)) as [i'|] eqn:Hi'; [|discriminate].
    simpl in Hle. destruct (decide (i = i')) as [->|]; [|lia].
    exfalso. apply Hne. eapply arrayIndex_inj; eassumption.
  - rewrite sort_elem, filter_elem in Hx. rewrite filter_elem in Hy.
    destruct Hx as [_ Hx], Hy as [_ Hy]. unfold isIndexKey in Hx, Hy.
    destruct (arrayIndex (fst x)); [|discriminate].
    destruct (arrayIndex (fst y)); [discriminate | exact I].
  - pose proof (before_elem _ _ _ H) as [Hx Hy].
    rewrite filter_elem in Hx, Hy.
    destruct Hx as [_ Hx], Hy as [_ Hy]. unfold isIndexKey in Hx, Hy.
    destruct (arrayIndex (fst x)); [discriminate|].
    destruct (arrayIndex (fst y)); [discriminate|].
    eapply filter_before. exact H.
Qed.

Lemma tally_entry codes c :
  Forall (fun c => inheritedKey c = false) codes -> c ∈ codes ->
  (c, Count (frequency c codes)) ∈ tallyOf codes.
Proof.
  intros Hall Hc. destruct (tallyOf_spec codes Hall) as [Hkeys Hvals].
  apply newSet_elem in Hc. rewrite <- Hkeys in Hc.
  apply list_elem_of_In, List.in_map_iff in Hc as ([k v] & Hk & Hin).
  simpl in Hk. subst k. apply list_elem_of_In in Hin.
  rewrite Forall_forall in Hvals. pose proof (Hvals _ Hin) as Hv. simpl in Hv.
  subst v. exact Hin.
Qed.

Lemma tally_value codes k n :
  Forall (fun c => inheritedKey c = false) codes ->
  (k, Count n) ∈ tallyOf codes -> n = frequency k codes /\ k ∈ codes.
Proof.
  intros Hall Hin. destruct (tallyOf_spec codes Hall) as [Hkeys Hvals].
  rewrite Forall_forall in Hvals. pose proof (Hvals _ Hin) as Hv. simpl in Hv.
  split; [congruence|].
  apply newSet_elem. rewrite <- Hkeys.
  apply list_elem_of_In, List.in_map_iff. exists (k, Count n).
  split; [reflexivity | apply list_elem_of_In; exact Hin].
Qed.

(** C8, the claim as stated, fails: of two codes that occur once each
    the one that is an array index wins, although it came second. *)
Lemma C8_index_code_wins_tie :
  topCode (getStats [] tiedCodes) = Some (u "42", 1) /\
  frequency (u "E1") (codesOf tiedCodes) = 1 /\
  firstIndex (u "E1") (codesOf tiedCodes) < firstIndex (u "42") (codesOf tiedCodes).
Proof. repeat split; vm_compute; reflexivity || lia. Qed.

(** C8 (amended): when no code is the name of an inherited member,
    [topCode] is absent exactly when no record has a code; otherwise
    it is a code of the highest frequency, with that frequency, and it
    is listed before every other code of that frequency in the order
    of [Object.entries]: array indices in ascending order first, then
    the other codes in first-seen order. *)
Theorem C8_topCode_most_frequent (groups : list Group) (errors : list ErrorRecord) :
  noInheritedCode errors = true ->
  match topCode (getStats groups errors) with
  | None => codesOf errors = []
  | Some (c, n) =>
      n = frequency c (codesOf errors) /\ 1 <= n /\
      (forall c', frequency c' (codesOf errors) <= n) /\
      (forall c', c' <> c -> frequency c' (codesOf errors) = n ->
                  listedBefore (codesOf errors) c c')
  end.
Proof.
  intros Hno.
  assert (Hall : Forall (fun c => inheritedKey c = false) (codesOf errors)).
  { unfold noInheritedCode in Hno. rewrite forallb_forall in Hno.
    apply Forall_forall. intros c Hc. apply list_elem_of_In, Hno in Hc.
    destruct (inheritedKey c); [discriminate | reflexivity]. }
  cbn [topCode getStats]. rewrite codeCounts_tally.
  set (codes := codesOf errors) in *.
  destruct (foldl topCodeStep (0, None) (entries (tallyOf codes))) as [m r] eqn:Hs.
  apply topCode_scan in Hs as (_ & Hmax & Hcase). cbn [snd].
  assert (Hfreq : forall c', frequency c' codes <= m).
  { intros c'. destruct (decide (c' ∈ codes)) as [Hin|Hout].
    - apply (Hmax c'). apply entries_elem, tally_entry; assumption.
    - rewrite frequency_absent by exact Hout. lia. }
  destruct Hcase as [[-> ->]|(Hpos & c & L1 & L2 & -> & HL & Hsmall)].
  - destruct codes as [|c codes'] eqn:Hcodes; [reflexivity|]. exfalso.
    pose proof (frequency_present c (c :: codes') ltac:(left)) as H1.
    pose proof (Hfreq c). lia.
  - assert (Hc : (c, Count m) ∈ tallyOf codes).
    { apply entries_elem. rewrite HL. apply elem_of_app. right. left. }
    apply tally_value in Hc as [Hm Hcin]; [|exact Hall].
    split; [exact Hm|]. split; [lia|]. split; [exact Hfreq|].
    intros c' Hne Hsame.
    assert (Hin' : c' ∈ codes).
    { destruct (decide (c' ∈ codes)) as [Hin|Hout]; [exact Hin|].
      rewrite frequency_absent in Hsame by exact Hout. lia. }
    pose proof (tally_entry codes c' Hall Hin') as He. rewrite Hsame in He.
    apply entries_elem in He. rewrite HL in He.
    assert (Hbefore : before (c, Count m) (c', Count m) (entries (tallyOf codes))).
    { rewrite HL. apply elem_of_app in He as [He|He].
      - apply Hsmall in He. lia.
      - apply elem_of_cons in He as [He|He]; [congruence|].
        apply list_elem_of_split in He as (k1 & k2 & ->).
        exists L1, k1, k2. reflexivity. }
    apply entries_order in Hbefore; [|simpl; congruence].
    unfold listedBefore. cbn [fst] in Hbefore.
    destruct (arrayIndex c), (arrayIndex c'); try exact Hbefore.
    apply newSet_order. destruct (tallyOf_spec codes Hall) as [Hkeys _].
    rewrite <- Hkeys. apply (before_map fst) in Hbefore. exact Hbefore.
Qed.

Lemma C8_topCode_most_frequent_witness :
  noInheritedCode codedErrors = true /\
  topCode (getStats [] codedErrors) = Some (u "TS2304", 2) /\
  2 = frequency (u "TS2304") (codesOf codedErrors) /\
  (forall c', frequency c' (codesOf codedErrors) <= 2).
Proof.
  pose proof (C8_topCode_most_frequent [] codedErrors eq_refl) as H.
  assert (Ht : topCode (getStats [] codedErrors) = Some (u "TS2304", 2))
    by (vm_compute; reflexivity).
  rewrite Ht in H. destruct H as (Hn & _ & Hmax & _).
  split; [reflexivity|]. split; [exact Ht|]. split; [exact Hn | exact Hmax].
Defined.

(** A code that names an inherited member is never counted. *)
Example inherited_code_not_counted :
  topCode (getStats [] [msg (u "m") (Some (u "constructor"))]) = None.
Proof. vm_compute. reflexivity. Qed.

(* ===================================================================== *)
(** ** Further properties of the extraction *)
(* ===================================================================== *)

Lemma follows_refl x : follows x x.
Proof. exists []. split; [reflexivity | simpl; lia]. Qed.

Lemma follows_trans x y z : follows x y -> follows y z -> follows x z.
Proof.
  intros (p1 & H1 & I1) (p2 & H2 & I2). exists (p1 ++ p2).
  rewrite H1, H2, <- app_assoc, length_app. split; [reflexivity | lia].
Qed.

Lemma follows_setCap_r n v x y : follows x y -> follows x (setCap n v y).
Proof. exact (fun H => H). Qed.

Lemma charMatcher_threads p : threads (charMatcher p).
Proof.
  intros x c z. unfold charMatcher.
  destruct (ms_rest x) as [|ch rest] eqn:Hr; [discriminate|].
  destruct (p ch); [|discriminate].
  intros Hc. eexists. split; [exact Hc|].
  exists [ch]. simpl. split; [exact Hr | lia].
Qed.

Lemma assertion_threads p : threads (assertion p).
Proof.
  intros x c z. unfold assertion. destruct (p x); [|discriminate].
  intros Hc. exists x. split; [exact Hc | apply follows_refl].
Qed.

Section Threading.
Variable R : mstate -> mstate -> Prop.
Hypothesis R_refl : forall x, R x x.
Hypothesis R_trans : forall x y z, R x y -> R y z -> R x z.

Lemma repeatMatcher_threadsBy m gs greedy :
  (forall x, R x (clearCaps gs x)) ->
  threadsBy R m ->
  forall fuel min max, threadsBy R (repeatMatcher fuel m gs min max greedy).
Proof using Type*.
  intros Hclear Hm. induction fuel as [|fuel IH]; intros min max x c z H.
  - destruct max as [[|n]|]; simpl in H; try discriminate.
    exists x. split; [exact H | apply R_refl].
  - destruct (decide (max = Some 0)) as [->|Hmax].
    { simpl in H. exists x. split; [exact H | apply R_refl]. }
    rewrite repeatMatcher_step in H by exact Hmax. cbv zeta in H.
    assert (Hiter : forall z',
      m (clearCaps gs x) (fun y =>
          if (min =? 0) && (ms_idx y =? ms_idx x) then None
          else repeatMatcher fuel m gs (pred min) (predMax max) greedy y c) = Some z' ->
      exists y, c y = Some z' /\ R x y).
    { intros z' Hz. apply Hm in Hz as (y & Hd & Hy).
      destruct ((min =? 0) && (ms_idx y =? ms_idx x)); [discriminate|].
      apply IH in Hd as (y' & Hc & Hy').
      exists y'. split; [exact Hc|].
      exact (R_trans _ _ _ (Hclear x) (R_trans _ _ _ Hy Hy')). }
    destruct (negb (min =? 0)); [apply Hiter; exact H|].
    destruct (negb greedy).
    + destruct (c x) eqn:Hc1 in H.
      * inversion H; subst. exists x. split; [exact Hc1 | apply R_refl].
      * apply Hiter. exact H.
    + destruct (m (clearCaps gs x) _) eqn:Hm1 in H.
      * inversion H; subst. apply Hiter. exact Hm1.
      * exists x. split; [exact H | apply R_refl].
Qed.

End Threading.

Lemma follows_clearCaps gs x : follows x (clearCaps gs x).
Proof.
  exists []. rewrite clearCaps_idx, clearCaps_rest. split; [reflexivity | simpl; lia].
Qed.

Lemma compile_threads fl r : threads (compile fl r).
Proof.
  induction r as [| p | | neg cs | a IHa b IHb | a IHa b IHb | n r1 IH
                 | r1 IH min max greedy | | | ]; cbn [compile].
  - intros x c z H. exists x. split; [exact H | apply follows_refl].
  - apply charMatcher_threads.
  - apply charMatcher_threads.
  - apply charMatcher_threads.
  - intros x c z H. apply IHa in H as (y & H & Hy).
    apply IHb in H as (y' & H & Hy'). exists y'. split; [exact H|].
    eapply follows_trans; eassumption.
  - intros x c z H. destruct (compile fl a x c) eqn:Ha.
    + inversion H; subst. apply IHa in Ha. exact Ha.
    + apply IHb in H. exact H.
  - intros x c z H. apply IH in H as (y & H & Hy).
    eexists. split; [exact H|]. apply follows_setCap_r. exact Hy.
  - intros x c z H.
    eapply (repeatMatcher_threadsBy follows follows_refl follows_trans) in H;
      [exact H | apply follows_clearCaps | exact IH].
  - apply assertion_threads.
  - apply assertion_threads.
  - apply assertion_threads.
Qed.

Lemma drop_next {A} (l : list A) i x r : drop i l = x :: r -> drop (S i) l = r.
Proof.
  intros H. replace (S i) with (i + 1) by lia.
  rewrite <- drop_drop, H. reflexivity.
Qed.

Lemma follows_drop input x y :
  ms_rest x = drop (ms_idx x) input -> follows x y ->
  ms_rest y = drop (ms_idx y) input.
Proof.
  intros Hx (pre & Hr & Hi). rewrite Hi, <- drop_drop, <- Hx, Hr.
  rewrite drop_app_length. reflexivity.
Qed.

Lemma matchAt_drop input re c y :
  cu_rest c = drop (cu_idx c) input -> matchAt re c = Some y ->
  ms_rest y = drop (ms_idx y) input.
Proof.
  intros Hc H. unfold matchAt in H.
  apply compile_threads in H as (y' & Hy & Hf). inversion Hy; subst y'.
  eapply follows_drop; [|exact Hf]. exact Hc.
Qed.

Lemma searchFrom_drop input re rest : forall idx prev start y,
  rest = drop idx input ->
  searchFrom re idx prev rest = Some (start, y) ->
  ms_rest y = drop (ms_idx y) input.
Proof.
  induction rest as [|ch rest IH]; intros idx prev start y Hd; cbn [searchFrom].
  - destruct (matchAt re _) eqn:Hm; [|discriminate].
    intros H; inversion H; subst. eapply matchAt_drop; [|exact Hm]. exact Hd.
  - destruct (matchAt re _) eqn:Hm.
    + intros H; inversion H; subst. eapply matchAt_drop; [|exact Hm]. exact Hd.
    + apply IH. symmetry. eapply drop_next. symmetry. exact Hd.
Qed.

Lemma laidOut_from input from from' l :
  from <= from' -> laidOut input from' l -> laidOut input from l.
Proof.
  destruct l as [|e l]; [auto|]. simpl.
  intros Hle (p & r & Hp & Hr & Hfrom & H). exists p, r.
  split; [exact Hp|]. split; [exact Hr|]. split; [lia | exact H].
Qed.

Lemma execLoop_laidOut pattern input :
  1 <= minLen (re_pattern (p_regex pattern)) ->
  forall fuel c l,
    cu_rest c = drop (cu_idx c) input -> cu_idx c <= length input ->
    execLoop fuel pattern input c = Returns l ->
    laidOut input (cu_idx c) l.
Proof.
  intros Hmin. induction fuel as [|fuel IH]; intros c l Hd Hi; cbn [execLoop];
    [discriminate|].
  destruct (search (p_regex pattern) c) as [[start y]|] eqn:Hs;
    [|intros [= <-]; exact I].
  pose proof (searchFrom_drop input _ _ _ _ _ _ Hd Hs) as Hy.
  apply search_ahead in Hs as (Hs1 & Hs2 & Hs3).
  destruct (ms_idx y <=? cu_idx c); [discriminate|].
  assert (Hlen : ms_idx y <= length input).
  { rewrite Hd, length_drop in Hs3. lia. }
  assert (Hrec : forall l', execLoop fuel pattern input (cursorOf y) = Returns l' ->
                            laidOut input (ms_idx y) l').
  { intros l'. apply (IH (cursorOf y)); [exact Hy | exact Hlen]. }
  destruct (execLoop fuel pattern input (cursorOf y)) as [l'| | |];
    destruct (p_extract pattern (toMatch input start y)) as [e0|]; simpl;
    try discriminate; intros [= <-].
  - assert (Hraw : length (substring input start (ms_idx y)) = ms_idx y - start).
    { unfold substring. rewrite length_take, length_drop. lia. }
    exists start, (substring input start (ms_idx y)).
    split; [reflexivity|]. split; [reflexivity|]. split; [exact Hs1|].
    rewrite Hraw. replace (start + (ms_idx y - start)) with (ms_idx y) by lia.
    split; [|split; [exact Hlen | split; [reflexivity | apply Hrec; reflexivity]]].
    intros Hnil. rewrite Hnil in Hraw. simpl in Hraw. lia.
  - eapply laidOut_from; [|apply Hrec; reflexivity]. lia.
Qed.

Lemma execLoop_length pattern input :
  1 <= minLen (re_pattern (p_regex pattern)) ->
  forall fuel c l,
    execLoop fuel pattern input c = Returns l -> length l <= length (cu_rest c).
Proof.
  intros Hmin. induction fuel as [|fuel IH]; intros c l; cbn [execLoop];
    [discriminate|].
  destruct (search (p_regex pattern) c) as [[start y]|] eqn:Hs;
    [|intros [= <-]; simpl; lia].
  apply search_ahead in Hs as (Hs1 & Hs2 & Hs3).
  destruct (ms_idx y <=? cu_idx c); [discriminate|].
  specialize (IH (cursorOf y)).
  destruct (execLoop fuel pattern input (cursorOf y)) as [l'| | |];
    destruct (p_extract pattern (toMatch input start y)) as [e0|]; simpl;
    try discriminate; intros [= <-]; specialize (IH l' eq_refl); simpl in *; lia.
Qed.

Lemma extract_types :
  Forall (fun kp => forall m e, p_extract (snd kp) m = Some e -> e_type e = Some (fst kp))
         PATTERNS.
Proof.
  repeat constructor; intros m e; cbn [snd fst];
    unfold typescript, eslint, jest, python, rust, go, gcc, generic; cbn [p_extract];
    repeat match goal with
           | |- context [mbind _ (group m ?n)] => destruct (group m n); cbn [mbind option_bind]
           end;
    try discriminate; intros [= <-]; reflexivity.
Qed.

Lemma generic_In : (u "generic", generic) ∈ PATTERNS.
Proof. unfold PATTERNS. do 7 right. left. Qed.

Lemma chosen_pattern_type type key pattern m e :
  choosePattern type = Some (key, pattern) ->
  p_extract pattern m = Some e ->
  key ∈ categories /\ e_type (withRaw e m) = Some key.
Proof.
  unfold choosePattern, PATTERNS_get. intros Hc He.
  assert (Hin : (key, pattern) ∈ PATTERNS).
  { destruct (assoc type PATTERNS) as [p|] eqn:Hp.
    - inversion Hc; subst. apply assoc_Some_In. exact Hp.
    - destruct (inheritedKey type); [discriminate|]. inversion Hc; subst.
      exact generic_In. }
  split.
  - apply list_elem_of_In, List.in_map_iff. exists (key, pattern).
    split; [reflexivity | apply list_elem_of_In; exact Hin].
  - pose proof extract_types as Hall. rewrite Forall_forall in Hall.
    exact (Hall _ Hin m e He).
Qed.

(** What [parseErrors] returns: the scan with the chosen pattern, or,
    when that is empty and the type is not [generic], the generic scan. *)
Lemma parseErrors_cases input forcedType l :
  parseErrors input forcedType = Returns l ->
  exists key pattern,
    choosePattern (resolvedType input forcedType) = Some (key, pattern) /\
    ((scan pattern input = Returns l /\
      (l <> [] \/ resolvedType input forcedType = u "generic")) \/
     (scan pattern input = Returns [] /\
      resolvedType input forcedType <> u "generic" /\
      scan generic input = Returns l)).
Proof.
  intros H.
  destruct (choosePattern (resolvedType input forcedType)) as [[key pattern]|] eqn:Hc.
  - exists key, pattern. split; [reflexivity|].
    unfold parseErrors in H. rewrite (parseErrorsLog_step 0 _ _ _ _ Hc) in H.
    destruct (scan pattern input) as [errors| | |] eqn:Hs; try discriminate.
    destruct errors as [|e errors]; cbn [length Nat.eqb andb] in H.
    + destruct (jsstring_eqb (resolvedType input forcedType) (u "generic")) eqn:Hg;
        cbn [negb fst] in H.
      * left. inversion H; subst. split; [reflexivity|]. right.
        apply jsstring_eqb_eq. exact Hg.
      * right. split; [reflexivity|]. split; [apply jsstring_eqb_neq; exact Hg | exact H].
    + cbn [fst] in H. inversion H; subst. left. split; [reflexivity|]. left. discriminate.
  - unfold parseErrors in H. cbn [parseErrorsLog] in H.
    fold (resolvedType input forcedType) in H. rewrite Hc in H. discriminate.
Qed.

Lemma scan_typed key pattern input l :
  (forall m e, p_extract pattern m = Some e -> e_type (withRaw e m) = Some key) ->
  scan pattern input = Returns l -> Forall (fun e => e_type e = Some key) l.
Proof. intros H. unfold scan. apply execLoop_extracted. exact H. Qed.

(** X1: [detectType] answers with one of the eight keys of [PATTERNS],
    so that the pattern of a detected type is always an own pattern:
    with ['auto'] the lookup never falls back on [generic] for want of
    a pattern, and never finds an inherited member. *)
Theorem X1_detected_type_has_a_pattern (input : jsstring) :
  detectType input ∈ categories /\
  exists pattern, choosePattern (detectType input) = Some (detectType input, pattern).
Proof.
  unfold detectType.
  repeat match goal with |- context [if ?b then _ else _] => destruct b end;
    (split; [compute_done | eexists; reflexivity]).
Qed.

(** X2: [parseErrors] returns a list of records, it neither throws nor
    loops, when the type is ['auto'] or any string that is not the name
    of a member inherited from [Object.prototype]. *)
Theorem X2_parseErrors_returns (input forcedType : jsstring) :
  forcedType = u "auto" \/ inheritedKey forcedType = false ->
  exists l, parseErrors input forcedType = Returns l.
Proof.
  intros [-> | H]; [apply parseErrors_auto_returns|].
  destruct (decide (forcedType = u "auto")) as [->|Hne];
    [apply parseErrors_auto_returns|].
  apply parseErrors_returns. unfold resolvedType.
  apply jsstring_eqb_neq in Hne. rewrite Hne. exact H.
Qed.

Lemma X2_parseErrors_returns_witness :
  inheritedKey (u "rust") = false /\
  exists l, parseErrors (u "warning[E0001]: unused") (u "rust") = Returns l.
Proof.
  split; [reflexivity|].
  apply (X2_parseErrors_returns (u "warning[E0001]: unused") (u "rust")).
  right. reflexivity.
Defined.

(** The records of one call have one type. *)
Lemma parseErrors_typed input forcedType l :
  parseErrors input forcedType = Returns l ->
  exists t, t ∈ categories /\
            (t = resolvedType input forcedType \/ t = u "generic") /\
            Forall (fun e => e_type e = Some t) l.
Proof.
  intros H. apply parseErrors_cases in H as (key & pattern & Hc & Hcase).
  assert (Hkey : key ∈ categories /\
                 (key = resolvedType input forcedType \/ key = u "generic")).
  { unfold choosePattern, PATTERNS_get in Hc.
    destruct (assoc (resolvedType input forcedType) PATTERNS) as [p|] eqn:Hp.
    - inversion Hc; subst. split; [|left; reflexivity].
      apply assoc_Some_In in Hp.
      apply list_elem_of_In, List.in_map_iff. exists (resolvedType input forcedType, pattern).
      split; [reflexivity | apply list_elem_of_In; exact Hp].
    - destruct (inheritedKey _); [discriminate|]. inversion Hc; subst.
      split; [compute_done | right; reflexivity]. }
  destruct Hcase as [[Hs _]|(_ & _ & Hs)].
  - exists key. split; [apply Hkey|]. split; [apply Hkey|].
    eapply scan_typed; [|exact Hs].
    intros m e He. eapply chosen_pattern_type; eassumption.
  - exists (u "generic"). split; [compute_done|]. split; [right; reflexivity|].
    apply (scan_generic_typed input). exact Hs.
Qed.

(** X3: the records of one call all carry the same type, a member of
    the fixed set: the type that was forced or detected, or [generic]
    after the fallback or for an unknown type. *)
Theorem X3_records_share_type (input forcedType : jsstring) (l : list ErrorRecord) :
  parseErrors input forcedType = Returns l ->
  exists t, t ∈ categories /\
            (t = resolvedType input forcedType \/ t = u "generic") /\
            Forall (fun e => e_type e = Some t) l.
Proof. apply parseErrors_typed. Qed.

Lemma X3_records_share_type_witness :
  exists t, t ∈ categories /\
            (t = resolvedType (u "main.go:1:2: oops") (u "auto") \/ t = u "generic") /\
            Forall (fun e => e_type e = Some t)
                   [ {| e_file := Some (u "main.go"); e_line := Some (Fin 1);
                        e_column := Some (Fin 2); e_severity := None; e_code := None;
                        e_message := Some (u "oops"); e_type := Some (u "go");
                        e_function := None; e_raw := Some (u "main.go:1:2: oops");
                        e_position := Some 0 |} ].
Proof.
  apply (X3_records_share_type (u "main.go:1:2: oops") (u "auto")).
  vm_compute. reflexivity.
Defined.

(** X4: there are at most as many records as the input has code
    units; an empty input gives no record. *)
Theorem X4_records_bounded_by_input (input forcedType : jsstring) (l : list ErrorRecord) :
  parseErrors input forcedType = Returns l -> length l <= length input.
Proof.
  intros H. apply parseErrors_cases in H as (key & pattern & Hc & Hcase).
  destruct Hcase as [[Hs _]|(_ & _ & Hs)].
  - apply (execLoop_length pattern input (chosen_pattern_consumes _ _ _ Hc)) in Hs.
    exact Hs.
  - apply (execLoop_length generic input) in Hs; [exact Hs|]. vm_compute. lia.
Qed.

Lemma X4_records_bounded_by_input_witness :
  parseErrors [] (u "eslint") = Returns [] /\ length (@nil ErrorRecord) <= length (@nil N).
Proof.
  split; [vm_compute; reflexivity|].
  apply (X4_records_bounded_by_input [] (u "eslint") []). vm_compute. reflexivity.
Defined.

(** X5: the records are in the order of their matches in the input
    and the matches do not overlap: each record has its [position] at
    or after the end of the one before, and as [raw] the non-empty text
    of the input at that position. *)
Theorem X5_records_in_textual_order (input forcedType : jsstring) (l : list ErrorRecord) :
  parseErrors input forcedType = Returns l -> laidOut input 0 l.
Proof.
  intros H. apply parseErrors_cases in H as (key & pattern & Hc & Hcase).
  destruct Hcase as [[Hs _]|(_ & _ & Hs)].
  - apply (execLoop_laidOut pattern input (chosen_pattern_consumes _ _ _ Hc)) in Hs;
      [exact Hs | reflexivity | simpl; lia].
  - apply (execLoop_laidOut generic input) in Hs;
      [exact Hs | vm_compute; lia | reflexivity | simpl; lia].
Qed.

Lemma X5_records_in_textual_order_witness :
  exists l, parseErrors twoGoErrors (u "go") = Returns l /\
            List.map e_position l = [Some 0; Some 12] /\ laidOut twoGoErrors 0 l.
Proof.
  eexists. split; [vm_compute; reflexivity|]. split; [reflexivity|].
  apply (X5_records_in_textual_order twoGoErrors (u "go")). vm_compute. reflexivity.
Defined.

(** X6: the generic fallback is taken exactly when it is needed: a
    non-empty scan with the chosen pattern is the result as it is, and
    an empty result means that the generic pattern finds nothing. *)
Theorem X6_fallback_only_when_empty (input forcedType key : jsstring)
    (pattern : Pattern) (l : list ErrorRecord) :
  choosePattern (resolvedType input forcedType) = Some (key, pattern) ->
  scan pattern input = Returns l ->
  (l <> [] -> parseErrors input forcedType = Returns l /\ scansOf input forcedType = [key]) /\
  (parseErrors input forcedType = Returns [] -> scan generic input = Returns []).
Proof.
  intros Hc Hs. split.
  - intros Hne. unfold parseErrors, scansOf.
    rewrite (parseErrorsLog_step 0 _ _ _ _ Hc), Hs.
    destruct l as [|e l]; [congruence|]. split; reflexivity.
  - intros H. apply parseErrors_cases in H as (key' & pattern' & Hc' & Hcase).
    rewrite Hc in Hc'. inversion Hc'; subst key' pattern'.
    destruct Hcase as [[Hs' [Hne|Hg]]|(_ & _ & Hs')]; [congruence | | exact Hs'].
    unfold choosePattern, PATTERNS_get in Hc. rewrite Hg in Hc.
    change (assoc (u "generic") PATTERNS) with (Some generic) in Hc.
    inversion Hc; subst. exact Hs'.
Qed.

Lemma X6_fallback_only_when_empty_witness :
  parseErrors (u "x.c:1:2: error: bad") (u "gcc")
  = scan gcc (u "x.c:1:2: error: bad") /\
  scansOf (u "x.c:1:2: error: bad") (u "gcc") = [u "gcc"].
Proof.
  destruct (X6_fallback_only_when_empty (u "x.c:1:2: error: bad") (u "gcc") (u "gcc") gcc
              (match scan gcc (u "x.c:1:2: error: bad") with Returns l => l | _ => [] end))
    as [Hne _]; [reflexivity | vm_compute; reflexivity |].
  destruct Hne as [H1 H2]; [vm_compute; discriminate|].
  split; [rewrite H1; vm_compute; reflexivity | exact H2].
Defined.

(* ===================================================================== *)
(** ** Every match is extracted *)
(* ===================================================================== *)

Lemma capsKept_refl gs x : capsKept gs x x.
Proof. split; auto. Qed.

Lemma capsKept_trans gs x y z : capsKept gs x y -> capsKept gs y z -> capsKept gs x z.
Proof.
  intros [L1 H1] [L2 H2]. split; [congruence|].
  intros n Hn. rewrite H2, H1 by exact Hn. reflexivity.
Qed.

Lemma capsKept_weaken gs gs' x y :
  (forall n, n ∈ gs -> n ∈ gs') -> capsKept gs x y -> capsKept gs' x y.
Proof. intros Hsub [L H]. split; [exact L|]. intros n Hn. apply H. auto. Qed.

Lemma capsKept_setCap gs n v x : n ∈ gs -> capsKept gs x (setCap n v x).
Proof.
  intros Hn. split; cbn [setCap ms_caps]; [apply length_insert|].
  intros k Hk. apply list_lookup_insert_ne. congruence.
Qed.

Lemma capsKept_clearCaps gs x : capsKept gs x (clearCaps gs x).
Proof.
  assert (H : forall gs', (forall n, n ∈ gs' -> n ∈ gs) -> capsKept gs x (clearCaps gs' x)).
  { induction gs' as [|g gs' IH]; intros Hsub; [apply capsKept_refl|].
    cbn [clearCaps foldr]. fold (clearCaps gs' x).
    eapply capsKept_trans; [apply IH; intros n Hn; apply Hsub; right; exact Hn|].
    apply capsKept_setCap. apply Hsub. left. }
  apply H. auto.
Qed.

Lemma surelySet_groupsOf r n : n ∈ surelySet r -> n ∈ groupsOf r.
Proof.
  induction r as [| p | | neg cs | a IHa b IHb | a IHa b IHb | k r1 IH
                 | r1 IH min max greedy | | | ]; cbn [surelySet groupsOf];
    try (intros H; inversion H; fail).
  - rewrite !elem_of_app. intros [H|H]; auto.
  - intros H. apply list_elem_of_In, List.filter_In in H as [H _].
    apply elem_of_app. left. apply IHa, list_elem_of_In, H.
  - rewrite !elem_of_cons. intros [H|H]; auto.
Qed.

Lemma charMatcher_capsKept p : threadsBy (capsKept []) (charMatcher p).
Proof.
  intros x c z. unfold charMatcher.
  destruct (ms_rest x) as [|ch rest]; [discriminate|].
  destruct (p ch); [|discriminate].
  intros Hc. eexists. split; [exact Hc|]. split; reflexivity.
Qed.

Lemma assertion_capsKept p : threadsBy (capsKept []) (assertion p).
Proof.
  intros x c z. unfold assertion. destruct (p x); [|discriminate].
  intros Hc. exists x. split; [exact Hc | apply capsKept_refl].
Qed.

Lemma yields_plain r x y :
  surelySet r = [] -> capsKept (groupsOf r) x y -> yields r x y.
Proof. intros Hs H. split; [exact H|]. rewrite Hs. intros n Hn. inversion Hn. Qed.

(** The captures of a match: a pattern changes its own groups only and
    defines those that it surely sets. *)
Lemma compile_yields fl r :
  NoDup (groupsOf r) -> threadsBy (yields r) (compile fl r).
Proof.
  induction r as [| p | | neg cs | a IHa b IHb | a IHa b IHb | k r1 IH
                 | r1 IH min max greedy | | | ]; intros Hnd; cbn [compile].
  - intros x c z H. exists x. split; [exact H|].
    apply yields_plain; [reflexivity | apply capsKept_refl].
  - intros x c z H. apply charMatcher_capsKept in H as (y & H & Hy).
    exists y. split; [exact H | apply yields_plain; [reflexivity | exact Hy]].
  - intros x c z H. apply charMatcher_capsKept in H as (y & H & Hy).
    exists y. split; [exact H | apply yields_plain; [reflexivity | exact Hy]].
  - intros x c z H. apply charMatcher_capsKept in H as (y & H & Hy).
    exists y. split; [exact H | apply yields_plain; [reflexivity | exact Hy]].
  - cbn [groupsOf] in Hnd. apply NoDup_app in Hnd as (Hna & Hdisj & Hnb).
    intros x c z H. apply (IHa Hna) in H as (y & H & [Ka Sa]).
    apply (IHb Hnb) in H as (y' & H & [Kb Sb]). exists y'. split; [exact H|].
    split.
    + cbn [groupsOf]. eapply capsKept_trans.
      * eapply capsKept_weaken; [|exact Ka]. intros n Hn. apply elem_of_app. auto.
      * eapply capsKept_weaken; [|exact Kb]. intros n Hn. apply elem_of_app. auto.
    + cbn [surelySet]. intros n Hn Hlen. apply elem_of_app in Hn as [Hn|Hn].
      * destruct (Sa n Hn Hlen) as [v Hv]. exists v.
        destruct Kb as [_ Kb]. rewrite Kb; [exact Hv|].
        apply Hdisj, surelySet_groupsOf, Hn.
      * apply Sb; [exact Hn|]. destruct Ka as [La _]. lia.
  - cbn [groupsOf] in Hnd. apply NoDup_app in Hnd as (Hna & Hdisj & Hnb).
    assert (Hfa : forall n, n ∈ surelySet (Alt a b) -> n ∈ surelySet a /\ n ∈ surelySet b).
    { cbn [surelySet]. intros n Hn.
      apply list_elem_of_In, List.filter_In in Hn as [Hn1 Hn2].
      apply bool_decide_eq_true in Hn2. split; [apply list_elem_of_In, Hn1 | exact Hn2]. }
    intros x c z H. destruct (compile fl a x c) eqn:Ha.
    + inversion H; subst. apply (IHa Hna) in Ha as (y & Hc & [Ka Sa]).
      exists y. split; [exact Hc|]. split.
      * cbn [groupsOf]. eapply capsKept_weaken; [|exact Ka].
        intros n Hn. apply elem_of_app. auto.
      * intros n Hn. apply Sa, Hfa, Hn.
    + apply (IHb Hnb) in H as (y & Hc & [Kb Sb]).
      exists y. split; [exact Hc|]. split.
      * cbn [groupsOf]. eapply capsKept_weaken; [|exact Kb].
        intros n Hn. apply elem_of_app. auto.
      * intros n Hn. apply Sb, Hfa, Hn.
  - cbn [groupsOf] in Hnd. apply NoDup_cons in Hnd as [Hk Hnd].
    intros x c z H. apply (IH Hnd) in H as (y & H & [K1 S1]).
    eexists. split; [exact H|]. split.
    + cbn [groupsOf]. eapply capsKept_trans.
      * eapply capsKept_weaken; [|exact K1]. intros n Hn. right. exact Hn.
      * apply capsKept_setCap. left.
    + cbn [surelySet]. intros n Hn Hlen. apply elem_of_cons in Hn as [->|Hn].
      * eexists. cbn [setCap ms_caps]. apply list_lookup_insert_eq.
        destruct K1 as [L1 _]. lia.
      * destruct (S1 n Hn Hlen) as [v Hv]. exists v. cbn [setCap ms_caps].
        rewrite list_lookup_insert_ne; [exact Hv|].
        intros ->. apply Hk, surelySet_groupsOf, Hn.
  - intros x c z H.
    eapply (repeatMatcher_threadsBy (capsKept (groupsOf r1))
              (capsKept_refl _) (capsKept_trans _)) in H.
    + destruct H as (y & H & Hy). exists y. split; [exact H|].
      apply yields_plain; [reflexivity | exact Hy].
    + apply capsKept_clearCaps.
    + intros x' c' z' H'. apply (IH Hnd) in H' as (y & H' & [K _]).
      exists y. split; [exact H' | exact K].
  - intros x c z H. apply assertion_capsKept in H as (y & H & Hy).
    exists y. split; [exact H | apply yields_plain; [reflexivity | exact Hy]].
  - intros x c z H. apply assertion_capsKept in H as (y & H & Hy).
    exists y. split; [exact H | apply yields_plain; [reflexivity | exact Hy]].
  - intros x c z H. apply assertion_capsKept in H as (y & H & Hy).
    exists y. split; [exact H | apply yields_plain; [reflexivity | exact Hy]].
Qed.

Lemma groupsOf_maxGroup r n : n ∈ groupsOf r -> n <= maxGroup r.
Proof.
  induction r as [| p | | neg cs | a IHa b IHb | a IHa b IHb | k r1 IH
                 | r1 IH min max greedy | | | ]; cbn [groupsOf maxGroup];
    try (intros H; inversion H; fail).
  - rewrite elem_of_app. intros [H|H]; [apply IHa in H | apply IHb in H]; lia.
  - rewrite elem_of_app. intros [H|H]; [apply IHa in H | apply IHb in H]; lia.
  - rewrite elem_of_cons. intros [->|H]; [|apply IH in H]; lia.
  - exact IH.
Qed.

Lemma matchAt_defined re c y n :
  NoDup (groupsOf (re_pattern re)) -> n ∈ surelySet (re_pattern re) ->
  matchAt re c = Some y -> defined n y.
Proof.
  intros Hnd Hn H. unfold matchAt in H.
  apply (compile_yields _ _ Hnd) in H as (y' & Hy & [_ Hs]). inversion Hy; subst y'.
  apply Hs; [exact Hn|]. cbn [ms_caps]. rewrite length_replicate.
  apply surelySet_groupsOf, groupsOf_maxGroup in Hn. lia.
Qed.

Lemma searchFrom_matchAt re rest : forall idx prev start y,
  searchFrom re idx prev rest = Some (start, y) -> exists c, matchAt re c = Some y.
Proof.
  induction rest as [|ch rest IH]; intros idx prev start y; cbn [searchFrom].
  - destruct (matchAt re _) eqn:Hm; [|discriminate].
    intros H; inversion H; subst. eauto.
  - destruct (matchAt re _) eqn:Hm; [|apply IH].
    intros H; inversion H; subst. eauto.
Qed.

Lemma lookup_map {A B} (f : A -> B) l : forall i, List.map f l !! i = f <$> l !! i.
Proof.
  induction l as [|x l IH]; intros [|i]; cbn [List.map]; try reflexivity. apply IH.
Qed.

Lemma group_defined input start y n :
  1 <= n -> defined n y -> exists g, group (toMatch input start y) n = Some g.
Proof.
  intros Hn [[a b] Hv]. unfold group, toMatch. cbn [m_groups].
  rewrite lookup_map, lookup_drop.
  replace (1 + (n - 1)) with n by lia. rewrite Hv. cbn. eauto.
Qed.

Lemma search_group re c start y input n :
  NoDup (groupsOf (re_pattern re)) -> n ∈ surelySet (re_pattern re) -> 1 <= n ->
  search re c = Some (start, y) ->
  exists g, group (toMatch input start y) n = Some g.
Proof.
  intros Hnd Hn H1 Hs. apply searchFrom_matchAt in Hs as [c' Hm].
  apply group_defined; [exact H1|]. eapply matchAt_defined; eassumption.
Qed.

(** No match of a pattern is skipped: [extract] does not throw on it. *)
Lemma patterns_extract :
  Forall (fun kp => forall input c start y,
            search (p_regex (snd kp)) c = Some (start, y) ->
            exists e, p_extract (snd kp) (toMatch input start y) = Some e)
         PATTERNS.
Proof.
  repeat constructor; cbn [snd]; intros input c start y Hs;
    unfold typescript, eslint, jest, python, rust, go, gcc, generic in *;
    cbn [p_extract p_regex] in *;
    repeat match goal with
           | Hs : search ?re _ = Some _
             |- context [mbind _ (group (toMatch input start y) ?n)] =>
               let g := fresh "g" in
               let Hg := fresh "Hg" in
               let Hnd := fresh "Hnd" in
               let Hin := fresh "Hin" in
               assert (Hnd : NoDup (groupsOf (re_pattern re))) by compute_done;
               assert (Hin : n ∈ surelySet (re_pattern re)) by compute_done;
               destruct (search_group re c start y input n Hnd Hin ltac:(lia) Hs) as [g Hg];
               rewrite Hg; cbn [mbind option_bind]; clear Hnd Hin
           end;
    eauto.
Qed.

Lemma chosen_pattern_In type key pattern :
  choosePattern type = Some (key, pattern) -> (key, pattern) ∈ PATTERNS.
Proof.
  unfold choosePattern, PATTERNS_get.
  destruct (assoc type PATTERNS) as [p|] eqn:Hp.
  - intros [= <- <-]. apply assoc_Some_In. exact Hp.
  - destruct (inheritedKey type); [discriminate|]. intros [= <- <-]. exact generic_In.
Qed.


(** X7: no match is skipped: on a match of any of the eight patterns
    [extract] returns a record, so that the [catch] of [parseErrors] is
    never entered. *)
Theorem X7_every_match_is_extracted (type key : jsstring) (pattern : Pattern)
    (input : jsstring) (c : cursor) (start : nat) (y : mstate) :
  choosePattern type = Some (key, pattern) ->
  search (p_regex pattern) c = Some (start, y) ->
  exists e, p_extract pattern (toMatch input start y) = Some e.
Proof.
  intros Hc Hs. apply chosen_pattern_In in Hc.
  pose proof patterns_extract as H. rewrite Forall_forall in H.
  exact (H _ Hc input c start y Hs).
Qed.

Lemma X7_every_match_is_extracted_witness :
  exists start y e,
    search (p_regex go) (startOf twoGoErrors) = Some (start, y) /\
    p_extract go (toMatch twoGoErrors start y) = Some e.
Proof.
  destruct (search (p_regex go) (startOf twoGoErrors)) as [[start y]|] eqn:Hs;
    [|vm_compute in Hs; discriminate].
  destruct (X7_every_match_is_extracted (u "go") (u "go") go twoGoErrors
              (startOf twoGoErrors) start y) as [e He]; [reflexivity | exact Hs |].
  exists start, y, e. split; [reflexivity | exact He].
Defined.



Lemma extract_messages :
  Forall (fun kp => forall m e, p_extract (snd kp) m = Some e ->
            exists s, e_message e = Some s /\ (fst kp <> u "jest" -> trim s = s))
         PATTERNS.
Proof.
  repeat constructor; intros m e; cbn [snd fst];
    unfold typescript, eslint, jest, python, rust, go, gcc, generic; cbn [p_extract];
    repeat match goal with
           | |- context [mbind _ (group m ?n)] =>
               destruct (group m n) eqn:?; cbn [mbind option_bind]
           end;
    try discriminate; intros [= <-]; cbn [e_message];
    try (eexists; split; [reflexivity | intros _; apply trim_idem]).
  destruct (group m 2) as [[|c s]|]; cbn [truthy];
    eexists; (split; [reflexivity | intros H; exfalso; apply H; reflexivity]).
Qed.

(** X9: every record has a message, and except for the [jest]
    pattern the message has no white space at either end. *)
Theorem X9_records_have_a_message (input forcedType : jsstring) (l : list ErrorRecord) :
  parseErrors input forcedType = Returns l ->
  Forall (fun e => exists s, e_message e = Some s /\
                             (e_type e <> Some (u "jest") -> trim s = s)) l.
Proof.
  intros H. apply parseErrors_cases in H as (key & pattern & Hc & Hcase).
  assert (Hscan : forall k p, (k, p) ∈ PATTERNS -> scan p input = Returns l ->
            Forall (fun e => exists s, e_message e = Some s /\
                                       (e_type e <> Some (u "jest") -> trim s = s)) l).
  { intros k p Hin. unfold scan. apply execLoop_extracted. intros m e He.
    pose proof extract_messages as Hm. rewrite Forall_forall in Hm.
    destruct (Hm _ Hin m e He) as (s & Hs & Htrim).
    pose proof extract_types as Ht. rewrite Forall_forall in Ht.
    pose proof (Ht _ Hin m e He) as Hty. cbn [fst snd] in *.
    exists s. cbn [withRaw e_message e_type]. split; [exact Hs|].
    intros Hne. apply Htrim. intros ->. apply Hne. exact Hty. }
  destruct Hcase as [[Hs _]|(_ & _ & Hs)].
  - eapply Hscan; [eapply chosen_pattern_In; exact Hc | exact Hs].
  - apply (Hscan (u "generic") generic); [exact generic_In | exact Hs].
Qed.

Lemma X9_records_have_a_message_witness :
  exists l, parseErrors (u "a.go:1:2:   spaced out  ") (u "go") = Returns l /\
            List.map e_message l = [Some (u "spaced out")] /\
            Forall (fun e => exists s, e_message e = Some s /\
                                       (e_type e <> Some (u "jest") -> trim s = s)) l.
Proof.
  eexists. split; [vm_compute; reflexivity|]. split; [reflexivity|].
  apply (X9_records_have_a_message (u "a.go:1:2:   spaced out  ") (u "go")).
  vm_compute. reflexivity.
Defined.

(* ===================================================================== *)
(** ** Further properties of the signature *)
(* ===================================================================== *)

Lemma dropWhile_head {A} (p : A -> bool) l c :
  head (dropWhile p l) = Some c -> p c = false.
Proof.
  induction l as [|x l IH]; simpl; [discriminate|].
  destruct (p x) eqn:E; [exact IH|]. simpl. intros [= <-]. exact E.
Qed.

Lemma dropWhile_stop {A} (p : A -> bool) l x r :
  p x = false -> exists t, dropWhile p (l ++ x :: r) = t ++ x :: r.
Proof.
  intros Hx. induction l as [|y l IH]; simpl.
  - rewrite Hx. exists []. reflexivity.
  - destruct (p y); [exact IH | exists (y :: l); reflexivity].
Qed.

Lemma trimEnd_stop a x b :
  isWhiteSpace x = false -> exists t, trimEnd (a ++ x :: b) = a ++ x :: t.
Proof.
  intros Hx. unfold trimEnd.
  rewrite rev_app_distr. cbn [rev]. rewrite <- app_assoc. cbn [app].
  destruct (dropWhile_stop isWhiteSpace (rev b) x (rev a) Hx) as [t ->].
  exists (rev t). rewrite rev_app_distr. cbn [rev].
  rewrite rev_involutive, <- app_assoc. reflexivity.
Qed.

Lemma last_rev_head {A} (l : list A) : last (rev l) = head l.
Proof. destruct l as [|x l]; [reflexivity|]. cbn [rev head]. apply last_snoc. Qed.

(** X10: a signature has no white space at either end. *)
Theorem X10_signature_is_trimmed (error : ErrorRecord) (c : N) :
  head (getErrorSignature error) = Some c \/ last (getErrorSignature error) = Some c ->
  isWhiteSpace c = false.
Proof.
  unfold getErrorSignature. cbv zeta.
  match goal with |- context [trim ?s] => generalize s end.
  intros s [H|H].
  - rewrite <- trimStart_trim in H. exact (dropWhile_head _ _ _ H).
  - unfold trim, trimEnd in H. rewrite last_rev_head in H. exact (dropWhile_head _ _ _ H).
Qed.

Lemma X10_signature_is_trimmed_witness :
  getErrorSignature (msg (u "  disk full  ") None) = u "disk full" /\
  isWhiteSpace (chr "d") = false.
Proof.
  split; [vm_compute; reflexivity|].
  apply (X10_signature_is_trimmed (msg (u "  disk full  ") None) (chr "d")).
  left. vm_compute. reflexivity.
Defined.

(** X11: the signature of a record with a code starts with the code in
    square brackets, whatever the message and the code are. *)
Theorem X11_signature_starts_with_code (error : ErrorRecord) (code : jsstring) :
  e_code error = Some code -> code <> [] ->
  exists rest, getErrorSignature error = u "[" ++ code ++ u "]" ++ rest.
Proof.
  intros Hc Hne. unfold getErrorSignature. cbv zeta. rewrite Hc.
  destruct code as [|c code]; [congruence|].
  match goal with |- context [u "] " ++ ?s] => generalize s end. intros s.
  unfold trim, trimStart.
  change (dropWhile isWhiteSpace (u "[" ++ (c :: code) ++ u "] " ++ s))
    with ((u "[" ++ (c :: code)) ++ chr "]" :: (chr " " :: s)).
  destruct (trimEnd_stop (u "[" ++ (c :: code)) (chr "]") (chr " " :: s)) as [t Ht];
    [reflexivity|].
  rewrite Ht. exists t. rewrite <- app_assoc. reflexivity.
Qed.

Lemma X11_signature_starts_with_code_witness :
  exists rest,
    getErrorSignature
      (msg (u "Cannot find name 'x'.") (Some (u "TS2304")))
    = u "[" ++ u "TS2304" ++ u "]" ++ rest.
Proof.
  apply (X11_signature_starts_with_code _ (u "TS2304")); [reflexivity | discriminate].
Defined.

(* ===================================================================== *)
(** ** Further properties of the groups *)
(* ===================================================================== *)

Lemma members_snoc s errors e :
  members s (errors ++ [e])
  = members s errors ++ (if jsstring_eqb (getErrorSignature e) s then [e] else []).
Proof.
  unfold members. rewrite List.filter_app. cbn [List.filter].
  destruct (jsstring_eqb (getErrorSignature e) s); reflexivity.
Qed.

Lemma members_nil s errors : s ∉ signatures errors -> members s errors = [].
Proof.
  unfold members, signatures. induction errors as [|e errors IH]; [reflexivity|].
  cbn [List.map List.filter]. intros H.
  rewrite not_elem_of_cons in H. destruct H as [Hne H].
  destruct (jsstring_eqb (getErrorSignature e) s) eqn:E.
  - apply jsstring_eqb_eq in E. congruence.
  - auto.
Qed.

Lemma members_signature s errors :
  Forall (fun e => getErrorSignature e = s) (members s errors).
Proof.
  unfold members. apply Forall_forall. intros e He.
  apply list_elem_of_In, List.filter_In in He as [_ He].
  apply jsstring_eqb_eq. exact He.
Qed.

Lemma filesOf_app a b : filesOf (a ++ b) = filesOf a ++ filesOf b.
Proof.
  induction a as [|e a IH]; [reflexivity|]. cbn [app filesOf]. rewrite IH.
  destruct (e_file e) as [[|c f]|]; reflexivity.
Qed.

Lemma groupMap_groupFor errors :
  Forall (fun kg => groupFor errors (fst kg) (snd kg)) (groupMap errors).
Proof.
  induction errors as [|error errors IH] using rev_ind; [constructor|].
  assert (Hnd : NoDup (List.map fst (groupMap errors)))
    by (rewrite groupMap_keys; apply newSet_NoDup).
  assert (Hother : forall k' v, k' <> getErrorSignature error ->
            groupFor errors k' v -> groupFor (errors ++ [error]) k' v).
  { intros k' v Hne. unfold groupFor. rewrite members_snoc.
    replace (jsstring_eqb (getErrorSignature error) k') with false
      by (symmetry; apply jsstring_eqb_neq; congruence).
    rewrite app_nil_r. auto. }
  rewrite groupMap_snoc. unfold addError.
  destruct (assoc (getErrorSignature error) (groupMap errors)) eqn:Ha.
  - apply (alter_entries (groupFor errors) (groupFor (errors ++ [error])));
      [exact Hnd | | exact Hother | exact IH].
    intros v (Hs & He & Hc & Hf & Hr & Hcode & Hty & Hsev).
    unfold groupFor. cbn [g_signature g_errors g_count g_files g_representative
                          g_code g_type g_severity].
    rewrite members_snoc.
    replace (jsstring_eqb (getErrorSignature error) (getErrorSignature error)) with true
      by (symmetry; apply jsstring_eqb_eq; reflexivity).
    rewrite He. repeat split; auto.
    + rewrite length_app. cbn [length]. rewrite Hc, He. lia.
    + rewrite filesOf_app. cbn [filesOf]. rewrite <- He, Hf.
      destruct (e_file error) as [[|c f]|]; rewrite ?app_nil_r; try reflexivity.
      rewrite newSet_snoc. unfold setAdd.
      destruct (setHas (newSet (filesOf (g_errors v))) (c :: f)); reflexivity.
    + rewrite <- He. destruct (g_errors v); [discriminate | exact Hr].
  - apply Forall_app. split.
    + apply (Forall_other_keys (groupFor errors) (groupFor (errors ++ [error]))
               (getErrorSignature error)); [exact Hother | | exact IH].
      apply assoc_None_iff. exact Ha.
    + repeat constructor; cbn [fst snd g_signature g_errors g_count g_files
                               g_representative g_code g_type g_severity].
      rewrite members_snoc, members_nil.
      * replace (jsstring_eqb (getErrorSignature error) (getErrorSignature error))
          with true by (symmetry; apply jsstring_eqb_eq; reflexivity).
        reflexivity.
      * rewrite <- (newSet_elem (signatures errors)), <- groupMap_keys.
        apply assoc_None_iff. exact Ha.
Qed.

Lemma groupMap_values errors :
  Forall (fun g => groupFor errors (g_signature g) g) (List.map snd (groupMap errors)).
Proof.
  apply Forall_forall. intros g Hg.
  apply list_elem_of_In, List.in_map_iff in Hg as ([k g'] & <- & Hin).
  pose proof (groupMap_groupFor errors) as H. rewrite Forall_forall in H.
  apply list_elem_of_In, H in Hin. cbn [fst snd] in *.
  destruct Hin as (Hs & Hrest). unfold groupFor. rewrite Hs. split; [reflexivity|].
  exact Hrest.
Qed.

Lemma groupErrors_subseteq errors opts g :
  g ∈ groupErrors errors opts -> g ∈ List.map snd (groupMap errors).
Proof.
  unfold groupErrors. intros H. apply (sort_elem byCountDesc).
  destruct (topLimit opts); [|exact H].
  unfold sliceTo in H. destruct (default NaN (top opts)); try exact H.
  exact (subseteq_take _ _ _ H).
Qed.

Lemma groupErrors_groupFor errors opts :
  Forall (fun g => groupFor errors (g_signature g) g) (groupErrors errors opts).
Proof.
  apply Forall_forall. intros g Hg. apply groupErrors_subseteq in Hg.
  pose proof (groupMap_values errors) as H. rewrite Forall_forall in H. auto.
Qed.

(** X12: the records of a group are the records of the input that have
    the signature of the group, all of them and in input order, also
    when [top] limits the groups; [count] is their number and is at
    least one. *)
Theorem X12_group_holds_its_records (errors : list ErrorRecord) (opts : GroupOpts) :
  Forall (fun g => g_errors g = members (g_signature g) errors /\
                   g_count g = length (g_errors g) /\ 1 <= g_count g)
         (groupErrors errors opts).
Proof.
  eapply Forall_impl; [apply groupErrors_groupFor|].
  intros g (_ & He & Hc & _ & Hr & _). cbv beta. split; [exact He|]. split; [exact Hc|].
  rewrite Hc. destruct (g_errors g); [discriminate | simpl; lia].
Qed.

(** X13: the representative of a group is its first record, the first
    record of the input with that signature, and the [code], [type]
    and [severity] of the group are those of the representative. *)
Theorem X13_representative_is_first (errors : list ErrorRecord) (opts : GroupOpts) :
  Forall (fun g => head (members (g_signature g) errors) = Some (g_representative g) /\
                   getErrorSignature (g_representative g) = g_signature g /\
                   g_code g = e_code (g_representative g) /\
                   g_type g = e_type (g_representative g) /\
                   g_severity g = e_severity (g_representative g))
         (groupErrors errors opts).
Proof.
  eapply Forall_impl; [apply groupErrors_groupFor|].
  intros g (_ & He & _ & _ & Hr & Hcode & Hty & Hsev). cbv beta.
  rewrite <- He. repeat split; auto.
  pose proof (members_signature (g_signature g) errors) as Hm. rewrite <- He in Hm.
  destruct (g_errors g) as [|e l]; [discriminate|].
  inversion Hr; subst. inversion Hm; subst. assumption.
Qed.

(** X14: the files of a group are the distinct non-empty file names of
    its records, in the order in which they first occur. *)
Theorem X14_group_files (errors : list ErrorRecord) (opts : GroupOpts) :
  Forall (fun g => g_files g = newSet (filesOf (g_errors g)) /\ NoDup (g_files g) /\
                   forall f, f ∈ g_files g <->
                             f <> [] /\ exists e, e ∈ g_errors g /\ e_file e = Some f)
         (groupErrors errors opts).
Proof.
  eapply Forall_impl; [apply groupErrors_groupFor|].
  intros g (_ & _ & _ & Hf & _). cbv beta. split; [exact Hf|].
  rewrite Hf. split; [apply newSet_NoDup|]. intros f. rewrite newSet_elem.
  generalize (g_errors g). clear. intros l.
  induction l as [|e l IH]; cbn [filesOf].
  - split; [intros H; inversion H|]. intros (_ & e & He & _). inversion He.
  - assert (Hskip : e_file e <> Some f \/ f = [] ->
              (f ∈ filesOf l <-> f <> [] /\ exists e0, e0 ∈ e :: l /\ e_file e0 = Some f)).
    { intros Hn. rewrite IH. split.
      - intros (Hne & e0 & He0 & Hfile). split; [exact Hne|]. exists e0. split; [right|]; auto.
      - intros (Hne & e0 & He0 & Hfile). split; [exact Hne|].
        apply elem_of_cons in He0 as [->|He0]; [|exists e0; auto].
        destruct Hn; congruence. }
    destruct (e_file e) as [[|c f0]|] eqn:Hfile.
    + apply Hskip. destruct f; [right; reflexivity | left; discriminate].
    + rewrite elem_of_cons. destruct (decide (f = c :: f0)) as [->|Hne].
      * split; [|auto]. intros _. split; [discriminate|]. exists e. split; [left | exact Hfile].
      * rewrite Hskip by (left; congruence). tauto.
    + apply Hskip. left. discriminate.
Qed.

Lemma insertSorted_perm {A} (cmp : A -> A -> Z) x l : insertSorted cmp x l ≡ₚ x :: l.
Proof.
  induction l as [|y l IH]; simpl; [reflexivity|].
  destruct (cmp x y <=? 0)%Z; [reflexivity|].
  rewrite IH. apply perm_swap.
Qed.

Lemma sort_perm {A} (cmp : A -> A -> Z) l : sort cmp l ≡ₚ l.
Proof.
  induction l as [|x l IH]; [reflexivity|].
  cbn [sort foldr]. fold (sort cmp l). rewrite insertSorted_perm, IH. reflexivity.
Qed.

Lemma NoDup_take_of {A} n (l : list A) : NoDup l -> NoDup (take n l).
Proof.
  intros H. rewrite <- (take_drop n l) in H. apply NoDup_app in H as [H _]. exact H.
Qed.

Lemma NoDup_map_eq {A B} (f : A -> B) l x y :
  NoDup (List.map f l) -> x ∈ l -> y ∈ l -> f x = f y -> x = y.
Proof.
  induction l as [|z l IH]; cbn [List.map]; intros Hnd Hx Hy Hf; [inversion Hx|].
  apply NoDup_cons in Hnd as [Hz Hnd].
  assert (Hin : forall w, w ∈ l -> f w ∈ List.map f l).
  { intros w Hw. apply list_elem_of_In, List.in_map, list_elem_of_In, Hw. }
  apply elem_of_cons in Hx as [->|Hx]; apply elem_of_cons in Hy as [->|Hy]; auto.
  - exfalso. apply Hz. rewrite Hf. auto.
  - exfalso. apply Hz. rewrite <- Hf. auto.
Qed.

Lemma groupErrors_signatures_NoDup errors opts :
  NoDup (List.map g_signature (groupErrors errors opts)).
Proof.
  assert (H : NoDup (List.map g_signature (sort byCountDesc (List.map snd (groupMap errors))))).
  { rewrite (Permutation_map g_signature (sort_perm byCountDesc _)).
    rewrite groupMap_signatures. apply newSet_NoDup. }
  unfold groupErrors. destruct (topLimit opts); [|exact H].
  unfold sliceTo. destruct (default NaN (top opts)); try exact H.
  rewrite <- firstn_map. apply NoDup_take_of, H.
Qed.

(** X15: the groups are a partition of the records by signature: no
    two groups have the same signature, and without a limit every
    record of the input is in one group and in no other. *)
Theorem X15_groups_partition_the_records (errors : list ErrorRecord) (opts : GroupOpts) :
  NoDup (List.map g_signature (groupErrors errors opts)) /\
  forall e, e ∈ errors ->
    exists g, g ∈ groupErrors errors noOpts /\ e ∈ g_errors g /\
              forall g', g' ∈ groupErrors errors noOpts -> e ∈ g_errors g' -> g' = g.
Proof.
  split; [apply groupErrors_signatures_NoDup|]. intros e He.
  pose proof (groupErrors_groupFor errors noOpts) as Hall. rewrite Forall_forall in Hall.
  assert (Hsig : getErrorSignature e ∈ List.map g_signature (groupErrors errors noOpts)).
  { unfold groupErrors. cbn [topLimit noOpts top].
    rewrite (Permutation_map g_signature (sort_perm byCountDesc _)).
    rewrite groupMap_signatures. apply newSet_elem.
    apply list_elem_of_In, List.in_map, list_elem_of_In, He. }
  apply list_elem_of_In, List.in_map_iff in Hsig as (g & Hg & Hin).
  apply list_elem_of_In in Hin.
  assert (Hmem : forall g', g' ∈ groupErrors errors noOpts -> e ∈ g_errors g' ->
                            g_signature g' = getErrorSignature e).
  { intros g' Hg' He'. destruct (Hall g' Hg') as (_ & Herr & _).
    pose proof (members_signature (g_signature g') errors) as Hm.
    rewrite <- Herr, Forall_forall in Hm. symmetry. auto. }
  exists g. split; [exact Hin|]. split.
  - destruct (Hall g Hin) as (_ & Herr & _). rewrite Herr, Hg.
    unfold members. apply list_elem_of_In, List.filter_In.
    split; [apply list_elem_of_In, He | apply jsstring_eqb_eq; reflexivity].
  - intros g' Hg' He'.
    apply (NoDup_map_eq g_signature (groupErrors errors noOpts));
      [apply groupErrors_signatures_NoDup | exact Hg' | exact Hin |].
    rewrite Hg. auto.
Qed.

Lemma X15_groups_partition_the_records_witness :
  exists g, g ∈ groupErrors threeErrors noOpts /\
            msg (u "Unexpected token") None ∈ g_errors g.
Proof.
  destruct (X15_groups_partition_the_records threeErrors noOpts) as [_ H].
  destruct (H (msg (u "Unexpected token") None)) as (g & Hg & He & _).
  - right. left.
  - exists g. split; [exact Hg | exact He].
Defined.

Lemma sorted_take_drop {A} (R : A -> A -> Prop) l : forall n a b,
  StronglySorted R l -> a ∈ take n l -> b ∈ drop n l -> R a b.
Proof.
  induction l as [|x l IH]; intros n a b Hs Ha Hb.
  - rewrite take_nil in Ha. inversion Ha.
  - destruct n as [|n]; [inversion Ha|]. cbn [take drop] in Ha, Hb.
    inversion Hs as [|? ? Hl Hx]; subst.
    apply elem_of_cons in Ha as [->|Ha].
    + rewrite Forall_forall in Hx. apply Hx. exact (subseteq_drop _ _ _ Hb).
    + eapply IH; eauto.
Qed.

(** X16: a positive [top] keeps the first [top] groups of the
    unlimited result, and no group that it drops has more records than
    a group that it keeps. *)
Theorem X16_top_keeps_the_largest (errors : list ErrorRecord) (n : Z) :
  (0 < n)%Z ->
  groupErrors errors {| top := Some (Fin n) |}
  = take (Z.to_nat n) (groupErrors errors noOpts) /\
  forall a b, a ∈ take (Z.to_nat n) (groupErrors errors noOpts) ->
              b ∈ drop (Z.to_nat n) (groupErrors errors noOpts) ->
              g_count b <= g_count a.
Proof.
  intros Hn. split.
  - unfold groupErrors, topLimit. cbn [top noOpts default sliceTo].
    apply Z.ltb_lt in Hn. rewrite Hn. reflexivity.
  - intros a b Ha Hb.
    exact (sorted_take_drop countGe _ _ a b (groupErrors_sorted errors noOpts) Ha Hb).
Qed.

Lemma X16_top_keeps_the_largest_witness :
  List.map g_count (groupErrors threeErrors {| top := Some (Fin 1) |}) = [2] /\
  forall a b, a ∈ take 1 (groupErrors threeErrors noOpts) ->
              b ∈ drop 1 (groupErrors threeErrors noOpts) ->
              g_count b <= g_count a.
Proof.
  destruct (X16_top_keeps_the_largest threeErrors 1) as [H1 H2]; [lia|].
  split; [rewrite H1; vm_compute; reflexivity | exact H2].
Defined.

(* ===================================================================== *)
(** ** Further properties of the similarity *)
(* ===================================================================== *)

Lemma similarity_cases a b :
  similarity a b = 1%Q \/ similarity a b = 0%Q \/
  (a <> b /\ a <> [] /\ b <> [] /\ ~ lengthsFarApart a b /\
   similarity a b = jaccard (tokenSet a) (tokenSet b)).
Proof.
  unfold similarity, jsstring_eqb.
  destruct (decide (a = b)) as [->|Hab].
  - rewrite bool_decide_eq_true_2 by reflexivity. auto.
  - rewrite bool_decide_eq_false_2 by exact Hab.
    destruct a as [|ca a]; [auto|]. destruct b as [|cb b]; [auto|].
    cbn [truthy negb orb]. rewrite farApart_test.
    destruct (decide (lengthsFarApart (ca :: a) (cb :: b))) as [Hfar|Hnear].
    + rewrite bool_decide_eq_true_2 by exact Hfar. auto.
    + rewrite bool_decide_eq_false_2 by exact Hnear.
      cbv zeta. rewrite union_size, common_size.
      right. right. repeat split; auto; discriminate.
Qed.

Lemma similarity_range a b : (0 <= similarity a b <= 1)%Q.
Proof.
  destruct (similarity_cases a b) as [-> | [-> | (_ & _ & _ & _ & ->)]];
    [split; unfold Qle; simpl; lia | split; unfold Qle; simpl; lia | apply jaccard_range].
Qed.

Lemma jsstring_eqb_sym a b : jsstring_eqb a b = jsstring_eqb b a.
Proof. unfold jsstring_eqb. apply bool_decide_ext. split; congruence. Qed.

Lemma union_same (B : gset jsstring) : B ∪ B = B.
Proof. apply leibniz_equiv. intros x. rewrite elem_of_union. tauto. Qed.

Lemma intersection_same (B : gset jsstring) : B ∩ B = B.
Proof. apply leibniz_equiv. intros x. rewrite elem_of_intersection. tauto. Qed.

Lemma union_swap (A B : gset jsstring) : A ∪ B = B ∪ A.
Proof. apply leibniz_equiv. intros x. rewrite !elem_of_union. tauto. Qed.

Lemma intersection_swap (A B : gset jsstring) : A ∩ B = B ∩ A.
Proof. apply leibniz_equiv. intros x. rewrite !elem_of_intersection. tauto. Qed.

Lemma jaccard_one (A B : gset jsstring) : (jaccard A B == 1)%Q <-> A = B /\ A <> ∅.
Proof.
  unfold jaccard. destruct (size (A ∪ B) =? 0) eqn:E.
  - apply Nat.eqb_eq in E. split; [intros H; inversion H|].
    intros [-> Hne]. exfalso. apply Hne. apply leibniz_equiv, size_empty_iff.
    rewrite union_same in E. exact E.
  - apply Nat.eqb_neq in E. unfold Qeq. cbn [Qnum Qden].
    rewrite <- (positive_nat_Z (Pos.of_nat (size (A ∪ B)))).
    rewrite Nat2Pos.id by exact E. split.
    + intros H. assert (Hsz : size (A ∪ B) <= size (A ∩ B)) by lia.
      assert (Hsub : A ∩ B ⊆ A ∪ B).
      { intros x Hx. apply elem_of_intersection in Hx as [Hx _].
        apply elem_of_union. left. exact Hx. }
      pose proof (set_subseteq_size_equiv _ _ Hsub Hsz) as Heq.
      assert (HAB : A = B).
      { apply leibniz_equiv. intros x. split; intros Hx.
        - assert (Hu : x ∈ A ∪ B) by (apply elem_of_union; left; exact Hx).
          apply Heq, elem_of_intersection in Hu as [_ Hu]. exact Hu.
        - assert (Hu : x ∈ A ∪ B) by (apply elem_of_union; right; exact Hx).
          apply Heq, elem_of_intersection in Hu as [Hu _]. exact Hu. }
      split; [exact HAB|]. intros HA. subst A B. apply E.
      rewrite union_same. apply size_empty.
    + intros [-> _]. rewrite union_same, intersection_same. lia.
Qed.

(** X17: [similarity] does not depend on the order of its arguments. *)
Theorem X17_similarity_symmetric (a b : jsstring) : similarity a b = similarity b a.
Proof.
  unfold similarity. rewrite (jsstring_eqb_sym b a).
  destruct (jsstring_eqb a b); [reflexivity|].
  rewrite (orb_comm (negb (truthy (Some b)))).
  destruct (negb (truthy (Some a)) || negb (truthy (Some b))); [reflexivity|].
  rewrite (Z.max_comm (Z.of_nat (length b))).
  replace (Z.abs (Z.of_nat (length b) - Z.of_nat (length a)))
    with (Z.abs (Z.of_nat (length a) - Z.of_nat (length b))) by lia.
  destruct (Z.max _ _ <? _)%Z; [reflexivity|]. cbv zeta.
  rewrite !union_size, !common_size.
  rewrite (intersection_swap (tokenSet b)), (union_swap (tokenSet b)). reflexivity.
Qed.

(** X18: two different strings have similarity one exactly when
    neither is empty, their lengths are not far apart and they have the
    same, non-empty, set of tokens: case, order, repetition and
    punctuation do not count. *)
Theorem X18_similarity_one (a b : jsstring) :
  a <> b ->
  ((similarity a b == 1)%Q <->
   a <> [] /\ b <> [] /\ ~ lengthsFarApart a b /\
   tokenSet a = tokenSet b /\ tokenSet a <> ∅).
Proof.
  intros Hab. unfold similarity, jsstring_eqb.
  rewrite bool_decide_eq_false_2 by exact Hab.
  destruct a as [|ca a].
  { split; [intros H; inversion H | intros (H & _); congruence]. }
  destruct b as [|cb b].
  { split; [intros H; inversion H | intros (_ & H & _); congruence]. }
  cbn [truthy negb orb]. rewrite farApart_test.
  destruct (decide (lengthsFarApart (ca :: a) (cb :: b))) as [Hfar|Hnear].
  - rewrite bool_decide_eq_true_2 by exact Hfar.
    split; [intros H; inversion H | intros (_ & _ & H & _); contradiction].
  - rewrite bool_decide_eq_false_2 by exact Hnear.
    cbv zeta. rewrite union_size, common_size.
    fold (jaccard (tokenSet (ca :: a)) (tokenSet (cb :: b))). rewrite jaccard_one.
    split; [intros [H1 H2]; repeat split; auto; discriminate | intros (_ & _ & _ & H); exact H].
Qed.

Lemma X18_similarity_one_witness :
  (similarity (u "Disk full: sda") (u "sda disk, FULL!") == 1)%Q.
Proof.
  apply (X18_similarity_one (u "Disk full: sda") (u "sda disk, FULL!")); [discriminate|].
  split; [discriminate|]. split; [discriminate|].
  split; [apply (bool_decide_eq_false_1 (lengthsFarApart _ _));
          rewrite <- farApart_test; reflexivity|].
  split; [vm_compute; reflexivity | vm_compute; discriminate].
Defined.

(* ===================================================================== *)
(** ** Further properties of the merging *)
(* ===================================================================== *)

Lemma usedRecords_ext used1 used2 l : forall off,
  (forall k, off <= k -> k ∈ used1 <-> k ∈ used2) ->
  usedRecords used1 off l = usedRecords used2 off l.
Proof.
  induction l as [|g l IH]; intros off H; simpl; [reflexivity|].
  rewrite (IH (S off)) by (intros k Hk; apply H; lia).
  f_equal. rewrite (bool_decide_ext _ _ (H off (Nat.le_refl off))). reflexivity.
Qed.

Lemma usedRecords_insert used j g l : forall off,
  j ∉ used -> off <= j -> l !! (j - off) = Some g ->
  usedRecords ({[ j ]} ∪ used) off l ≡ₚ usedRecords used off l ++ g_errors g.
Proof.
  induction l as [|g0 l IH]; intros off Hj Hoff Hl; [discriminate|]. simpl.
  destruct (decide (j = off)) as [->|Hne].
  - rewrite Nat.sub_diag in Hl. simpl in Hl. inversion Hl; subst g0.
    rewrite bool_decide_eq_true_2
      by (apply elem_of_union; left; apply elem_of_singleton; reflexivity).
    rewrite bool_decide_eq_false_2 by exact Hj.
    rewrite (usedRecords_ext ({[ off ]} ∪ used) used l (S off)).
    + simpl. apply Permutation_app_comm.
    + intros k Hk. split; [|intros H; apply elem_of_union; right; exact H].
      intros H. apply elem_of_union in H as [H|H]; [|exact H].
      apply elem_of_singleton in H. lia.
  - replace (j - off) with (S (j - S off)) in Hl by lia. simpl in Hl.
    rewrite (IH (S off)) by (auto; lia).
    assert (off ∈ {[ j ]} ∪ used <-> off ∈ used) as Hiff.
    { rewrite elem_of_union, elem_of_singleton. intuition lia. }
    rewrite (bool_decide_ext _ _ Hiff), app_assoc. reflexivity.
Qed.

Lemma usedRecords_all used l : forall off,
  (forall k, off <= k < off + length l -> k ∈ used) ->
  usedRecords used off l = recordsOf l.
Proof.
  induction l as [|g l IH]; intros off H; simpl; [reflexivity|].
  rewrite bool_decide_eq_true_2 by (apply H; simpl; lia).
  rewrite (IH (S off)) by (intros k Hk; apply H; simpl; lia).
  reflexivity.
Qed.

Lemma usedRecords_none l : forall off, usedRecords ∅ off l = [].
Proof.
  induction l as [|g l IH]; intros off; simpl; [reflexivity|].
  rewrite bool_decide_eq_false_2 by apply not_elem_of_empty. apply IH.
Qed.

Lemma recordsOf_app a b : recordsOf (a ++ b) = recordsOf a ++ recordsOf b.
Proof. apply flat_map_app. Qed.

(** The inner loop: the records that the merged group gains are those
    of the groups that [used] gains. *)
Lemma mergeStep_records groups threshold js : forall g0 used0 g used',
  foldl (mergeStep groups threshold) (g0, used0) js = (g, used') ->
  g_errors g ++ usedRecords used0 0 groups ≡ₚ g_errors g0 ++ usedRecords used' 0 groups.
Proof.
  induction js as [|j js IH]; intros g0 used0 g used' H.
  - inversion H; subst. reflexivity.
  - change (foldl (mergeStep groups threshold)
              (mergeStep groups threshold (g0, used0) j) js = (g, used')) in H.
    destruct (mergeStep_cases groups threshold g0 used0 j)
      as [Hst|(other & Hj & Hother & Hst)]; rewrite Hst in H; apply IH in H as Hc.
    + exact Hc.
    + rewrite (usedRecords_insert used0 j other groups 0) in Hc
        by first [exact Hj | lia | rewrite Nat.sub_0_r; exact Hother].
      cbn [absorb g_errors] in Hc.
      apply (Permutation_app_inv_r (g_errors other)).
      rewrite <- !app_assoc.
      rewrite Hc, <- !app_assoc.
      apply Permutation_app_head, Permutation_app_comm.
Qed.

(** The outer loop: the merged groups hold the records of the used ones. *)
Lemma mergeFrom_records groups threshold n : forall i merged used merged' used',
  i + n <= length groups ->
  recordsOf merged ≡ₚ usedRecords used 0 groups ->
  (forall k, k < i -> k ∈ used) ->
  foldl (mergeFrom groups threshold) (merged, used) (seq i n) = (merged', used') ->
  recordsOf merged' ≡ₚ usedRecords used' 0 groups /\
  (forall k, k < i + n -> k ∈ used').
Proof.
  induction n as [|n IH]; intros i merged used merged' used' Hlen Hc Hall H.
  - inversion H; subst. rewrite Nat.add_0_r. auto.
  - change (foldl (mergeFrom groups threshold)
              (mergeFrom groups threshold (merged, used) i) (seq (S i) n)
            = (merged', used')) in H.
    unfold mergeFrom at 2 in H.
    replace (i + S n) with (S i + n) by lia.
    case_bool_decide as Hi.
    + eapply IH; [lia | exact Hc | | exact H].
      intros k Hk. destruct (decide (k = i)) as [->|]; [exact Hi | apply Hall; lia].
    + destruct (groups !! i) as [gi|] eqn:Hgi.
      2:{ apply lookup_ge_None in Hgi. lia. }
      destruct (foldl (mergeStep groups threshold) (gi, used)
                 (seq (S i) (length groups - S i))) as [group used1] eqn:Hinner.
      pose proof (mergeStep_records _ _ _ _ _ _ _ Hinner) as Hc1.
      apply mergeStep_fold in Hinner as (_ & Hk1 & Hs1).
      assert (Hnot : i ∉ used1).
      { intros Hin. apply Hk1 in Hin as [?|Hin]; [contradiction|].
        apply elem_of_seq in Hin. lia. }
      eapply IH; [lia | | | exact H].
      * rewrite recordsOf_app.
        rewrite (usedRecords_insert used1 i gi groups 0)
          by first [exact Hnot | lia | rewrite Nat.sub_0_r; exact Hgi].
        unfold recordsOf at 2. cbn [flat_map]. rewrite app_nil_r, Hc.
        rewrite (Permutation_app_comm (usedRecords used 0 groups)), Hc1.
        apply Permutation_app_comm.
      * intros k Hk. apply elem_of_union.
        destruct (decide (k = i)) as [->|]; [left; apply elem_of_singleton; reflexivity|].
        right. apply Hs1, Hall. lia.
Qed.

(** X19: merging neither loses nor duplicates a record: the records
    of the merged groups are those of the given groups, in another
    order. *)
Theorem X19_merge_keeps_the_records (groups : list Group) (threshold : Q) :
  recordsOf (mergeSimilarGroups groups threshold) ≡ₚ recordsOf groups.
Proof.
  unfold mergeSimilarGroups, recordsOf.
  rewrite (Permutation_flat_map g_errors (sort_perm byCountDesc _)).
  fold (recordsOf groups).
  destruct (foldl (mergeFrom groups threshold) ([], ∅) (seq 0 (length groups)))
    as [merged used] eqn:H.
  apply mergeFrom_records in H as (Hc & Hall); [| simpl; lia | | intros; lia].
  - cbn [fst]. fold (recordsOf merged). rewrite Hc.
    rewrite (usedRecords_all used groups 0); [reflexivity|].
    intros k Hk. apply Hall. simpl in *. lia.
  - rewrite usedRecords_none. reflexivity.
Qed.

(** *** What merging keeps true of the groups *)

Section Closed.
Variable P : Group -> Prop.
Hypothesis P_absorb : forall g o, P g -> P o -> P (absorb g o).
Variable groups : list Group.
Variable threshold : Q.
Hypothesis P_groups : Forall P groups.

Lemma mergeStep_closed js : forall g0 used0 g used',
  P g0 -> foldl (mergeStep groups threshold) (g0, used0) js = (g, used') -> P g.
Proof using Type*.
  induction js as [|j js IH]; intros g0 used0 g used' H0 H.
  - inversion H; subst. exact H0.
  - change (foldl (mergeStep groups threshold)
              (mergeStep groups threshold (g0, used0) j) js = (g, used')) in H.
    destruct (mergeStep_cases groups threshold g0 used0 j)
      as [Hst|(other & Hj & Hother & Hst)]; rewrite Hst in H.
    + eapply IH; eauto.
    + eapply IH; [|exact H]. apply P_absorb; [exact H0|].
      rewrite Forall_forall in P_groups. apply P_groups.
      eapply list_elem_of_lookup_2. exact Hother.
Qed.

Lemma mergeFrom_closed js : forall merged used merged' used',
  Forall P merged ->
  foldl (mergeFrom groups threshold) (merged, used) js = (merged', used') ->
  Forall P merged' /\ length merged' <= length merged + length js.
Proof using Type*.
  induction js as [|i js IH]; intros merged used merged' used' Hm H.
  - inversion H; subst. split; [exact Hm | simpl; lia].
  - change (foldl (mergeFrom groups threshold)
              (mergeFrom groups threshold (merged, used) i) js = (merged', used')) in H.
    unfold mergeFrom at 2 in H.
    case_bool_decide as Hi.
    + apply IH in H as [H1 H2]; [|exact Hm]. split; [exact H1 | simpl; lia].
    + destruct (groups !! i) as [gi|] eqn:Hgi.
      * destruct (foldl (mergeStep groups threshold) (gi, used)
                   (seq (S i) (length groups - S i))) as [group used1] eqn:Hinner.
        apply mergeStep_closed in Hinner.
        2:{ rewrite Forall_forall in P_groups. apply P_groups.
            eapply list_elem_of_lookup_2. exact Hgi. }
        apply IH in H as [H1 H2].
        -- split; [exact H1|]. rewrite length_app in H2. simpl in *. lia.
        -- apply Forall_app. split; [exact Hm | repeat constructor; exact Hinner].
      * apply IH in H as [H1 H2]; [|exact Hm].
        split; [exact H1 | simpl; lia].
Qed.

Lemma merge_closed :
  Forall P (mergeSimilarGroups groups threshold) /\
  length (mergeSimilarGroups groups threshold) <= length groups.
Proof using Type*.
  unfold mergeSimilarGroups. rewrite length_sort.
  destruct (foldl (mergeFrom groups threshold) ([], ∅) (seq 0 (length groups)))
    as [merged used] eqn:H.
  apply mergeFrom_closed in H as [H1 H2]; [|constructor].
  rewrite length_seq in H2. cbn [fst]. split; [|exact H2].
  apply Forall_forall. intros g Hg. apply sort_elem in Hg.
  rewrite Forall_forall in H1. auto.
Qed.

End Closed.

Lemma foldl_setAdd_newSet l : forall s, foldl setAdd s (newSet l) = foldl setAdd s l.
Proof.
  induction l as [|x l IH] using rev_ind; intros s; [reflexivity|].
  rewrite newSet_snoc, foldl_snoc.
  change (setAdd (newSet l) x)
    with (if bool_decide (x ∈ newSet l) then newSet l else newSet l ++ [x]).
  case_bool_decide as E.
  - rewrite IH. unfold setAdd, setHas. rewrite bool_decide_eq_true_2; [reflexivity|].
    rewrite newSet_elem in E. clear -E. revert s.
    induction l as [|y l IH] using rev_ind; intros s; [inversion E|].
    rewrite foldl_snoc. apply setAdd_elem.
    apply elem_of_app in E as [E|E]; [left; apply IH, E|].
    apply list_elem_of_singleton in E. right. exact E.
  - rewrite foldl_snoc, IH. reflexivity.
Qed.

Lemma newSet_app a b : newSet (a ++ b) = foldl setAdd (newSet a) b.
Proof. unfold newSet. apply foldl_app. Qed.

Lemma consistent_absorb g o : consistent g -> consistent o -> consistent (absorb g o).
Proof.
  intros (Hc & Hf & Hr) (Hc' & Hf' & _). unfold consistent.
  cbn [absorb g_count g_errors g_files g_representative]. split; [|split].
  - rewrite length_app. lia.
  - rewrite filesOf_app, newSet_app, Hf, Hf'. apply foldl_setAdd_newSet.
  - destruct (g_errors g); [discriminate | exact Hr].
Qed.

Lemma groupErrors_consistent errors opts : Forall consistent (groupErrors errors opts).
Proof.
  eapply Forall_impl; [apply groupErrors_groupFor|].
  intros g (_ & _ & Hc & Hf & Hr & _). split; [exact Hc|]. split; [exact Hf | exact Hr].
Qed.

(** X20: merging the groups of [groupErrors] keeps them consistent:
    the count of a merged group is the number of its records, its
    files are the distinct files of its records in first-seen order,
    and its representative is its first record. *)
Theorem X20_merged_groups_consistent (errors : list ErrorRecord) (opts : GroupOpts)
    (threshold : Q) :
  Forall (fun g => g_count g = length (g_errors g) /\
                   g_files g = newSet (filesOf (g_errors g)) /\
                   head (g_errors g) = Some (g_representative g))
         (mergeSimilarGroups (groupErrors errors opts) threshold).
Proof.
  apply (merge_closed consistent consistent_absorb), groupErrors_consistent.
Qed.

(** X21: merging makes no more groups than it is given, lists them by
    descending count, and builds every merged group on one of the
    given groups, whose signature, representative, code, type and
    severity it has. *)
Theorem X21_merged_groups_built_on_given (groups : list Group) (threshold : Q) :
  length (mergeSimilarGroups groups threshold) <= length groups /\
  StronglySorted countGe (mergeSimilarGroups groups threshold) /\
  Forall (fun m => exists g, g ∈ groups /\ builtOn g m)
         (mergeSimilarGroups groups threshold).
Proof.
  destruct (merge_closed (fun m => exists g, g ∈ groups /\ builtOn g m))
    with (groups := groups) (threshold := threshold) as [H1 H2].
  - intros g o (g0 & Hin & Hb) _. exists g0. split; [exact Hin | exact Hb].
  - apply Forall_forall. intros g Hg. exists g. split; [exact Hg|].
    repeat split; reflexivity.
  - split; [exact H2|]. split; [apply sort_sorted | exact H1].
Qed.

(** *** The extreme thresholds *)

Lemma mergeStep_skip groups threshold g used js :
  (forall other, Qle_bool threshold (similarity (g_signature g) (g_signature other)) = false) ->
  foldl (mergeStep groups threshold) (g, used) js = (g, used).
Proof.
  intros Hno. induction js as [|j js IH]; [reflexivity|].
  cbn [foldl]. unfold mergeStep at 2.
  destruct (bool_decide (j ∈ used)); [exact IH|].
  destruct (groups !! j) as [other|]; [|exact IH].
  rewrite Hno. exact IH.
Qed.

Lemma mergeFrom_apart groups threshold :
  (forall a b, Qle_bool threshold (similarity a b) = false) ->
  forall n i merged used,
    (forall k, k ∈ used -> k < i) -> i + n <= length groups ->
    exists used',
      foldl (mergeFrom groups threshold) (merged, used) (seq i n)
      = (merged ++ take n (drop i groups), used').
Proof.
  intros Hno. induction n as [|n IH]; intros i merged used Hused Hlen.
  - exists used. cbn [seq foldl take]. rewrite app_nil_r. reflexivity.
  - cbn [seq foldl]. unfold mergeFrom at 2.
    rewrite bool_decide_eq_false_2 by (intros Hin; apply Hused in Hin; lia).
    destruct (groups !! i) as [gi|] eqn:Hgi.
    2:{ apply lookup_ge_None in Hgi. lia. }
    rewrite mergeStep_skip by (intros other; apply Hno).
    destruct (IH (S i) (merged ++ [gi]) ({[ i ]} ∪ used)) as [used' ->]; [| lia |].
    + intros k Hk. apply elem_of_union in Hk as [Hk|Hk].
      * apply elem_of_singleton in Hk. lia.
      * apply Hused in Hk. lia.
    + exists used'. rewrite (drop_S _ _ _ Hgi). cbn [take].
      rewrite <- app_assoc. reflexivity.
Qed.

(** X22: with a threshold above one nothing is merged: the result is
    the given groups, sorted by descending count. *)
Theorem X22_threshold_above_one_merges_nothing (groups : list Group) (threshold : Q) :
  (1 < threshold)%Q ->
  mergeSimilarGroups groups threshold = sort byCountDesc groups.
Proof.
  intros Ht. unfold mergeSimilarGroups.
  destruct (mergeFrom_apart groups threshold) with (n := length groups) (i := 0)
    (merged := @nil Group) (used := (∅ : gset nat)) as [used' ->].
  - intros a b. destruct (Qle_bool threshold (similarity a b)) eqn:E; [|reflexivity].
    apply Qle_bool_iff in E. exfalso.
    apply (Qlt_not_le _ _ Ht). eapply Qle_trans; [exact E | apply similarity_range].
  - intros k Hk. apply not_elem_of_empty in Hk. contradiction.
  - simpl. lia.
  - cbn [fst app drop]. rewrite firstn_all. reflexivity.
Qed.

Lemma X22_threshold_above_one_merges_nothing_witness :
  List.map g_count (mergeSimilarGroups similarGroups (3 # 2)) = [3; 2].
Proof.
  rewrite (X22_threshold_above_one_merges_nothing similarGroups (3 # 2));
    [vm_compute; reflexivity | reflexivity].
Defined.

Lemma mergeStep_all groups threshold :
  (threshold <= 0)%Q ->
  forall post pre g used,
    groups = pre ++ post -> (forall k, k ∈ used -> k < length pre) ->
    exists used',
      foldl (mergeStep groups threshold) (g, used) (seq (length pre) (length post))
      = (foldl absorb g post, used') /\
      (forall k, length pre <= k < length groups -> k ∈ used') /\
      used ⊆ used'.
Proof.
  intros Ht. induction post as [|p post IH]; intros pre g used Hg Hused.
  - exists used. split; [reflexivity|]. split; [|reflexivity].
    intros k Hk. subst groups. rewrite length_app in Hk. simpl in Hk. lia.
  - cbn [length seq foldl]. unfold mergeStep at 2.
    rewrite bool_decide_eq_false_2 by (intros Hin; apply Hused in Hin; lia).
    replace (groups !! length pre) with (Some p)
      by (subst groups; symmetry; apply list_lookup_middle; reflexivity).
    replace (Qle_bool threshold (similarity (g_signature g) (g_signature p))) with true.
    2:{ symmetry. apply Qle_bool_iff. eapply Qle_trans; [exact Ht | apply similarity_range]. }
    destruct (IH (pre ++ [p]) (absorb g p) ({[ length pre ]} ∪ used))
      as (used' & Hfold & Hall & Hsub).
    + rewrite <- app_assoc. exact Hg.
    + intros k Hk. rewrite length_app. simpl.
      apply elem_of_union in Hk as [Hk|Hk].
      * apply elem_of_singleton in Hk. lia.
      * apply Hused in Hk. lia.
    + rewrite length_app in Hfold. simpl in Hfold.
      replace (length pre + 1) with (S (length pre)) in Hfold by lia.
      exists used'. split; [exact Hfold|]. split.
      * intros k Hk. destruct (decide (k = length pre)) as [->|Hne].
        -- apply Hsub, elem_of_union. left. apply elem_of_singleton. reflexivity.
        -- apply Hall. rewrite length_app. simpl. lia.
      * intros k Hk. apply Hsub, elem_of_union. right. exact Hk.
Qed.

Lemma mergeFrom_used groups threshold merged used js :
  (forall i, i ∈ js -> i ∈ used) ->
  foldl (mergeFrom groups threshold) (merged, used) js = (merged, used).
Proof.
  induction js as [|i js IH]; intros H; [reflexivity|].
  cbn [foldl]. unfold mergeFrom at 2.
  rewrite bool_decide_eq_true_2 by (apply H; left).
  apply IH. intros k Hk. apply H. right. exact Hk.
Qed.

(** X23: with a threshold of zero or less everything is merged into
    one group, built on the first of the given groups, which absorbs
    the others in their order. *)
Theorem X23_threshold_zero_merges_everything (g0 : Group) (rest : list Group)
    (threshold : Q) :
  (threshold <= 0)%Q ->
  mergeSimilarGroups (g0 :: rest) threshold = [foldl absorb g0 rest].
Proof.
  intros Ht. unfold mergeSimilarGroups.
  cbn [length seq foldl]. unfold mergeFrom at 2.
  rewrite bool_decide_eq_false_2 by apply not_elem_of_empty.
  cbn [lookup list_lookup].
  destruct (mergeStep_all (g0 :: rest) threshold Ht rest [g0] g0 ∅)
    as (used' & Hfold & Hall & _); [reflexivity | |].
  { intros k Hk. apply not_elem_of_empty in Hk. contradiction. }
  cbn [length] in Hfold, Hall.
  replace (length (g0 :: rest) - 1) with (length rest) by (simpl; lia).
  rewrite Hfold. rewrite mergeFrom_used; [reflexivity|].
  intros i Hi. apply elem_of_seq in Hi. apply elem_of_union. right.
  apply Hall. lia.
Qed.

Lemma X23_threshold_zero_merges_everything_witness :
  List.map (fun g => (g_signature g, g_count g)) (mergeSimilarGroups similarGroups 0)
  = [(u "Cannot find foo", 5)].
Proof.
  unfold similarGroups.
  rewrite X23_threshold_zero_merges_everything; [reflexivity | unfold Qle; simpl; lia].
Defined.

(* ===================================================================== *)
(** ** Further properties of the statistics *)
(* ===================================================================== *)

Lemma filesAffected_fold errors : forall s,
  foldl (fun s error =>
           match e_file error with
           | Some (c :: f) => setAdd s (c :: f)
           | _ => s
           end) s errors
  = foldl setAdd s (filesOf errors).
Proof.
  induction errors as [|e errors IH]; intros s; [reflexivity|].
  cbn [foldl filesOf]. rewrite IH. destruct (e_file e) as [[|c f]|]; reflexivity.
Qed.

Lemma filesOf_length errors : length (filesOf errors) <= length errors.
Proof.
  induction errors as [|e errors IH]; [reflexivity|]. cbn [filesOf length].
  destruct (e_file e) as [[|c f]|]; simpl; lia.
Qed.

Lemma newSet_length l : length (newSet l) <= length l.
Proof.
  induction l as [|x l IH] using rev_ind; [reflexivity|].
  rewrite newSet_snoc, length_app. unfold setAdd.
  destruct (setHas (newSet l) x); [|rewrite length_app]; simpl; lia.
Qed.

(** X24: [filesAffected] is the number of distinct non-empty file
    names of the records; it does not exceed [totalErrors]. *)
Theorem X24_filesAffected_counts_distinct_files (groups : list Group)
    (errors : list ErrorRecord) :
  filesAffected (getStats groups errors)
  = size (list_to_set (filesOf errors) : gset jsstring) /\
  filesAffected (getStats groups errors) <= totalErrors (getStats groups errors).
Proof.
  cbn [filesAffected totalErrors getStats]. rewrite filesAffected_fold.
  fold (newSet (filesOf errors)). split.
  - rewrite <- list_to_set_newSet. symmetry. apply size_list_to_set, newSet_NoDup.
  - etransitivity; [apply newSet_length | apply filesOf_length].
Qed.

Lemma byType_tally groups errors :
  byType (getStats groups errors) = entries (tallyOf (List.map typeOf errors)).
Proof.
  cbn [byType getStats]. f_equal. unfold tallyOf. generalize (@nil (jsstring * tally)).
  induction errors as [|e errors IH]; intros t; [reflexivity|].
  cbn [foldl List.map]. rewrite IH. reflexivity.
Qed.

Lemma bySeverity_tally groups errors :
  bySeverity (getStats groups errors) = entries (tallyOf (List.map severityOf errors)).
Proof.
  cbn [bySeverity getStats]. f_equal. unfold tallyOf. generalize (@nil (jsstring * tally)).
  induction errors as [|e errors IH]; intros t; [reflexivity|].
  cbn [foldl List.map]. rewrite IH. reflexivity.
Qed.

Lemma filter_perm {A} (p : A -> bool) l :
  List.filter p l ++ List.filter (fun x => negb (p x)) l ≡ₚ l.
Proof.
  induction l as [|x l IH]; [reflexivity|]. cbn [List.filter].
  destruct (p x); cbn [negb app].
  - rewrite IH. reflexivity.
  - rewrite <- Permutation_middle, IH. reflexivity.
Qed.

Lemma entries_perm {V} (t : list (jsstring * V)) : entries t ≡ₚ t.
Proof. unfold entries. rewrite sort_perm. apply filter_perm. Qed.

Lemma entries_singleton {V} (kv : jsstring * V) : entries [kv] = [kv].
Proof. unfold entries. cbn [List.filter]. destruct (isIndexKey kv); reflexivity. Qed.

Lemma countSum_perm t t' : t ≡ₚ t' -> countSum t = countSum t'.
Proof.
  unfold countSum. induction 1 as [|x l l' _ IH|x y l|l l' l'' _ IH1 _ IH2];
    cbn [sum_list_with]; lia.
Qed.

Lemma tallyOf_snoc codes c : tallyOf (codes ++ [c]) = bump c (tallyOf codes).
Proof. unfold tallyOf. rewrite foldl_snoc. reflexivity. Qed.

Lemma alter_countSum k (t : table) :
  Forall (fun kv => exists n, snd kv = Count n) t -> assoc k t <> None ->
  countSum (alter (fun v => match v with Count n => Count (S n) | Text => Text end) k t)
  = S (countSum t).
Proof.
  induction 1 as [|[k' v] t [n Hv] Ht IH]; cbn [alter assoc]; [congruence|].
  destruct (jsstring_eqb k k'); intros Hk.
  - simpl in Hv. subst v. reflexivity.
  - unfold countSum in *. cbn [sum_list_with]. rewrite IH by exact Hk. lia.
Qed.

Lemma tallyOf_countSum codes :
  Forall (fun c => inheritedKey c = false) codes ->
  countSum (tallyOf codes) = length codes.
Proof.
  induction codes as [|c codes IH] using rev_ind; intros Hall; [reflexivity|].
  pose proof Hall as Hall'. apply Forall_app in Hall' as [Hcodes Hc].
  inversion Hc as [|? ? Hinh _]; subst.
  rewrite tallyOf_snoc, length_app. cbn [length]. unfold bump.
  destruct (assoc c (tallyOf codes)) eqn:Ha.
  - rewrite alter_countSum; [rewrite IH by exact Hcodes; lia | | congruence].
    destruct (tallyOf_spec codes Hcodes) as [_ Hv].
    eapply Forall_impl; [exact Hv|]. intros kv Hkv. eexists. exact Hkv.
  - rewrite Hinh. unfold countSum in *. rewrite sum_list_with_app.
    rewrite IH by exact Hcodes. simpl. lia.
Qed.

(** The tables as [getStats] returns them. *)
Lemma listed_table codes :
  Forall (fun c => inheritedKey c = false) codes ->
  (forall k, k ∈ List.map fst (entries (tallyOf codes)) <-> k ∈ codes) /\
  NoDup (List.map fst (entries (tallyOf codes))) /\
  (forall x y, before x y (entries (tallyOf codes)) ->
               listedBefore codes (fst x) (fst y)) /\
  Forall (fun kv => snd kv = Count (frequency (fst kv) codes)) (entries (tallyOf codes)) /\
  countSum (entries (tallyOf codes)) = length codes.
Proof.
  intros Hall. destruct (tallyOf_spec codes Hall) as [Hkeys Hvals].
  assert (Hnd : NoDup (List.map fst (entries (tallyOf codes)))).
  { rewrite (Permutation_map fst (entries_perm _)), Hkeys. apply newSet_NoDup. }
  split; [|split; [exact Hnd|split; [|split]]].
  - intros k. rewrite (Permutation_map fst (entries_perm _)), Hkeys. apply newSet_elem.
  - intros x y Hb.
    assert (Hne : fst x <> fst y).
    { apply (before_map fst) in Hb. destruct Hb as (l1 & l2 & l3 & Hl).
      rewrite Hl in Hnd. apply NoDup_app in Hnd as (_ & _ & Hnd).
      apply NoDup_cons in Hnd as [Hx _]. intros Heq. apply Hx.
      rewrite Heq, elem_of_app. right. left. }
    apply entries_order in Hb; [|exact Hne]. unfold listedBefore.
    destruct (arrayIndex (fst x)), (arrayIndex (fst y)); try exact Hb.
    apply newSet_order. rewrite <- Hkeys. apply (before_map fst). exact Hb.
  - apply Forall_forall. intros kv Hkv. apply (proj1 (entries_elem _ _)) in Hkv.
    rewrite Forall_forall in Hvals. exact (Hvals _ Hkv).
  - rewrite (countSum_perm _ _ (entries_perm _)). apply tallyOf_countSum. exact Hall.
Qed.

(** X25: when no type and no severity is the name of an inherited
    member, [byType] and [bySeverity] have one entry for each type and
    for each severity of the records, ['unknown'] and ['error']
    standing for a missing one, with the number of records that have
    it, and the counts of either table add up to [totalErrors].  The
    entries are in the order of [Object.entries]: keys that are array
    indices first, in ascending order, then the other keys in
    first-seen order. *)
Theorem X25_tables_count_the_records (groups : list Group) (errors : list ErrorRecord) :
  Forall (fun e => inheritedKey (typeOf e) = false /\ inheritedKey (severityOf e) = false)
         errors ->
  let stats := getStats groups errors in
  let types := List.map typeOf errors in
  let severities := List.map severityOf errors in
  ((forall k, k ∈ List.map fst (byType stats) <-> k ∈ types) /\
   NoDup (List.map fst (byType stats)) /\
   (forall x y, before x y (byType stats) -> listedBefore types (fst x) (fst y)) /\
   Forall (fun kv => snd kv = Count (frequency (fst kv) types)) (byType stats) /\
   countSum (byType stats) = totalErrors stats) /\
  ((forall k, k ∈ List.map fst (bySeverity stats) <-> k ∈ severities) /\
   NoDup (List.map fst (bySeverity stats)) /\
   (forall x y, before x y (bySeverity stats) -> listedBefore severities (fst x) (fst y)) /\
   Forall (fun kv => snd kv = Count (frequency (fst kv) severities)) (bySeverity stats) /\
   countSum (bySeverity stats) = totalErrors stats).
Proof.
  intros Hall stats types severities. subst stats types severities.
  rewrite byType_tally, bySeverity_tally.
  assert (Ht : Forall (fun c => inheritedKey c = false) (List.map typeOf errors)).
  { apply Forall_forall. intros c Hc.
    apply list_elem_of_In, List.in_map_iff in Hc as (e & <- & He).
    rewrite Forall_forall in Hall. apply list_elem_of_In in He. apply (Hall e He). }
  assert (Hs : Forall (fun c => inheritedKey c = false) (List.map severityOf errors)).
  { apply Forall_forall. intros c Hc.
    apply list_elem_of_In, List.in_map_iff in Hc as (e & <- & He).
    rewrite Forall_forall in Hall. apply list_elem_of_In in He. apply (Hall e He). }
  cbn [totalErrors getStats].
  pose proof (listed_table _ Ht) as H1. pose proof (listed_table _ Hs) as H2.
  rewrite length_map in H1, H2. split; assumption.
Qed.

Lemma X25_tables_count_the_records_witness :
  List.map fst (byType (getStats [] numberedTypes)) = [u "2"; u "10"; u "go"] /\
  (forall x y, before x y (byType (getStats [] numberedTypes)) ->
               listedBefore (List.map typeOf numberedTypes) (fst x) (fst y)) /\
  countSum (bySeverity (getStats [] numberedTypes)) = 3.
Proof.
  destruct (X25_tables_count_the_records [] numberedTypes)
    as ((_ & _ & Ho & _) & (_ & _ & _ & _ & Hc)).
  - repeat constructor.
  - split; [vm_compute; reflexivity|]. split; [exact Ho | exact Hc].
Defined.

Lemma tallyOf_replicate t n :
  inheritedKey t = false -> tallyOf (replicate (S n) t) = [(t, Count (S n))].
Proof.
  intros Ht. induction n as [|n IH].
  - unfold tallyOf. cbn [replicate foldl]. unfold bump. cbn [assoc]. rewrite Ht. reflexivity.
  - replace (replicate (S (S n)) t) with (replicate (S n) t ++ [t])
      by (rewrite <- replicate_cons_app; reflexivity).
    rewrite tallyOf_snoc, IH. unfold bump. cbn [assoc alter].
    replace (jsstring_eqb t t) with true by (symmetry; apply jsstring_eqb_eq; reflexivity).
    reflexivity.
Qed.

Lemma categories_own t : t ∈ categories -> inheritedKey t = false /\ t <> [].
Proof.
  intros H. unfold categories in H. cbn in H.
  repeat (apply elem_of_cons in H as [->|H]; [split; [reflexivity | discriminate]|]).
  inversion H.
Qed.

(* ===================================================================== *)
(** ** From the input to the statistics *)
(* ===================================================================== *)

Lemma typeOf_typed t l :
  t <> [] -> Forall (fun e => e_type e = Some t) l ->
  List.map typeOf l = replicate (length l) t.
Proof.
  intros Ht. induction 1 as [|e l He Hl IH]; [reflexivity|].
  cbn [List.map length replicate]. rewrite IH. f_equal.
  unfold typeOf. rewrite He. destruct t; [congruence | reflexivity].
Qed.

Lemma members_subseteq s errors e : e ∈ members s errors -> e ∈ errors.
Proof.
  unfold members. intros H. apply list_elem_of_In, List.filter_In in H as [H _].
  apply list_elem_of_In. exact H.
Qed.

(** X26: the records of one call of [parseErrors] give a [byType]
    with one entry, the type of the call with the number of records,
    and groups that all have that type. *)
Theorem X26_one_call_one_type (input forcedType : jsstring) (l : list ErrorRecord)
    (groups : list Group) (opts : GroupOpts) :
  parseErrors input forcedType = Returns l -> l <> [] ->
  exists t, t ∈ categories /\
            byType (getStats groups l) = [(t, Count (length l))] /\
            Forall (fun g => g_type g = Some t) (groupErrors l opts).
Proof.
  intros H Hne. apply parseErrors_typed in H as (t & Ht & _ & Hall).
  exists t. split; [exact Ht|].
  destruct (categories_own t Ht) as [Hinh Hnil]. split.
  - rewrite byType_tally, (typeOf_typed t l Hnil Hall).
    destruct l as [|e l]; [congruence|]. cbn [length].
    rewrite (tallyOf_replicate t _ Hinh). apply entries_singleton.
  - eapply Forall_impl; [apply groupErrors_groupFor|].
    intros g (_ & He & _ & _ & Hr & _ & Hty & _). cbv beta. rewrite Hty.
    rewrite Forall_forall in Hall. apply Hall.
    apply (members_subseteq (g_signature g)). rewrite <- He.
    destruct (g_errors g) as [|e0 l0]; [discriminate|]. inversion Hr; subst. left.
Qed.

Lemma X26_one_call_one_type_witness :
  exists l t, parseErrors twoGoErrors (u "auto") = Returns l /\
              byType (getStats [] l) = [(t, Count 2)] /\
              Forall (fun g => g_type g = Some t) (groupErrors l noOpts).
Proof.
  pose (l := match parseErrors twoGoErrors (u "auto") with Returns l => l | _ => [] end).
  assert (Hp : parseErrors twoGoErrors (u "auto") = Returns l) by (vm_compute; reflexivity).
  destruct (X26_one_call_one_type twoGoErrors (u "auto") l [] noOpts Hp)
    as (t & _ & Hb & Hg); [vm_compute; discriminate|].
  exists l, t. split; [exact Hp|]. split; [exact Hb | exact Hg].
Defined.

(* ===================================================================== *)
(** ** Further properties of the [top] option *)
(* ===================================================================== *)

(** X27: the command line never passes [0] or [NaN] as [top]: an
    argument of [--top] that [parseInt] reads as [0] or cannot read
    gives the default of ten groups, not all groups. *)
Theorem X27_top_zero_means_ten (arg : option jsstring) (a : jsstring)
    (errors : list ErrorRecord) :
  parseCliTop arg <> Fin 0 /\ parseCliTop arg <> NaN /\
  (parseInt a = Fin 0 \/ parseInt a = NaN ->
   mainGroups (Some a) errors = mainGroups None errors /\
   length (mainGroups (Some a) errors) <= 10).
Proof.
  split; [|split].
  - unfold parseCliTop, numOr. destruct (parseInt _) as [| | |[|p|p]]; discriminate.
  - unfold parseCliTop, numOr. destruct (parseInt _) as [| | |[|p|p]]; discriminate.
  - intros Ha.
    assert (Htop : parseCliTop (Some a) = Fin 10).
    { change (parseCliTop (Some a)) with (numOr (parseInt a) (Fin 10)).
      destruct Ha as [-> | ->]; reflexivity. }
    unfold mainGroups. rewrite Htop. change (parseCliTop None) with (Fin 10).
    split; [reflexivity|].
    change (length (take 10 (sort byCountDesc (List.map snd (groupMap errors)))) <= 10).
    rewrite length_take. lia.
Qed.

Lemma X27_top_zero_means_ten_witness :
  length (groupErrors elevenErrors noOpts) = 11 /\
  length (mainGroups (Some (u "0")) elevenErrors) <= 10.
Proof.
  split; [vm_compute; reflexivity|].
  apply (X27_top_zero_means_ten None (u "0") elevenErrors). left. reflexivity.
Defined.

(** X28: a negative argument of [--top] lifts the limit: the command
    line then shows every group. *)
Theorem X28_negative_top_shows_all (a : jsstring) (z : Z) (errors : list ErrorRecord) :
  parseInt a = Fin z -> (z < 0)%Z ->
  mainGroups (Some a) errors = groupErrors errors noOpts.
Proof.
  intros Ha Hz. unfold mainGroups.
  change (parseCliTop (Some a)) with (numOr (parseInt a) (Fin 10)). rewrite Ha.
  unfold numOr. destruct z as [|p|p]; try lia.
  unfold groupErrors, topLimit. cbn [top]. reflexivity.
Qed.

Lemma X28_negative_top_shows_all_witness :
  length (mainGroups (Some (u "-1")) elevenErrors) = 11.
Proof.
  rewrite (X28_negative_top_shows_all (u "-1") (-1) elevenErrors);
    [vm_compute; reflexivity | reflexivity | lia].
Defined.

(* ===================================================================== *)
(** ** The highlighted message *)
(* ===================================================================== *)

Lemma quote_isQuote ch : classMatches noFlags false quotes ch = true -> isQuote ch = true.
Proof.
  unfold classMatches, caseVariants, quotes, isQuote. simpl.
  repeat rewrite orb_false_r. rewrite orb_assoc. intros H. exact H.
Qed.

Lemma highlight_needs : needs isQuote noFlags (re_pattern Formatter.highlight_regex).
Proof. simpl. left. intros ch Hc. exact (quote_isQuote ch Hc). Qed.

Lemma replaceAllWith_free re f s :
  needs isQuote (re_flags re) (re_pattern re) ->
  Forall (fun ch => isQuote ch = false) s ->
  Formatter.replaceAllWith re f s = s.
Proof.
  intros Hn Hf. unfold Formatter.replaceAllWith. cbn [Formatter.replaceLoopWith].
  unfold search. cbn [startOf cu_idx cu_prev cu_rest].
  rewrite (searchFrom_none isQuote) by assumption. reflexivity.
Qed.

Lemma app_middle_nonempty {A} (a b t : list A) x : a ++ (x :: b) ++ t <> [].
Proof. destruct a; discriminate. Qed.

Lemma replaceAllWith_nonempty re f s :
  s <> [] -> (forall m, f m <> []) -> Formatter.replaceAllWith re f s <> [].
Proof.
  intros Hs Hf. unfold Formatter.replaceAllWith. cbn [Formatter.replaceLoopWith].
  destruct (search re (startOf s)) as [[start y]|]; [|exact Hs].
  cbv zeta. specialize (Hf (toMatch s start y)).
  destruct (f (toMatch s start y)) as [|x b]; [congruence|].
  destruct (ms_idx y =? start); [destruct (ms_rest y)|].
  - rewrite <- (app_nil_r (x :: b)). apply app_middle_nonempty.
  - apply app_middle_nonempty.
  - apply app_middle_nonempty.
Qed.

(** X29: [formatErrorMessage] never returns an empty text, and it
    returns the message as it is, or ['Unknown error'] for a missing or
    empty one, when colors are off and also, with colors, when the
    message has none of the three quote characters. *)
Theorem X29_plain_message_shown_as_it_is (error : ErrorRecord) (opts : Formatter.Opts) :
  Formatter.formatErrorMessage error opts <> [] /\
  (Formatter.noColor opts = true \/ Forall (fun ch => isQuote ch = false) (shownText error) ->
   Formatter.formatErrorMessage error opts = shownText error).
Proof.
  unfold Formatter.formatErrorMessage. fold (shownText error). cbv zeta.
  assert (Hne : shownText error <> []).
  { unfold shownText. destruct (e_message error) as [[|ch m]|]; discriminate. }
  split.
  - destruct (Formatter.noColor opts) eqn:Hc; cbn [negb]; [exact Hne|].
    apply replaceAllWith_nonempty; [exact Hne|].
    intros m. unfold Formatter.c. rewrite Hc. discriminate.
  - intros [Hc|Hq].
    + rewrite Hc. reflexivity.
    + destruct (negb (Formatter.noColor opts)); [|reflexivity].
      apply replaceAllWith_free; [exact highlight_needs | exact Hq].
Qed.

Lemma X29_plain_message_shown_as_it_is_witness :
  Formatter.formatErrorMessage (msg (u "disk full") None) {| Formatter.noColor := false |}
  = u "disk full" /\
  Formatter.formatErrorMessage (msg (u "no 'x' here") None) {| Formatter.noColor := false |}
  = u "no " ++ Formatter.COLORS Formatter.cyan ++ u "'x'"
    ++ Formatter.COLORS Formatter.reset ++ u " here".
Proof.
  split; [|vm_compute; reflexivity].
  apply (X29_plain_message_shown_as_it_is (msg (u "disk full") None)
           {| Formatter.noColor := false |}).
  right. repeat constructor.
Defined.

(* ===================================================================== *)
(** ** The signature of a signature (C1) *)
(* ===================================================================== *)

(** C1, the claim as stated, fails: the signature of [line 5col 6] is
    [<loc>col 6], in which [col 6] now follows a word boundary, and the
    signature of that is [<loc><loc>]. *)
Lemma C1_signature_not_idempotent :
  getErrorSignature (reapplied (msg (u "line 5col 6") None))
  <> getErrorSignature (msg (u "line 5col 6") None).
Proof. vm_compute. discriminate. Qed.

(** With a code, the prefix is prepended a second time. *)
Example signature_code_twice :
  getErrorSignature (msg (u "x") (Some (u "E1"))) = u "[E1] x" /\
  getErrorSignature (reapplied (msg (u "x") (Some (u "E1")))) = u "[E1] [E1] x".
Proof. split; vm_compute; reflexivity. Qed.

(** A quoted span too long for the quote step is shortened by a later
    step and is replaced at the second application. *)
Example signature_long_quote :
  let m := [squote] ++ repeat 49%N 51 ++ [squote] in
  getErrorSignature (msg m None) = u "'<id>'" /\
  getErrorSignature (reapplied (msg m None)) = u "'<name>'".
Proof. split; vm_compute; reflexivity. Qed.

(** *** The shape of a replacement *)

Lemma lastOr_snoc prev g ch : lastOr prev (g ++ [ch]) = Some ch.
Proof. unfold lastOr. rewrite last_snoc. reflexivity. Qed.

Lemma lastOr_app prev a b : lastOr (lastOr prev a) b = lastOr prev (a ++ b).
Proof.
  destruct b as [|x b _] using rev_ind.
  - rewrite app_nil_r. reflexivity.
  - rewrite app_assoc, !lastOr_snoc. reflexivity.
Qed.

Lemma lastOr_cons prev ch g : lastOr prev (ch :: g) = lastOr (Some ch) g.
Proof. change (ch :: g) with ([ch] ++ g). rewrite <- lastOr_app. reflexivity. Qed.

Lemma lastOr_some prev p g : g <> [] -> lastOr prev g = lastOr p g.
Proof.
  destruct g as [|x g _] using rev_ind; [congruence|].
  intros _. rewrite !lastOr_snoc. reflexivity.
Qed.

Lemma after_nil c : after c [] (cu_rest c) = c.
Proof.
  destruct c as [i p r]. unfold after. cbn. f_equal. lia.
Qed.

Lemma after_after c a b t : after (after c a (b ++ t)) b t = after c (a ++ b) t.
Proof.
  unfold after. cbn. rewrite lastOr_app, length_app. f_equal. lia.
Qed.

Lemma tracks_refl x : tracks x x.
Proof. exists []. cbn. split; [reflexivity|]. split; [lia | reflexivity]. Qed.

Lemma tracks_trans x y z : tracks x y -> tracks y z -> tracks x z.
Proof.
  intros (p1 & H1 & I1 & L1) (p2 & H2 & I2 & L2). exists (p1 ++ p2).
  rewrite H1, H2, I2, I1, L2, L1, length_app, lastOr_app, app_assoc.
  split; [reflexivity|]. split; [lia | reflexivity].
Qed.

Lemma tracks_clearCaps gs x : tracks x (clearCaps gs x).
Proof.
  exists []. rewrite clearCaps_idx, clearCaps_rest.
  split; [reflexivity|]. split; [cbn; lia|].
  induction gs as [|n gs IH]; [reflexivity | exact IH].
Qed.

Lemma charMatcher_tracks p : threadsBy tracks (charMatcher p).
Proof.
  intros x c z. unfold charMatcher.
  destruct (ms_rest x) as [|ch rest] eqn:Hr; [discriminate|].
  destruct (p ch); [|discriminate].
  intros Hc. eexists. split; [exact Hc|].
  exists [ch]. cbn. rewrite Hr. split; [reflexivity|]. split; [lia | reflexivity].
Qed.

Lemma assertion_tracks p : threadsBy tracks (assertion p).
Proof.
  intros x c z. unfold assertion. destruct (p x); [|discriminate].
  intros Hc. exists x. split; [exact Hc | apply tracks_refl].
Qed.

Lemma compile_tracks fl r : threadsBy tracks (compile fl r).
Proof.
  induction r as [| p | | neg cs | a IHa b IHb | a IHa b IHb | n r1 IH
                 | r1 IH min max greedy | | | ]; cbn [compile].
  - intros x c z H. exists x. split; [exact H | apply tracks_refl].
  - apply charMatcher_tracks.
  - apply charMatcher_tracks.
  - apply charMatcher_tracks.
  - intros x c z H. apply IHa in H as (y & H & Hy).
    apply IHb in H as (y' & H & Hy'). exists y'. split; [exact H|].
    eapply tracks_trans; eassumption.
  - intros x c z H. destruct (compile fl a x c) eqn:Ha.
    + inversion H; subst. apply IHa in Ha. exact Ha.
    + apply IHb in H. exact H.
  - intros x c z H. apply IH in H as (y & H & Hy).
    eexists. split; [exact H|]. exact Hy.
  - intros x c z H.
    eapply (repeatMatcher_threadsBy tracks tracks_refl tracks_trans) in H;
      [exact H | apply tracks_clearCaps | exact IH].
  - apply assertion_tracks.
  - apply assertion_tracks.
  - apply assertion_tracks.
Qed.

(** A match ends further in the input, after the text that it matches. *)
Lemma matchAt_tracks re c y :
  matchAt re c = Some y ->
  exists m, cu_rest c = m ++ ms_rest y /\ cursorOf y = after c m (ms_rest y) /\
            minLen (re_pattern re) <= length m.
Proof.
  intros H. pose proof (matchAt_ahead _ _ _ H) as [Ha _].
  unfold matchAt in H. apply compile_tracks in H as (y' & Hy & (m & Hr & Hi & Hp)).
  inversion Hy; subst y'. cbn in *. exists m.
  split; [exact Hr|]. split; [|lia].
  unfold cursorOf, after. rewrite Hi, Hp. reflexivity.
Qed.

(** The search finds the first position at which the pattern matches. *)
Lemma searchFrom_first re rest : forall idx prev,
  let c := {| cu_idx := idx; cu_prev := prev; cu_rest := rest |} in
  match searchFrom re idx prev rest with
  | None => unmatched re c
  | Some (start, y) =>
      exists g t, rest = g ++ t /\ start = idx + length g /\
                  unmatchedIn re c g t /\ matchAt re (after c g t) = Some y
  end.
Proof.
  induction rest as [|ch rest IH]; intros idx prev c; cbn [searchFrom].
  - destruct (matchAt re _) as [y|] eqn:Hm.
    + exists [], []. split; [reflexivity|]. split; [cbn; lia|]. split.
      * intros g1 g2 Hg Hne. destruct g1, g2; cbn in Hg; congruence.
      * rewrite <- Hm. f_equal. apply (after_nil c).
    + intros g t Hg. cbn in Hg. destruct g, t; try discriminate.
      rewrite <- Hm. f_equal. apply (after_nil c).
  - destruct (matchAt re _) as [y|] eqn:Hm.
    + exists [], (ch :: rest). split; [reflexivity|]. split; [cbn; lia|]. split.
      * intros g1 g2 Hg Hne. destruct g1, g2; cbn in Hg; congruence.
      * rewrite <- Hm. f_equal. apply (after_nil c).
    + specialize (IH (S idx) (Some ch)). cbv zeta in IH.
      assert (Hshift : forall g t,
        after {| cu_idx := S idx; cu_prev := Some ch; cu_rest := rest |} g t
        = after c (ch :: g) t).
      { intros g t. unfold after, c. cbn [cu_idx cu_prev length].
        rewrite lastOr_cons. f_equal. lia. }
      destruct (searchFrom re (S idx) (Some ch) rest) as [[start y]|].
      * destruct IH as (g & t & Hr & Hs & Hg & Hy).
        exists (ch :: g), t. split; [cbn; rewrite Hr; reflexivity|].
        split; [cbn; lia|]. split.
        -- intros g1 g2 Hsplit Hne. destruct g1 as [|x g1].
           ++ cbn in Hsplit. subst g2. cbn [app]. rewrite <- Hr.
              rewrite <- Hm. f_equal. apply (after_nil c).
           ++ cbn in Hsplit. inversion Hsplit; subst x g.
              rewrite <- Hshift. apply Hg; [reflexivity | exact Hne].
        -- rewrite <- Hshift. exact Hy.
      * intros g t Hsplit. cbn [cu_rest c] in Hsplit. destruct g as [|x g].
        -- cbn in Hsplit. subst t. rewrite <- Hm. f_equal. apply (after_nil c).
        -- cbn in Hsplit. inversion Hsplit; subst x rest.
           rewrite <- Hshift. apply IH. reflexivity.
Qed.

Lemma search_first re c :
  match search re c with
  | None => unmatched re c
  | Some (start, y) =>
      exists g t, cu_rest c = g ++ t /\ start = cu_idx c + length g /\
                  unmatchedIn re c g t /\ matchAt re (after c g t) = Some y
  end.
Proof. destruct c as [i p r]. apply searchFrom_first. Qed.

Lemma unmatched_search re c : unmatched re c <-> search re c = None.
Proof.
  pose proof (search_first re c) as Hs.
  destruct (search re c) as [[start y]|]; split; try congruence; auto.
  intros H. destruct Hs as (g & t & Hr & _ & _ & Hy). rewrite (H g t Hr) in Hy. discriminate.
Qed.

(** Where nothing matches nothing is replaced. *)
Lemma unmatched_replaceAll re repl s :
  unmatched re (startOf s) -> replaceAll re repl s = s.
Proof.
  intros H. unfold replaceAll. cbn [replaceLoop].
  pose proof (search_first re (startOf s)) as Hs.
  destruct (search re (startOf s)) as [[start y]|]; [|reflexivity].
  destruct Hs as (g & t & Hr & _ & _ & Hy). rewrite (H g t Hr) in Hy. discriminate.
Qed.

(** The replacement loop of a pattern that does not match the empty
    string goes from match to match. *)
Lemma replaceLoop_replaced re repl :
  1 <= minLen (re_pattern re) ->
  forall fuel c, length (cu_rest c) < fuel ->
  replaced re repl c (replaceLoop fuel re repl c).
Proof.
  intros Hmin. induction fuel as [|fuel IH]; intros c Hf; [lia|].
  cbn [replaceLoop]. pose proof (search_first re c) as Hs.
  destruct (search re c) as [[start y]|]; [|apply replaced_none; exact Hs].
  destruct Hs as (g & t & Hr & Hstart & Hgap & Hy).
  destruct (matchAt_tracks _ _ _ Hy) as (m & Hm & Hcur & Hlen).
  cbn [after cu_rest] in Hm.
  assert (Hidx : ms_idx y = cu_idx c + length g + length m).
  { apply (f_equal cu_idx) in Hcur. cbn in Hcur. exact Hcur. }
  replace (ms_idx y =? start) with false by (symmetry; apply Nat.eqb_neq; lia).
  replace (take (start - cu_idx c) (cu_rest c)) with g.
  2:{ rewrite Hr, Hstart. replace (cu_idx c + length g - cu_idx c) with (length g) by lia.
      rewrite take_app_length. reflexivity. }
  subst t.
  apply (replaced_match re repl c g m (ms_rest y) y); try assumption; try reflexivity.
  - intros ->. cbn in Hlen. lia.
  - replace (after c (g ++ m) (ms_rest y)) with (cursorOf y).
    + apply IH. cbn. rewrite Hr, !length_app in Hf. 
      assert (1 <= length m) by lia. lia.
    + rewrite Hcur. apply after_after.
Qed.

Lemma replaceAll_replaced re repl s :
  1 <= minLen (re_pattern re) ->
  replaced re repl (startOf s) (replaceAll re repl s).
Proof. intros H. apply replaceLoop_replaced; [exact H | cbn; lia]. Qed.

(** *** Scans and replacements *)

Lemma run_app d w : forall q y, run d q w = true -> run d q (w ++ y) = true.
Proof.
  induction w as [|ch w IH]; intros q y; cbn; [discriminate|].
  destruct (d q ch); auto.
Qed.

Lemma stops_run d w : forall q y, stops d q w = true -> run d q (w ++ y) = false.
Proof.
  induction w as [|ch w IH]; intros q y; cbn; [discriminate|].
  destruct (d q ch); auto; discriminate.
Qed.

(** A scan that succeeds through a text that stops it succeeds before it. *)
Lemma run_before d tok : (forall q, stops d q tok = true) ->
  forall w q y, run d q (w ++ tok ++ y) = true -> run d q w = true.
Proof.
  intros Htok. induction w as [|ch w IH]; intros q y; cbn [app run].
  - rewrite (stops_run _ _ _ _ (Htok q)). discriminate.
  - destruct (d q ch); eauto.
Qed.

Lemma opaque_stops d n tok :
  (forall q ch, n <= q -> d q ch = Dead) -> tok <> [] -> opaque d n tok = true ->
  (forall q, stops d q tok = true) /\
  (forall a b, tok = a ++ b -> b <> [] -> stops d 0 b = true).
Proof.
  intros Hn Hne Ho. apply andb_true_iff in Ho as [H1 H2].
  rewrite forallb_forall in H1, H2. split.
  - intros q. destruct (le_lt_dec n q) as [Hq|Hq].
    + destruct tok as [|ch tok]; [congruence|]. cbn. rewrite (Hn q ch Hq). reflexivity.
    + apply H1. apply in_seq. lia.
  - intros a b -> Hb. specialize (H2 (length a)).
    rewrite drop_app_length in H2. apply H2. apply in_seq.
    rewrite length_app. destruct b; [congruence|]. cbn. lia.
Qed.

Lemma clean_app_r d a b : clean d (a ++ b) -> clean d b.
Proof. intros H x y ->. apply (H (a ++ x) y). rewrite app_assoc. reflexivity. Qed.

Lemma clean_app_l d a b : clean d (a ++ b) -> clean d a.
Proof.
  intros H x y ->. destruct (run d 0 y) eqn:E; [|reflexivity].
  rewrite <- (H x (y ++ b)); [|rewrite app_assoc; reflexivity].
  symmetry. apply run_app. exact E.
Qed.

Section ScanReplaced.
Variable d : scanner.
Variable re : jsregexp.
Variable repl : jsstring.
Hypothesis repl_stops : forall q, stops d q repl = true.
Hypothesis repl_inside : forall a b, repl = a ++ b -> b <> [] -> stops d 0 b = true.

Lemma covered_after c g t :
  cu_rest c = g ++ t -> covered d re c -> covered d re (after c g t).
Proof.
  intros Hr H g' t' Hr' Hm. cbn in Hr'. subst t.
  rewrite after_after in Hm. apply (H (g ++ g') t'); [|exact Hm].
  rewrite Hr, app_assoc. reflexivity.
Qed.

(** Once every match is replaced the scan finds nothing. *)
Lemma replaced_clean c out :
  replaced re repl c out -> covered d re c -> clean d out.
Proof using Type*.
  induction 1 as [c Hun | c g m t y out Hr Hm Hgap Hy Hrest Hout IH]; intros Hcov.
  - intros a b Hab. apply (Hcov a b Hab). apply Hun. exact Hab.
  - assert (Hout' : clean d out).
    { apply IH. apply covered_after; [|exact Hcov]. rewrite Hr, app_assoc. reflexivity. }
    intros a b Hab. apply List.app_eq_app in Hab as [l [[Ha Hb]|[Ha Hb]]].
    + (* the position is before the match *)
      subst b. destruct l as [|x l].
      { cbn [app]. apply stops_run, repl_stops. }
      destruct (run d 0 ((x :: l) ++ repl ++ out)) eqn:E; [|reflexivity].
      apply run_before in E; [|exact repl_stops].
      apply (run_app _ _ _ (m ++ t)) in E.
      rewrite <- E. apply (Hcov a ((x :: l) ++ m ++ t)).
      * rewrite Hr, Ha, <- app_assoc. reflexivity.
      * apply Hgap; [exact Ha | discriminate].
    + (* the position is in the replacement text or after it *)
      apply List.app_eq_app in Hb as [l' [[Hb1 Hb2]|[Hb1 Hb2]]].
      * subst b. destruct l' as [|x l'].
        -- apply (Hout' [] out). reflexivity.
        -- apply stops_run. apply (repl_inside l (x :: l')); [exact Hb1 | discriminate].
      * apply (Hout' l' b). exact Hb2.
Qed.

End ScanReplaced.

(** The replacement of the matches of a pattern keeps a text clean for
    a scan that the replacement text stops, whatever the pattern. *)
Lemma replaced_keeps_clean d re repl c out :
  (forall q, stops d q repl = true) ->
  (forall a b, repl = a ++ b -> b <> [] -> stops d 0 b = true) ->
  replaced re repl c out -> clean d (cu_rest c) -> clean d out.
Proof.
  intros H1 H2 Hrep Hc. apply (replaced_clean d re repl H1 H2 c out Hrep).
  intros g t Hr _. apply (Hc g t Hr).
Qed.

(** In a clean text a pattern whose matches the scan finds matches nowhere. *)
Lemma clean_unmatched d re c :
  (forall c' y, matchAt re c' = Some y ->
     exists a b, cu_rest c' = a ++ b /\ length a <= 1 /\ run d 0 b = true) ->
  clean d (cu_rest c) -> unmatched re c.
Proof.
  intros Hsound Hc g t Hr. destruct (matchAt re (after c g t)) as [y|] eqn:Hm; [|reflexivity].
  apply Hsound in Hm as (a & b & Hab & _ & Hrun). cbn in Hab.
  rewrite (Hc (g ++ a) b) in Hrun; [discriminate|].
  rewrite Hr, Hab, app_assoc. reflexivity.
Qed.

(** *** Whole words and replacements *)

Lemma takeWhile_stop {A} (p : A -> bool) w x z :
  p x = false -> takeWhile p (w ++ x :: z) = takeWhile p w.
Proof.
  intros Hx. induction w as [|y w IH]; cbn.
  - rewrite Hx. reflexivity.
  - destruct (p y); [rewrite IH|]; reflexivity.
Qed.

Lemma takeWhile_ahead w b :
  nonWordAhead b = true -> takeWhile isWordChar (w ++ b) = takeWhile isWordChar w.
Proof.
  destruct b as [|x b]; [rewrite app_nil_r; reflexivity|].
  cbn. intros H. apply takeWhile_stop. destruct (isWordChar x); [discriminate | reflexivity].
Qed.

Lemma wordHit_ahead lang p t :
  lang [] = false -> nonWordAhead t = true -> wordHit lang p t = false.
Proof.
  intros Hl Ht. unfold wordHit. destruct t as [|ch t]; cbn.
  - rewrite Hl. apply andb_false_r.
  - cbn in Ht. destruct (isWordChar ch); [discriminate|]. rewrite Hl. apply andb_false_r.
Qed.

Lemma cleanAt_app_r lang p a b : cleanAt lang p (a ++ b) -> cleanAt lang (lastOr p a) b.
Proof.
  intros H x y ->. rewrite lastOr_app. apply (H (a ++ x) y).
  rewrite app_assoc. reflexivity.
Qed.

Lemma cleanAt_app_l lang p a b :
  nonWordAhead b = true -> cleanAt lang p (a ++ b) -> cleanAt lang p a.
Proof.
  intros Hb H x y ->. specialize (H x (y ++ b)). unfold wordHit in *.
  rewrite takeWhile_ahead in H by exact Hb. apply H. rewrite app_assoc. reflexivity.
Qed.

(** Only the first position of a text depends on what is before it. *)
Lemma cleanAt_before lang p p' t :
  nonWordBefore p = nonWordBefore p' -> cleanAt lang p t -> cleanAt lang p' t.
Proof.
  intros Hp H a b Hab. specialize (H a b Hab). destruct a as [|x a].
  - cbn in *. unfold wordHit in *. rewrite <- Hp. exact H.
  - rewrite (lastOr_some p' p) by discriminate. exact H.
Qed.

Lemma cleanAt_ahead lang p p' t :
  lang [] = false -> nonWordAhead t = true -> cleanAt lang p t -> cleanAt lang p' t.
Proof.
  intros Hl Ht H a b Hab. destruct a as [|x a].
  - cbn in Hab. subst b. apply wordHit_ahead; assumption.
  - rewrite (lastOr_some p' p) by discriminate. apply H. exact Hab.
Qed.

Section WordsReplaced.
Variable lang : jsstring -> bool.
Variable re : jsregexp.
Variable repl : jsstring.
Hypothesis lang_nil : lang [] = false.
Hypothesis re_words : matchesWords re.
Hypothesis repl_some : repl <> [].
Hypothesis repl_inside :
  forall a b p y, repl = a ++ b -> b <> [] -> wordHit lang p (b ++ y) = false.

Lemma coveredAt_after c g t :
  cu_rest c = g ++ t -> coveredAt lang re c -> coveredAt lang re (after c g t).
Proof.
  intros Hr H g' t' Hr' Hm. cbn in Hr'. subst t.
  rewrite after_after in Hm. cbn [after cu_prev]. rewrite lastOr_app.
  apply (H (g ++ g') t'); [|exact Hm].
  rewrite Hr, app_assoc. reflexivity.
Qed.

(** Once every match is replaced no such word is left. *)
Lemma replaced_cleanAt c out :
  replaced re repl c out -> coveredAt lang re c ->
  forall p, p = cu_prev c \/ nonWordAhead (cu_rest c) = true -> cleanAt lang p out.
Proof using Type*.
  induction 1 as [c Hun | c g m t y out Hr Hm Hgap Hy Hrest Hout IH]; intros Hcov p Hp.
  - assert (Hc : cleanAt lang (cu_prev c) (cu_rest c)).
    { intros a b Hab. apply (Hcov a b Hab). apply Hun. exact Hab. }
    destruct Hp as [->|Hp]; [exact Hc|].
    eapply cleanAt_ahead; eassumption.
  - destruct (re_words _ _ Hy) as (Hbefore & Hword & Hahead).
    cbn [after cu_prev cu_rest] in Hbefore, Hword. rewrite Hrest in Hahead.
    assert (Hout' : forall p', cleanAt lang p' out).
    { intros p'. apply IH.
      - apply coveredAt_after; [|exact Hcov]. rewrite Hr, app_assoc. reflexivity.
      - right. exact Hahead. }
    intros a b Hab. apply List.app_eq_app in Hab as [l [[Ha Hb]|[Ha Hb]]].
    + (* the position is before the match *)
      subst b. destruct l as [|x l].
      { cbn [app]. apply (repl_inside [] repl); [reflexivity | exact repl_some]. }
      assert (Hend : exists w ch, x :: l = w ++ [ch] /\ isWordChar ch = false).
      { destruct (exists_last (l := x :: l)) as (w & ch & Hw); [discriminate|].
        exists w, ch. split; [exact Hw|].
        rewrite Ha, Hw, app_assoc, lastOr_snoc in Hbefore. cbn in Hbefore.
        destruct (isWordChar ch); [discriminate | reflexivity]. }
      destruct Hend as (w & ch & Hw & Hch).
      assert (Hin : wordHit lang (lastOr (cu_prev c) a) ((x :: l) ++ m ++ t) = false).
      { apply (Hcov a ((x :: l) ++ m ++ t)).
        - rewrite Hr, Ha, <- app_assoc. reflexivity.
        - apply Hgap; [exact Ha | discriminate]. }
      assert (Hsame : forall q z, wordHit lang q ((x :: l) ++ z) = wordHit lang q (x :: l)).
      { intros q z. unfold wordHit. rewrite Hw, <- app_assoc. cbn [app].
        rewrite takeWhile_stop by exact Hch.
        rewrite <- (takeWhile_stop isWordChar w ch []) by exact Hch. reflexivity. }
      rewrite Hsame. rewrite Hsame in Hin.
      destruct a as [|x' a].
      * destruct Hp as [->|Hp]; [exact Hin|].
        apply wordHit_ahead; [exact lang_nil|].
        rewrite Hr, Ha in Hp. cbn in Hp. exact Hp.
      * rewrite (lastOr_some p (cu_prev c)) by discriminate. exact Hin.
    + (* the position is in the replacement text or after it *)
      apply List.app_eq_app in Hb as [l' [[Hb1 Hb2]|[Hb1 Hb2]]].
      * subst b. destruct l' as [|x l'].
        -- apply (Hout' _ [] out). reflexivity.
        -- apply (repl_inside l (x :: l')); [exact Hb1 | discriminate].
      * subst a l. rewrite !app_assoc, <- lastOr_app. apply (Hout' _ l' b). exact Hb2.
Qed.

End WordsReplaced.

(** The replacement of the matches of a pattern whose matches are whole
    words keeps a text free of the words of [lang], when the
    replacement text holds none. *)
Lemma replaced_keeps_cleanAt lang re repl c out :
  lang [] = false -> matchesWords re -> repl <> [] ->
  (forall a b p y, repl = a ++ b -> b <> [] -> wordHit lang p (b ++ y) = false) ->
  replaced re repl c out -> cleanAt lang (cu_prev c) (cu_rest c) ->
  cleanAt lang (cu_prev c) out.
Proof.
  intros H1 H2 H3 H4 Hrep Hc.
  apply (replaced_cleanAt lang re repl H1 H2 H3 H4 c out Hrep); [|left; reflexivity].
  intros g t Hr _. apply (Hc g t Hr).
Qed.

(** In a text without a word of [lang], a pattern that only matches
    such words matches nowhere. *)
Lemma cleanAt_unmatched lang re c :
  (forall c' y, matchAt re c' = Some y -> wordHit lang (cu_prev c') (cu_rest c') = true) ->
  cleanAt lang (cu_prev c) (cu_rest c) -> unmatched re c.
Proof.
  intros Hsound Hc g t Hr. destruct (matchAt re (after c g t)) as [y|] eqn:Hm; [|reflexivity].
  apply Hsound in Hm. cbn in Hm. rewrite (Hc g t Hr) in Hm. discriminate.
Qed.

(** *** Cases on a code unit *)

(** A fact about the classes of code units, by cases on the bounds of
    the classes. *)
Ltac unit_cases :=
  unfold hexUnit, digitUnit, segmentUnit, quoteUnit, letterUnit, classMatches, litMatches,
    caseVariants, inCset, isWordChar, isWhiteSpace, toUpperAscii, toLowerAscii,
    isUpperAscii, isLowerAscii, isDigit, between, quotes, squote, dquote, backquote,
    backslash;
  repeat match goal with
  | |- context [chr ?s] => let v := eval vm_compute in (chr s) in change (chr s) with v
  end;
  cbn [existsb ignoreCase flagI noFlags xorb orb andb negb];
  repeat match goal with
  | |- context [(?a <=? ?b)%N] =>
      destruct (N.leb_spec a b); cbn [existsb xorb orb andb negb] in *; try lia
  | |- context [(?a =? ?b)%N] =>
      destruct (N.eqb_spec a b); cbn [existsb xorb orb andb negb] in *; try lia
  | H : context [(?a <=? ?b)%N] |- _ =>
      destruct (N.leb_spec a b); cbn [existsb xorb orb andb negb] in *; try lia
  end;
  try reflexivity; try discriminate; try (intros; exfalso; lia).

(** *** Greedy runs *)

Lemma skipRun_prev p rest : forall x,
  ms_prev (skipRun p x rest) = lastOr (ms_prev x) (takeWhile p rest).
Proof.
  induction rest as [|ch r IH]; intros x; cbn; [reflexivity|].
  destruct (p ch); [|reflexivity]. rewrite IH, lastOr_cons. reflexivity.
Qed.

(** A greedy quantifier over a class, before a continuation that fails
    inside a run of the class, takes the whole run or fails. *)
Lemma repeat_class_run p k :
  (forall y ch r prev, ms_rest y = ch :: r -> p ch = true ->
     ms_prev y = Some prev -> p prev = true -> k y = None) ->
  forall rest fuel min x, ms_rest x = rest -> min + length rest < fuel ->
  (1 <= min \/ exists prev, ms_prev x = Some prev /\ p prev = true) ->
  repeatMatcher fuel (charMatcher p) [] min None true x k
  = if min <=? length (takeWhile p rest) then k (skipRun p x rest) else None.
Proof.
  intros Hk. induction rest as [|ch r IH]; intros fuel min x Hx Hf Hinv;
    (destruct fuel as [|fuel]; [lia|]);
    rewrite repeatMatcher_step by discriminate; cbv zeta;
    destruct min as [|min];
    cbn [Nat.eqb negb andb pred predMax clearCaps foldr];
    unfold charMatcher at 1; rewrite Hx; cbn [takeWhile skipRun length Nat.leb];
    try reflexivity.
  - destruct (p ch) eqn:Hp; [|reflexivity].
    cbn [ms_idx].
    replace (S (ms_idx x) =? ms_idx x) with false by (symmetry; apply Nat.eqb_neq; lia).
    rewrite (IH fuel 0); [|reflexivity | cbn in Hf; lia | right; exists ch; auto].
    cbn [Nat.leb].
    destruct (k (skipRun p _ r)) eqn:Hz; [reflexivity|].
    destruct Hinv as [Hinv|(prev & Hprev & Hpp)]; [lia|].
    eapply Hk; eauto.
  - destruct (p ch) eqn:Hp; [|reflexivity].
    rewrite (IH fuel min); [|reflexivity | cbn in Hf; lia | right; exists ch; auto].
    reflexivity.
Qed.

Lemma repeat_optional_total m gs max greedy k :
  total k -> forall fuel x, 1 <= fuel \/ max = Some 0 ->
  repeatMatcher fuel m gs 0 max greedy x k <> None.
Proof.
  intros Hk fuel x Hf. destruct (decide (max = Some 0)) as [->|Hmax].
  { rewrite repeatMatcher_zero. apply Hk. }
  destruct fuel as [|fuel]; [destruct Hf; [lia | congruence]|].
  rewrite repeatMatcher_step by exact Hmax. cbv zeta. cbn [Nat.eqb negb].
  destruct (negb greedy).
  - destruct (k x) eqn:E; [discriminate|]. exfalso. exact (Hk x E).
  - destruct (m (clearCaps gs x) _); [discriminate|]. apply Hk.
Qed.

(** *** Words between two boundaries *)

Lemma word_run p t :
  (forall ch, p ch = true -> isWordChar ch = true) ->
  forallb p (takeWhile isWordChar t) = nonWordAhead (dropWhile p t) /\
  (nonWordAhead (dropWhile p t) = true -> takeWhile isWordChar t = takeWhile p t).
Proof.
  intros Hp. induction t as [|ch t [IH1 IH2]]; cbn; [auto|].
  destruct (p ch) eqn:Hch.
  - rewrite (Hp ch Hch). cbn. rewrite Hch. cbn. split; [exact IH1|].
    intros H. rewrite IH2 by exact H. reflexivity.
  - destruct (isWordChar ch) eqn:Hw; cbn; rewrite ?Hch, ?Hw; cbn; split; auto; discriminate.
Qed.

Lemma digitUnit_word ch : digitUnit ch = true -> isWordChar ch = true.
Proof.
  unfold digitUnit, classMatches, isWordChar. cbn.
  rewrite !orb_false_r. intros ->. rewrite orb_true_r. reflexivity.
Qed.

Lemma boundary_start x ch r :
  ms_rest x = ch :: r -> isWordChar ch = true ->
  atWordBoundary x = nonWordBefore (ms_prev x).
Proof.
  intros Hr Hw. unfold atWordBoundary, nonWordBefore. rewrite Hr, Hw.
  destruct (ms_prev x) as [c|]; [destruct (isWordChar c)|]; reflexivity.
Qed.

Lemma boundary_end x ch :
  ms_prev x = Some ch -> isWordChar ch = true ->
  atWordBoundary x = nonWordAhead (ms_rest x).
Proof.
  intros Hp Hw. unfold atWordBoundary, nonWordAhead. rewrite Hp, Hw.
  destruct (ms_rest x) as [|c r]; [|destruct (isWordChar c)]; reflexivity.
Qed.

Lemma takeWhile_all {A} (p : A -> bool) l : Forall (fun x => p x = true) (takeWhile p l).
Proof.
  induction l as [|x l IH]; cbn; [constructor|].
  destruct (p x) eqn:Hx; constructor; assumption.
Qed.

Lemma lastOr_all (p : N -> bool) prev w :
  w <> [] -> Forall (fun x => p x = true) w ->
  exists ch, lastOr prev w = Some ch /\ p ch = true.
Proof.
  intros Hne Hall. destruct (exists_last Hne) as (w' & ch & ->).
  exists ch. rewrite lastOr_snoc. split; [reflexivity|].
  apply Forall_app in Hall as [_ Hall]. inversion Hall; assumption.
Qed.

(** The end of a run of word characters of one or more. *)
Lemma run_end p x rest :
  (forall ch, p ch = true -> isWordChar ch = true) ->
  ms_rest x = rest -> 1 <= length (takeWhile p rest) ->
  atWordBoundary (skipRun p x rest) = nonWordAhead (dropWhile p rest).
Proof.
  intros Hp Hx Hlen.
  destruct (lastOr_all p (ms_prev x) (takeWhile p rest)) as (ch & Hlast & Hch).
  { intros E. rewrite E in Hlen. cbn in Hlen. lia. }
  { apply takeWhile_all. }
  rewrite (boundary_end _ ch); [| rewrite skipRun_prev; exact Hlast | apply Hp, Hch].
  rewrite skipRun_dropWhile by exact Hx. reflexivity.
Qed.

Lemma run_start (p : N -> bool) rest :
  1 <= length (takeWhile p rest) -> exists ch r, rest = ch :: r /\ p ch = true.
Proof.
  destruct rest as [|ch r]; cbn; [lia|].
  destruct (p ch) eqn:E; [eauto | cbn; lia].
Qed.

(** *** The long numbers *)

Lemma longNumber_matchAt c :
  let x := {| ms_idx := cu_idx c; ms_prev := cu_prev c; ms_rest := cu_rest c;
              ms_caps := [None] |} in
  matchAt longNumber_regex c
  = if wordHit longNumber (cu_prev c) (cu_rest c)
    then Some (skipRun digitUnit x (cu_rest c)) else None.
Proof.
  intros x. unfold matchAt, longNumber_regex, mkre, seqs, digit.
  cbn [re_pattern re_flags foldr compile maxGroup groupsOf Nat.max replicate].
  fold digitUnit. fold x. unfold assertion at 1.
  pose (k := fun y : mstate => assertion atWordBoundary y (fun y0 : mstate => Some y0)).
  fold k.
  assert (Hk : forall y ch r prev, ms_rest y = ch :: r -> digitUnit ch = true ->
     ms_prev y = Some prev -> digitUnit prev = true -> k y = None).
  { intros y ch r prev Hr Hch Hprev Hp. unfold k, assertion.
    rewrite (boundary_end y prev Hprev (digitUnit_word _ Hp)), Hr. cbn.
    rewrite (digitUnit_word _ Hch). reflexivity. }
  rewrite (repeat_class_run digitUnit k Hk (cu_rest c)); [|reflexivity | cbn; lia | left; lia].
  destruct (word_run digitUnit (cu_rest c) digitUnit_word) as [Hall Hsame].
  unfold wordHit, longNumber. rewrite Hall.
  destruct (5 <=? length (takeWhile digitUnit (cu_rest c))) eqn:Hlen.
  - apply Nat.leb_le in Hlen.
    destruct (run_start digitUnit (cu_rest c)) as (ch & r & Hrest & Hch); [lia|].
    rewrite (boundary_start x ch r Hrest (digitUnit_word _ Hch)). cbn [ms_prev x].
    unfold k, assertion.
    rewrite (run_end digitUnit x (cu_rest c) digitUnit_word eq_refl) by lia.
    destruct (nonWordAhead (dropWhile digitUnit (cu_rest c))) eqn:Ha.
    + rewrite Hsame by reflexivity. apply Nat.leb_le in Hlen. rewrite Hlen.
      destruct (nonWordBefore (cu_prev c)); reflexivity.
    + rewrite andb_false_r, andb_false_r.
      destruct (nonWordBefore (cu_prev c)); reflexivity.
  - destruct (nonWordAhead (dropWhile digitUnit (cu_rest c))) eqn:Ha.
    + rewrite Hsame by reflexivity. rewrite Hlen. cbn [andb]. rewrite andb_false_r.
      destruct (atWordBoundary x); reflexivity.
    + rewrite andb_false_r, andb_false_r. destruct (atWordBoundary x); reflexivity.
Qed.

Lemma longNumber_words : matchesWords longNumber_regex.
Proof.
  intros c y. rewrite longNumber_matchAt. cbv zeta.
  destruct (wordHit longNumber (cu_prev c) (cu_rest c)) eqn:Hh; [|discriminate].
  intros Hy. inversion Hy; subst y. clear Hy.
  unfold wordHit, longNumber in Hh.
  apply andb_true_iff in Hh as [Hb Hh]. apply andb_true_iff in Hh as [Hlen Hall].
  destruct (word_run digitUnit (cu_rest c) digitUnit_word) as [Hall' Hsame].
  rewrite Hall in Hall'. symmetry in Hall'.
  rewrite (Hsame Hall') in Hlen. apply Nat.leb_le in Hlen.
  destruct (run_start digitUnit (cu_rest c)) as (ch & r & Hrest & Hch); [lia|].
  split; [exact Hb|]. split.
  - rewrite Hrest. cbn. rewrite (digitUnit_word _ Hch). reflexivity.
  - rewrite skipRun_dropWhile by reflexivity. exact Hall'.
Qed.

(** *** The hexadecimal numbers *)

Lemma hexUnit_word ch : hexUnit ch = true -> isWordChar ch = true.
Proof. unit_cases. Qed.

Lemma zero_word ch : litMatches flagI (chr "0") ch = true -> isWordChar ch = true.
Proof. unit_cases. Qed.

Lemma x_word ch : litMatches flagI (chr "x") ch = true -> isWordChar ch = true.
Proof. unit_cases. Qed.

Lemma hex_matchAt c :
  matchAt hex_regex c
  = match cu_rest c with
    | z :: xc :: h =>
        if wordHit hexNumber (cu_prev c) (cu_rest c)
        then Some (skipRun hexUnit {| ms_idx := S (S (cu_idx c)); ms_prev := Some xc;
                                      ms_rest := h; ms_caps := [None] |} h)
        else None
    | _ => None
    end.
Proof.
  unfold matchAt, hex_regex, mkre, seqs, plus.
  change (str "0x") with (Seq (Lit (chr "0")) (Seq (Lit (chr "x")) Eps)).
  cbn [re_pattern re_flags foldr compile maxGroup groupsOf Nat.max replicate].
  fold hexUnit. unfold assertion at 1.
  pose (k := fun y : mstate => assertion atWordBoundary y (fun y0 : mstate => Some y0)).
  fold k.
  destruct (cu_rest c) as [|z [|xc h]] eqn:Hrest.
  - unfold charMatcher. cbn [ms_rest]. destruct (atWordBoundary _); reflexivity.
  - unfold charMatcher. cbn [ms_rest].
    destruct (atWordBoundary _), (litMatches flagI (chr "0") z); reflexivity.
  - unfold charMatcher at 1. cbn [ms_rest ms_idx ms_caps].
    destruct (litMatches flagI (chr "0") z) eqn:Hz.
    2:{ unfold wordHit. cbn [takeWhile].
        replace (hexNumber _) with false.
        - rewrite andb_false_r. destruct (atWordBoundary _); reflexivity.
        - destruct (isWordChar z), (isWordChar xc); unfold hexNumber; rewrite ?Hz; reflexivity. }
    unfold charMatcher at 1. cbn [ms_rest ms_idx ms_caps].
    destruct (litMatches flagI (chr "x") xc) eqn:Hxc.
    2:{ unfold wordHit. cbn [takeWhile].
        replace (hexNumber _) with false.
        - rewrite andb_false_r. destruct (atWordBoundary _); reflexivity.
        - destruct (isWordChar z), (isWordChar xc); unfold hexNumber; rewrite ?Hz, ?Hxc;
            reflexivity. }
    assert (Hk : forall y ch r prev, ms_rest y = ch :: r -> hexUnit ch = true ->
       ms_prev y = Some prev -> hexUnit prev = true -> k y = None).
    { intros y ch r prev Hr Hch Hprev Hp. unfold k, assertion.
      rewrite (boundary_end y prev Hprev (hexUnit_word _ Hp)), Hr. cbn.
      rewrite (hexUnit_word _ Hch). reflexivity. }
    rewrite (repeat_class_run hexUnit k Hk h); [|reflexivity | cbn; lia | left; lia].
    rewrite (boundary_start {| ms_idx := cu_idx c; ms_prev := cu_prev c;
                               ms_rest := z :: xc :: h; ms_caps := [None] |}
               z (xc :: h) eq_refl (zero_word _ Hz)).
    cbn [ms_prev].
    unfold wordHit. cbn [takeWhile]. rewrite (zero_word _ Hz), (x_word _ Hxc).
    unfold hexNumber. rewrite Hz, Hxc. cbn [andb].
    destruct (word_run hexUnit h hexUnit_word) as [Hall Hsame]. rewrite Hall.
    destruct (1 <=? length (takeWhile hexUnit h)) eqn:Hlen.
    + apply Nat.leb_le in Hlen. unfold k, assertion.
      rewrite (run_end hexUnit {| ms_idx := S (S (cu_idx c)); ms_prev := Some xc;
                                  ms_rest := h; ms_caps := [None] |}
                 h hexUnit_word eq_refl) by lia.
      destruct (nonWordAhead (dropWhile hexUnit h)) eqn:Ha.
      * rewrite Hsame by reflexivity. apply Nat.leb_le in Hlen. rewrite Hlen.
        destruct (nonWordBefore (cu_prev c)); reflexivity.
      * rewrite andb_false_r. rewrite andb_false_r.
        destruct (nonWordBefore (cu_prev c)); reflexivity.
    + destruct (nonWordAhead (dropWhile hexUnit h)) eqn:Ha.
      * rewrite Hsame by reflexivity. rewrite Hlen. cbn [andb]. rewrite andb_false_r.
        destruct (nonWordBefore (cu_prev c)); reflexivity.
      * rewrite andb_false_r, andb_false_r. destruct (nonWordBefore (cu_prev c)); reflexivity.
Qed.

Lemma hexNumber_nil : hexNumber [] = false.
Proof. reflexivity. Qed.

Lemma wordHit_word lang p t :
  lang [] = false -> wordHit lang p t = true ->
  nonWordBefore p = true /\ nonWordAhead t = false.
Proof.
  intros Hl H. apply andb_true_iff in H as [Hb H]. split; [exact Hb|].
  destruct t as [|ch t]; cbn in *; [congruence|].
  destruct (isWordChar ch); [reflexivity | congruence].
Qed.

Lemma hex_words : matchesWords hex_regex.
Proof.
  intros c y. rewrite hex_matchAt.
  destruct (cu_rest c) as [|z [|xc h]] eqn:Hrest; try discriminate.
  destruct (wordHit hexNumber (cu_prev c) (z :: xc :: h)) eqn:Hh; [|discriminate].
  intros Hy. inversion Hy; subst y. clear Hy.
  destruct (wordHit_word _ _ _ hexNumber_nil Hh) as [Hb Hw].
  split; [exact Hb|]. split; [exact Hw|].
  rewrite skipRun_dropWhile by reflexivity.
  unfold wordHit in Hh. apply andb_true_iff in Hh as [_ Hh].
  cbn [takeWhile] in Hh.
  destruct (isWordChar z); [|discriminate]. destruct (isWordChar xc); [|discriminate].
  unfold hexNumber in Hh. apply andb_true_iff in Hh as [_ Hall].
  destruct (word_run hexUnit h hexUnit_word) as [Hall' _]. congruence.
Qed.

Lemma longNumber_sound c y :
  matchAt longNumber_regex c = Some y -> wordHit longNumber (cu_prev c) (cu_rest c) = true.
Proof.
  rewrite longNumber_matchAt. cbv zeta.
  destruct (wordHit longNumber _ _); [reflexivity | discriminate].
Qed.

Lemma hex_sound c y :
  matchAt hex_regex c = Some y -> wordHit hexNumber (cu_prev c) (cu_rest c) = true.
Proof.
  rewrite hex_matchAt. destruct (cu_rest c) as [|z [|xc h]]; try discriminate.
  destruct (wordHit hexNumber _ _); [reflexivity | discriminate].
Qed.

Lemma longNumber_covered c : coveredAt longNumber longNumber_regex c.
Proof.
  intros g t _. rewrite longNumber_matchAt. cbv zeta. cbn [after cu_prev cu_rest].
  destruct (wordHit longNumber _ _); [discriminate | reflexivity].
Qed.

Lemma hex_covered c : coveredAt hexNumber hex_regex c.
Proof.
  intros g t _. rewrite hex_matchAt. cbn [after cu_prev cu_rest].
  destruct (wordHit hexNumber (lastOr (cu_prev c) g) t) eqn:Hh; [|reflexivity].
  destruct t as [|z [|xc h]].
  - unfold wordHit in Hh. cbn in Hh. rewrite andb_false_r in Hh. discriminate.
  - unfold wordHit in Hh. cbn in Hh. destruct (isWordChar z); cbn in Hh;
      rewrite andb_false_r in Hh; discriminate.
  - discriminate.
Qed.

(** *** The positions *)

Lemma found_some o : found o = true <-> o <> None.
Proof. destruct o; cbn; split; congruence. Qed.

(** A greedy [+] over a class, before a continuation that never fails,
    needs one code unit of the class. *)
Lemma plus_class_total p k fuel x :
  total k -> 2 <= fuel ->
  found (repeatMatcher fuel (charMatcher p) [] 1 None true x k)
  = match ms_rest x with ch :: _ => p ch | [] => false end.
Proof.
  intros Hk Hf. destruct fuel as [|fuel]; [lia|].
  rewrite repeatMatcher_step by discriminate. cbv zeta.
  cbn [Nat.eqb negb andb pred predMax clearCaps foldr]. unfold charMatcher at 1.
  destruct (ms_rest x) as [|ch r]; [reflexivity|].
  destruct (p ch); [|reflexivity].
  apply found_some. apply repeat_optional_total; [exact Hk | left; lia].
Qed.

Lemma total_Some : total Some.
Proof. intros y. discriminate. Qed.

Lemma digit_not_colon ch : digitUnit ch = true -> litMatches noFlags (chr ":") ch = false.
Proof. unit_cases. Qed.

Lemma positionScan_digits t :
  run positionScan 2 t
  = match dropWhile digitUnit t with
    | c1 :: c2 :: _ => litMatches noFlags (chr ":") c1 && digitUnit c2
    | _ => false
    end.
Proof.
  induction t as [|ch t IH]; [reflexivity|].
  cbn [run positionScan dropWhile]. destruct (digitUnit ch) eqn:Hd; [exact IH|].
  destruct (litMatches noFlags (chr ":") ch); [|destruct t; reflexivity].
  destruct t as [|c2 t]; [reflexivity|]. cbn [run positionScan andb].
  destruct (digitUnit c2); reflexivity.
Qed.

Lemma position_matchAt c :
  found (matchAt position_regex c) = run positionScan 0 (cu_rest c).
Proof.
  unfold matchAt, position_regex, mkre, seqs, plus, digit.
  cbn [re_pattern re_flags foldr compile maxGroup groupsOf Nat.max replicate].
  fold digitUnit. unfold charMatcher at 1. cbn [ms_rest ms_idx ms_caps].
  destruct (cu_rest c) as [|c0 r1]; [reflexivity|].
  cbn [run positionScan]. destruct (litMatches noFlags (chr ":") c0); [|reflexivity].
  match goal with
  | |- context [repeatMatcher _ _ _ _ _ _ ?x ?k] =>
      rewrite (repeat_class_run digitUnit k) with (rest := r1)
  end.
  2:{ intros y ch r prev Hr Hch _ _. unfold charMatcher. rewrite Hr.
      rewrite (digit_not_colon _ Hch). reflexivity. }
  2: reflexivity. 2: cbn; lia. 2: left; lia.
  destruct r1 as [|d1 r1]; [reflexivity|].
  cbn [takeWhile skipRun run positionScan]. destruct (digitUnit d1) eqn:Hd1; [|reflexivity].
  cbn [length Nat.leb]. rewrite positionScan_digits.
  unfold charMatcher at 1. rewrite skipRun_dropWhile by reflexivity.
  destruct (dropWhile digitUnit r1) as [|c1 r2]; [reflexivity|].
  destruct (litMatches noFlags (chr ":") c1); [|destruct r2; reflexivity].
  cbn [andb ms_rest]. rewrite plus_class_total; [|exact total_Some | lia].
  cbn [ms_rest]. destruct r2; reflexivity.
Qed.

(** *** The paths *)

Lemma charMatcher_some p x k z :
  charMatcher p x k = Some z ->
  exists ch r, ms_rest x = ch :: r /\ p ch = true /\
    k {| ms_idx := S (ms_idx x); ms_prev := Some ch; ms_rest := r; ms_caps := ms_caps x |}
    = Some z.
Proof.
  unfold charMatcher. destruct (ms_rest x) as [|ch r]; [discriminate|].
  destruct (p ch) eqn:Hp; [|discriminate]. eauto.
Qed.

(** An optional character is there or not. *)
Lemma optional_class_some p fuel x k z :
  repeatMatcher fuel (charMatcher p) [] 0 (Some 1) true x k = Some z ->
  k x = Some z \/
  exists ch r, ms_rest x = ch :: r /\ p ch = true /\
    k {| ms_idx := S (ms_idx x); ms_prev := Some ch; ms_rest := r; ms_caps := ms_caps x |}
    = Some z.
Proof.
  destruct fuel as [|fuel]; [discriminate|].
  rewrite repeatMatcher_step by discriminate. cbv zeta.
  cbn [Nat.eqb negb andb pred predMax clearCaps foldr].
  destruct (charMatcher p x _) as [z'|] eqn:Hm.
  - intros Hz. inversion Hz; subst z'. right.
    apply charMatcher_some in Hm as (ch & r & Hr & Hp & Hk).
    exists ch, r. split; [exact Hr|]. split; [exact Hp|].
    cbn [ms_idx] in Hk.
    replace (S (ms_idx x) =? ms_idx x) with false in Hk
      by (symmetry; apply Nat.eqb_neq; lia).
    rewrite repeatMatcher_zero in Hk. exact Hk.
  - auto.
Qed.

(** What is optional does not make a match fail. *)
Lemma optional_fallback m gs max fuel x k :
  1 <= fuel -> k x <> None -> repeatMatcher fuel m gs 0 max true x k <> None.
Proof.
  intros Hf Hk. destruct (decide (max = Some 0)) as [->|Hmax].
  { rewrite repeatMatcher_zero. exact Hk. }
  destruct fuel as [|fuel]; [lia|].
  rewrite repeatMatcher_step by exact Hmax. cbv zeta. cbn [Nat.eqb negb].
  destruct (m (clearCaps gs x) _); [discriminate | exact Hk].
Qed.

(** The first iteration of a [+]. *)
Lemma plus_some m gs fuel x k z :
  repeatMatcher fuel m gs 1 None true x k = Some z ->
  exists d, m (clearCaps gs x) d = Some z.
Proof.
  destruct fuel as [|fuel]; [discriminate|].
  rewrite repeatMatcher_step by discriminate. cbv zeta. cbn [Nat.eqb negb]. eauto.
Qed.

Lemma plus_total m gs fuel x k :
  total k -> 2 <= fuel ->
  (forall d, total d -> m (clearCaps gs x) d <> None) ->
  repeatMatcher fuel m gs 1 None true x k <> None.
Proof.
  intros Hk Hf Hm. destruct fuel as [|fuel]; [lia|].
  rewrite repeatMatcher_step by discriminate. cbv zeta. cbn [Nat.eqb negb andb].
  apply Hm. intros y. apply repeat_optional_total; [exact Hk | left; lia].
Qed.

Lemma posix_sound c y :
  matchAt posixPath_regex c = Some y ->
  exists a b, cu_rest c = a ++ b /\ length a <= 1 /\ run posixScan 0 b = true.
Proof.
  unfold matchAt, posixPath_regex, mkre, seqs, opt, plus, segmentChar.
  cbn [re_pattern re_flags foldr compile maxGroup groupsOf Nat.max replicate app].
  fold quoteUnit. fold segmentUnit. intros H.
  assert (Hbody : forall x k z,
    repeatMatcher (1 + length (ms_rest x) + 1)
      (fun x0 c0 => charMatcher (litMatches noFlags (chr "/")) x0
         (fun y0 => repeatMatcher (1 + length (ms_rest y0) + 1) (charMatcher segmentUnit)
                      [] 1 None true y0 c0)) [] 1 None true x k = Some z ->
    run posixScan 0 (ms_rest x) = true).
  { intros x k z Hz. apply plus_some in Hz as (d & Hz). cbn [clearCaps foldr] in Hz.
    apply charMatcher_some in Hz as (ch & r & Hr & Hch & Hz).
    apply plus_some in Hz as (d' & Hz). cbn [clearCaps foldr] in Hz.
    apply charMatcher_some in Hz as (ch' & r' & Hr' & Hch' & _). cbn [ms_rest] in Hr'.
    rewrite Hr, Hr'. cbn [run posixScan]. rewrite Hch. cbn [run posixScan].
    rewrite Hch'. reflexivity. }
  apply optional_class_some in H as [H|(ch & r & Hr & Hch & H)].
  - apply Hbody in H. exists [], (cu_rest c). split; [reflexivity|]. split; [cbn; lia | exact H].
  - apply Hbody in H. cbn [ms_rest] in H, Hr. exists [ch], r.
    split; [exact Hr|]. split; [cbn; lia | exact H].
Qed.

Lemma posix_found c :
  run posixScan 0 (cu_rest c) = true -> matchAt posixPath_regex c <> None.
Proof.
  intros Hrun.
  unfold matchAt, posixPath_regex, mkre, seqs, opt, plus, segmentChar.
  cbn [re_pattern re_flags foldr compile maxGroup groupsOf Nat.max replicate app].
  fold quoteUnit. fold segmentUnit.
  destruct (cu_rest c) as [|c0 [|c1 r]] eqn:Hrest; cbn [run posixScan] in Hrun;
    try discriminate.
  { destruct (litMatches noFlags (chr "/") c0); cbn [run] in Hrun; discriminate. }
  assert (H0 : litMatches noFlags (chr "/") c0 = true).
  { destruct (litMatches noFlags (chr "/") c0); [reflexivity | discriminate]. }
  rewrite H0 in Hrun. cbn [run posixScan] in Hrun.
  assert (H1 : segmentUnit c1 = true).
  { destruct (segmentUnit c1); [reflexivity | discriminate]. }
  clear Hrun.
  apply optional_fallback; [cbn; lia|].
  apply plus_total; [|cbn; lia|].
  - intros y. apply repeat_optional_total; [|left; lia].
    intros y'. apply repeat_optional_total; [|left; lia].
    intros y''. discriminate.
  - intros d Hd. cbn [clearCaps foldr]. unfold charMatcher at 1. cbn [ms_rest].
    rewrite H0. apply found_some. rewrite plus_class_total; [|exact Hd | cbn; lia].
    cbn [ms_rest]. exact H1.
Qed.

Lemma windows_sound c y :
  matchAt windowsPath_regex c = Some y ->
  exists a b, cu_rest c = a ++ b /\ length a <= 1 /\ run windowsScan 0 b = true.
Proof.
  unfold matchAt, windowsPath_regex, mkre, seqs, opt, plus, segmentChar.
  cbn [re_pattern re_flags foldr compile maxGroup groupsOf Nat.max replicate app].
  fold quoteUnit. fold segmentUnit. fold letterUnit. intros H.
  match type of H with
  | repeatMatcher _ _ _ _ _ _ _ (fun y0 => repeatMatcher _ ?m _ _ _ _ _ _) = _ =>
      assert (Hbody : forall fuel x k z,
        repeatMatcher fuel m [] 1 None true x k = Some z ->
        run windowsScan 0 (ms_rest x) = true)
  end.
  { intros fuel x k z Hz. apply plus_some in Hz as (d & Hz). cbn [clearCaps foldr] in Hz.
    apply charMatcher_some in Hz as (c0 & r0 & Hr0 & Hc0 & Hz).
    apply charMatcher_some in Hz as (c1 & r1 & Hr1 & Hc1 & Hz).
    apply charMatcher_some in Hz as (c2 & r2 & Hr2 & Hc2 & Hz).
    apply plus_some in Hz as (d' & Hz). cbn [clearCaps foldr] in Hz.
    apply charMatcher_some in Hz as (c3 & r3 & Hr3 & Hc3 & _). cbn [ms_rest] in *.
    rewrite Hr0, Hr1, Hr2, Hr3. cbn [run windowsScan]. rewrite Hc0. cbn [run windowsScan].
    rewrite Hc1. cbn [run windowsScan]. rewrite Hc2. cbn [run windowsScan].
    rewrite Hc3. reflexivity. }
  apply optional_class_some in H as [H|(ch & r & Hr & Hch & H)].
  - apply Hbody in H. exists [], (cu_rest c). split; [reflexivity|]. split; [cbn; lia | exact H].
  - apply Hbody in H. cbn [ms_rest] in H, Hr. exists [ch], r.
    split; [exact Hr|]. split; [cbn; lia | exact H].
Qed.

Lemma windows_found c :
  run windowsScan 0 (cu_rest c) = true -> matchAt windowsPath_regex c <> None.
Proof.
  intros Hrun.
  unfold matchAt, windowsPath_regex, mkre, seqs, opt, plus, segmentChar.
  cbn [re_pattern re_flags foldr compile maxGroup groupsOf Nat.max replicate app].
  fold quoteUnit. fold segmentUnit. fold letterUnit.
  destruct (cu_rest c) as [|c0 [|c1 [|c2 [|c3 r]]]] eqn:Hrest; cbn [run windowsScan] in Hrun;
    try discriminate;
    (assert (H0 : letterUnit c0 = true)
       by (destruct (letterUnit c0); [reflexivity | discriminate]);
     rewrite H0 in Hrun; cbn [run windowsScan] in Hrun; try discriminate);
    (assert (H1 : litMatches noFlags (chr ":") c1 = true)
       by (destruct (litMatches noFlags (chr ":") c1); [reflexivity | discriminate]);
     rewrite H1 in Hrun; cbn [run windowsScan] in Hrun; try discriminate);
    (assert (H2 : litMatches noFlags backslash c2 = true)
       by (destruct (litMatches noFlags backslash c2); [reflexivity | discriminate]);
     rewrite H2 in Hrun; cbn [run windowsScan] in Hrun; try discriminate).
  assert (H3 : segmentUnit c3 = true).
  { destruct (segmentUnit c3); [reflexivity | discriminate]. }
  clear Hrun.
  apply optional_fallback; [cbn; lia|].
  apply plus_total; [|cbn; lia|].
  - intros y. apply repeat_optional_total; [|left; lia].
    intros y'. apply repeat_optional_total; [|left; lia].
    intros y''. discriminate.
  - intros d Hd. cbn [clearCaps foldr]. unfold charMatcher at 1. cbn [ms_rest].
    rewrite H0. unfold charMatcher at 1. cbn [ms_rest]. rewrite H1.
    unfold charMatcher at 1. cbn [ms_rest]. rewrite H2.
    apply found_some. rewrite plus_class_total; [| | cbn; lia].
    + cbn [ms_rest]. exact H3.
    + intros y. apply Hd.
Qed.

(** *** Trimming *)

Lemma dropWhile_split {A} (p : A -> bool) l :
  exists a, l = a ++ dropWhile p l /\ Forall (fun x => p x = true) a.
Proof.
  induction l as [|x l (a & Hl & Ha)]; cbn.
  - exists []. split; [reflexivity | constructor].
  - destruct (p x) eqn:Hx.
    + exists (x :: a). split; [cbn; rewrite <- Hl; reflexivity | constructor; assumption].
    + exists []. split; [reflexivity | constructor].
Qed.

(** What [trim] removes is white space at both ends. *)
Lemma trim_split s :
  exists a b, s = a ++ trim s ++ b /\
    Forall (fun ch => isWhiteSpace ch = true) a /\
    Forall (fun ch => isWhiteSpace ch = true) b.
Proof.
  unfold trim, trimEnd, trimStart.
  destruct (dropWhile_split isWhiteSpace s) as (a & Hs & Ha).
  destruct (dropWhile_split isWhiteSpace (rev (dropWhile isWhiteSpace s))) as (b & Hr & Hb).
  exists a, (rev b). split; [|split; [exact Ha | apply Forall_rev; exact Hb]].
  rewrite <- rev_app_distr, <- Hr, rev_involutive. exact Hs.
Qed.

Lemma space_not_word ch : isWhiteSpace ch = true -> isWordChar ch = false.
Proof. unit_cases. Qed.

Lemma spaces_ahead b : Forall (fun ch => isWhiteSpace ch = true) b -> nonWordAhead b = true.
Proof.
  intros [|ch b' Hch _]; [reflexivity|]. cbn. rewrite (space_not_word _ Hch). reflexivity.
Qed.

Lemma spaces_before a :
  Forall (fun ch => isWhiteSpace ch = true) a -> nonWordBefore (lastOr None a) = true.
Proof.
  intros Ha. destruct a as [|x a _] using rev_ind; [reflexivity|].
  rewrite lastOr_snoc. apply Forall_app in Ha as [_ Ha]. inversion Ha; subst.
  cbn. rewrite space_not_word by assumption. reflexivity.
Qed.

Lemma clean_trim d s : clean d s -> clean d (trim s).
Proof.
  destruct (trim_split s) as (a & b & Hs & _ & _). intros H. rewrite Hs in H.
  apply clean_app_r, clean_app_l in H. exact H.
Qed.

Lemma cleanAt_trim lang s : cleanAt lang None s -> cleanAt lang None (trim s).
Proof.
  destruct (trim_split s) as (a & b & Hs & Ha & Hb). intros H. rewrite Hs in H.
  apply cleanAt_app_r in H.
  apply (cleanAt_before lang _ None) in H; [|rewrite spaces_before by exact Ha; reflexivity].
  apply cleanAt_app_l in H; [exact H | apply spaces_ahead; exact Hb].
Qed.

(** *** The replacement texts *)

Lemma inert_inside lang repl :
  inert lang repl = true ->
  forall a b p y, repl = a ++ b -> b <> [] -> wordHit lang p (b ++ y) = false.
Proof.
  unfold inert. intros H a b p y Hab Hb. apply andb_true_iff in H as [Hlast Hall].
  destruct (exists_last Hb) as (w & ch & ->).
  rewrite Hab, app_assoc, last_snoc in Hlast.
  rewrite forallb_forall in Hall. specialize (Hall (length a)).
  rewrite Hab, drop_app_length in Hall.
  unfold wordHit. rewrite <- app_assoc. cbn [app].
  rewrite takeWhile_stop by (destruct (isWordChar ch); [discriminate | reflexivity]).
  rewrite takeWhile_stop in Hall by (destruct (isWordChar ch); [discriminate | reflexivity]).
  assert (Hin : In (length a) (seq 0 (length (a ++ w ++ [ch])))).
  { apply in_seq. rewrite !length_app. cbn. lia. }
  apply Hall, negb_true_iff in Hin. rewrite Hin. apply andb_false_r.
Qed.

(** *** The steps of the normalization *)

Lemma replaceAll_clean d n re repl s :
  (forall q ch, n <= q -> d q ch = Dead) -> repl <> [] -> opaque d n repl = true ->
  1 <= minLen (re_pattern re) ->
  (forall c, run d 0 (cu_rest c) = true -> matchAt re c <> None) ->
  clean d (replaceAll re repl s).
Proof.
  intros Hn Hne Ho Hmin Hfound.
  destruct (opaque_stops d n repl Hn Hne Ho) as [H1 H2].
  apply (replaced_clean d re repl H1 H2 (startOf s)).
  - apply replaceAll_replaced. exact Hmin.
  - intros g t _ Hm. destruct (run d 0 t) eqn:E; [|reflexivity].
    exfalso. exact (Hfound (after (startOf s) g t) E Hm).
Qed.

Lemma replaceAll_keeps_clean d n re repl s :
  (forall q ch, n <= q -> d q ch = Dead) -> repl <> [] -> opaque d n repl = true ->
  1 <= minLen (re_pattern re) ->
  clean d s -> clean d (replaceAll re repl s).
Proof.
  intros Hn Hne Ho Hmin Hs.
  destruct (opaque_stops d n repl Hn Hne Ho) as [H1 H2].
  apply (replaced_keeps_clean d re repl (startOf s)); try assumption.
  apply replaceAll_replaced. exact Hmin.
Qed.

Lemma inert_some lang repl : inert lang repl = true -> repl <> [].
Proof. intros H ->. discriminate. Qed.

Lemma replaceAll_cleanAt lang re repl s :
  lang [] = false -> matchesWords re -> inert lang repl = true ->
  1 <= minLen (re_pattern re) -> (forall c, coveredAt lang re c) ->
  cleanAt lang None (replaceAll re repl s).
Proof.
  intros Hl Hw Hi Hmin Hcov.
  apply (replaced_cleanAt lang re repl Hl Hw (inert_some _ _ Hi) (inert_inside _ _ Hi)
           (startOf s)).
  - apply replaceAll_replaced. exact Hmin.
  - apply Hcov.
  - left. reflexivity.
Qed.

Lemma replaceAll_keeps_cleanAt lang re repl s :
  lang [] = false -> matchesWords re -> inert lang repl = true ->
  1 <= minLen (re_pattern re) ->
  cleanAt lang None s -> cleanAt lang None (replaceAll re repl s).
Proof.
  intros Hl Hw Hi Hmin Hs.
  apply (replaced_keeps_cleanAt lang re repl (startOf s) _ Hl Hw (inert_some _ _ Hi)
           (inert_inside _ _ Hi)).
  - apply replaceAll_replaced. exact Hmin.
  - exact Hs.
Qed.

Lemma posixScan_states q ch : 2 <= q -> posixScan q ch = Dead.
Proof. intros H. do 2 (destruct q as [|q]; [lia|]). reflexivity. Qed.

Lemma windowsScan_states q ch : 4 <= q -> windowsScan q ch = Dead.
Proof. intros H. do 4 (destruct q as [|q]; [lia|]). reflexivity. Qed.

Lemma positionScan_states q ch : 4 <= q -> positionScan q ch = Dead.
Proof. intros H. do 4 (destruct q as [|q]; [lia|]). reflexivity. Qed.

Lemma signature_minLen :
  1 <= minLen (re_pattern posixPath_regex) /\ 1 <= minLen (re_pattern windowsPath_regex) /\
  1 <= minLen (re_pattern lineCol_regex) /\ 1 <= minLen (re_pattern position_regex) /\
  1 <= minLen (re_pattern quoted_regex) /\ 1 <= minLen (re_pattern hex_regex) /\
  1 <= minLen (re_pattern longNumber_regex).
Proof. vm_compute. repeat split; lia. Qed.

(** The seven replacements, one after the other. *)
Lemma normalized_clean m :
  let s1 := replaceAll posixPath_regex (u "<path>") m in
  let s2 := replaceAll windowsPath_regex (u "<path>") s1 in
  let s3 := replaceAll lineCol_regex (u "<loc>") s2 in
  let s4 := replaceAll position_regex (u ":<loc>") s3 in
  let s5 := replaceAll quoted_regex (u "'<name>'") s4 in
  let s6 := replaceAll hex_regex (u "<hex>") s5 in
  let s7 := replaceAll longNumber_regex (u "<id>") s6 in
  clean posixScan s7 /\ clean windowsScan s7 /\ clean positionScan s7 /\
  cleanAt hexNumber None s7 /\ cleanAt longNumber None s7.
Proof.
  intros s1 s2 s3 s4 s5 s6 s7.
  destruct signature_minLen as (M1 & M2 & M3 & M4 & M5 & M6 & M7).
  assert (P1 : clean posixScan s1).
  { apply (replaceAll_clean posixScan 2); [apply posixScan_states | discriminate
      | vm_compute; reflexivity | exact M1 | apply posix_found]. }
  assert (P2 : clean windowsScan s2).
  { apply (replaceAll_clean windowsScan 4); [apply windowsScan_states | discriminate
      | vm_compute; reflexivity | exact M2 | apply windows_found]. }
  assert (P4 : clean positionScan s4).
  { apply (replaceAll_clean positionScan 4); [apply positionScan_states | discriminate
      | vm_compute; reflexivity | exact M4 |].
    intros c Hc. apply found_some. rewrite position_matchAt. exact Hc. }
  assert (P6 : cleanAt hexNumber None s6).
  { apply replaceAll_cleanAt; [reflexivity | apply hex_words | vm_compute; reflexivity
      | exact M6 | apply hex_covered]. }
  assert (P7 : cleanAt longNumber None s7).
  { apply replaceAll_cleanAt; [reflexivity | apply longNumber_words | vm_compute; reflexivity
      | exact M7 | apply longNumber_covered]. }
  split; [|split; [|split; [|split; [|exact P7]]]].
  - do 6 (apply (replaceAll_keeps_clean posixScan 2);
            [apply posixScan_states | discriminate | vm_compute; reflexivity
            | assumption |]).
    exact P1.
  - do 5 (apply (replaceAll_keeps_clean windowsScan 4);
            [apply windowsScan_states | discriminate | vm_compute; reflexivity
            | assumption |]).
    exact P2.
  - do 3 (apply (replaceAll_keeps_clean positionScan 4);
            [apply positionScan_states | discriminate | vm_compute; reflexivity
            | assumption |]).
    exact P4.
  - apply replaceAll_keeps_cleanAt; [reflexivity | apply longNumber_words
      | vm_compute; reflexivity | exact M7 | exact P6].
Qed.

(** *** Texts without white space at either end *)

Lemma trimmed_trim s : trimmed (trim s).
Proof.
  split; intros ch H.
  - rewrite <- trimStart_trim in H. exact (dropWhile_head _ _ _ H).
  - unfold trim, trimEnd in H. rewrite last_rev_head in H. exact (dropWhile_head _ _ _ H).
Qed.

Lemma trim_trimmed x : trimmed x -> trim x = x.
Proof.
  intros [Hh Hl]. unfold trim, trimStart, trimEnd.
  assert (Hstart : dropWhile isWhiteSpace x = x).
  { destruct x as [|ch x]; [reflexivity|]. cbn. rewrite (Hh ch eq_refl). reflexivity. }
  rewrite Hstart. rewrite <- (rev_involutive x) at 2. f_equal.
  destruct (rev x) as [|ch r] eqn:Hrev; [reflexivity|].
  cbn. rewrite (Hl ch); [reflexivity|].
  rewrite <- (rev_involutive x), Hrev, last_rev_head. reflexivity.
Qed.

Lemma replaced_trimmed re repl c out :
  repl <> [] -> trimmed repl -> replaced re repl c out ->
  trimmed (cu_rest c) -> trimmed out.
Proof.
  intros Hne [Rh Rl] Hrep [Hh Hl]. split.
  - intros ch. destruct Hrep as [c Hun | c g m t y out Hr Hm _ _ _ _]; [apply Hh|].
    rewrite head_app. destruct (head g) as [x|] eqn:Hg.
    + intros [= ->]. apply Hh. rewrite Hr, head_app, Hg. reflexivity.
    + rewrite head_app. destruct (head repl) as [x|] eqn:Hrepl.
      * intros [= ->]. apply Rh. reflexivity.
      * destruct repl; [congruence | discriminate].
  - clear Hh. induction Hrep as [c Hun | c g m t y out Hr Hm _ _ _ _ IH]; [exact Hl|].
    intros ch. rewrite !last_app. destruct (last out) as [x|] eqn:Ho.
    + intros [= ->]. apply IH; [|reflexivity].
      intros ch' Ht. apply Hl. cbn [after cu_rest] in Ht. rewrite Hr, !last_app, Ht.
      reflexivity.
    + destruct (last repl) as [x|] eqn:Hrepl.
      * intros [= ->]. apply Rl. reflexivity.
      * destruct repl using rev_ind; [congruence|]. rewrite last_snoc in Hrepl. discriminate.
Qed.

(** *** What a replacement removes *)

Lemma unitCount_app p a b : unitCount p (a ++ b) = unitCount p a + unitCount p b.
Proof. unfold unitCount. rewrite List.filter_app, length_app. reflexivity. Qed.

(** The replacement of matches by a text without code units in [p]
    adds none. *)
Lemma replaced_count p re repl c out :
  unitCount p repl = 0 -> replaced re repl c out ->
  unitCount p out <= unitCount p (cu_rest c).
Proof.
  intros Hrepl. induction 1 as [c Hun | c g m t y out Hr Hm _ _ _ _ IH]; [lia|].
  cbn [after cu_rest] in IH. rewrite Hr, !unitCount_app, Hrepl. lia.
Qed.

Lemma replaceAll_count p re repl s :
  1 <= minLen (re_pattern re) -> unitCount p repl = 0 ->
  unitCount p (replaceAll re repl s) <= unitCount p s.
Proof.
  intros Hmin Hrepl.
  apply (replaced_count p re repl (startOf s) _ Hrepl), replaceAll_replaced, Hmin.
Qed.

Lemma trim_count p s : unitCount p (trim s) <= unitCount p s.
Proof.
  destruct (trim_split s) as (a & b & Hs & _ & _).
  rewrite Hs at 2. rewrite !unitCount_app. lia.
Qed.

Lemma replaced_cases re repl c out :
  replaced re repl c out ->
  unmatched re c \/
  exists g m t y out', cu_rest c = g ++ m ++ t /\ m <> [] /\
    matchAt re (after c g (m ++ t)) = Some y /\ ms_rest y = t /\
    replaced re repl (after c (g ++ m) t) out' /\ out = g ++ repl ++ out'.
Proof.
  intros [c' Hun | c' g m t y out' Hr Hm _ Hy Hrest Hout]; [left; exact Hun|].
  right. exists g, m, t, y, out'. auto 10.
Qed.

(** Where a pattern whose matches hold a code unit in [p] matches, its
    replacement by a text without any removes one. *)
Lemma replaceAll_fewer p re repl s :
  1 <= minLen (re_pattern re) -> unitCount p repl = 0 -> matchesHold p re ->
  search re (startOf s) <> None ->
  unitCount p (replaceAll re repl s) < unitCount p s.
Proof.
  intros Hmin Hrepl Hhold Hs.
  destruct (replaced_cases _ _ _ _ (replaceAll_replaced re repl s Hmin))
    as [Hun | (g & m & t & y & out & Hr & Hm & Hy & Hrest & Hout & Ho)].
  - apply unmatched_search in Hun. congruence.
  - cbn [startOf cu_rest] in Hr.
    assert (Hone : 1 <= unitCount p m).
    { apply (Hhold _ y m Hy). cbn [after cu_rest]. rewrite Hrest. reflexivity. }
    pose proof (replaced_count p _ _ _ _ Hrepl Hout) as Hle. cbn [after cu_rest] in Hle.
    rewrite Ho, Hr, !unitCount_app, Hrepl. lia.
Qed.

(** A code unit among the first of a text is in every long enough
    beginning of it. *)
Lemma unitCount_within p m t a x b :
  m ++ t = a ++ x :: b -> length a < length m -> p x = true -> 1 <= unitCount p m.
Proof.
  intros Heq Hlen Hx. revert m Heq Hlen.
  induction a as [|z a IH]; intros [|y m] Heq Hlen; cbn in Hlen; try lia;
    cbn in Heq; inversion Heq; subst.
  - unfold unitCount. cbn [List.filter]. rewrite Hx. cbn [length]. lia.
  - specialize (IH m H1 ltac:(lia)). change (z :: m) with ([z] ++ m).
    rewrite unitCount_app. lia.
Qed.

Lemma digit_any_case ch : classMatches flagI false [CDigit] ch = true -> digitUnit ch = true.
Proof. unit_cases. Qed.

Lemma zero_digit ch : litMatches flagI (chr "0") ch = true -> digitUnit ch = true.
Proof. unit_cases. Qed.

Lemma matched_text re c y m :
  matchAt re c = Some y -> cu_rest c = m ++ ms_rest y ->
  minLen (re_pattern re) <= length m /\ ms_prev y = lastOr (cu_prev c) m.
Proof.
  intros Hy Hm. destruct (matchAt_tracks _ _ _ Hy) as (m' & Hm' & Hcur & Hlen).
  assert (m' = m) by (eapply app_inv_tail; rewrite <- Hm', <- Hm; reflexivity). subst m'.
  split; [exact Hlen|]. apply (f_equal cu_prev) in Hcur. exact Hcur.
Qed.

(** A match of a path pattern holds a slash or a backslash. *)
Lemma posix_slash : matchesHold slashUnit posixPath_regex.
Proof.
  intros c y m Hy Hm. destruct (matched_text _ _ _ _ Hy Hm) as [Hlen _].
  change (minLen (re_pattern posixPath_regex)) with 2 in Hlen.
  destruct (posix_sound _ _ Hy) as (a & b & Hab & Ha & Hrun).
  destruct b as [|c0 b]; [discriminate|]. cbn [run posixScan] in Hrun.
  fold slashUnit in Hrun. destruct (slashUnit c0) eqn:H0; [|discriminate].
  apply (unitCount_within slashUnit m (ms_rest y) a c0 b); [|lia | exact H0].
  rewrite <- Hm. exact Hab.
Qed.

Lemma windows_backslash : matchesHold backslashUnit windowsPath_regex.
Proof.
  intros c y m Hy Hm. destruct (matched_text _ _ _ _ Hy Hm) as [Hlen _].
  change (minLen (re_pattern windowsPath_regex)) with 4 in Hlen.
  destruct (windows_sound _ _ Hy) as (a & b & Hab & Ha & Hrun).
  destruct b as [|c0 [|c1 [|c2 b]]]; cbn [run windowsScan] in Hrun;
    try discriminate;
    (destruct (letterUnit c0); [|discriminate]); cbn [run windowsScan] in Hrun;
    try discriminate;
    (destruct (litMatches noFlags (chr ":") c1); [|discriminate]);
    cbn [run windowsScan] in Hrun; try discriminate.
  fold backslashUnit in Hrun. destruct (backslashUnit c2) eqn:H2; [|discriminate].
  apply (unitCount_within backslashUnit m (ms_rest y) (a ++ [c0; c1]) c2 b);
    [|rewrite length_app; cbn; lia | exact H2].
  rewrite <- Hm, Hab, <- app_assoc. reflexivity.
Qed.

(** A match of the line and column pattern ends with a digit. *)
Lemma lineCol_digit : matchesHold digitUnit lineCol_regex.
Proof.
  intros c y m Hy Hm. destruct (matched_text _ _ _ _ Hy Hm) as [Hlen Hprev].
  change (minLen (re_pattern lineCol_regex)) with 4 in Hlen.
  assert (Hlast : exists d, ms_prev y = Some d /\ digitUnit d = true).
  { clear Hm Hlen Hprev. revert Hy.
    unfold matchAt, lineCol_regex, mkre, seqs. cbn [re_pattern re_flags foldr]. intros Hy.
    match type of Hy with
    | compile ?fl (Seq ?a (Seq ?b (Seq ?s (Seq ?d Eps)))) ?x _ = _ =>
        change (compile fl a x (fun y1 => compile fl b y1 (fun y2 => compile fl s y2
                  (fun y3 => compile fl d y3 (fun y4 => Some y4)))) = Some y) in Hy
    end.
    apply compile_tracks in Hy as (y1 & Hy & _).
    apply compile_tracks in Hy as (y2 & Hy & _).
    apply compile_tracks in Hy as (y3 & Hy & _).
    unfold plus, digit in Hy. cbn [compile groupsOf] in Hy.
    replace (1 + length (ms_rest y3) + 1) with (S (S (length (ms_rest y3)))) in Hy by lia.
    rewrite repeatMatcher_step in Hy by discriminate. cbv zeta in Hy.
    cbn [Nat.eqb negb andb pred predMax clearCaps foldr] in Hy.
    apply charMatcher_some in Hy as (ch & r & Hr & Hch & Hy).
    pose (R := fun (x z : mstate) =>
      (exists d, ms_prev x = Some d /\ digitUnit d = true) ->
      exists d, ms_prev z = Some d /\ digitUnit d = true).
    assert (HR : threadsBy R
      (repeatMatcher (S (length (ms_rest y3)))
         (charMatcher (classMatches flagI false [CDigit])) [] 0 None true)).
    { apply (repeatMatcher_threadsBy R).
      - intros x H. exact H.
      - intros x1 x2 x3 H1 H2 H. apply H2, H1, H.
      - intros x H. exact H.
      - intros x k z Hz. apply charMatcher_some in Hz as (ch' & r' & _ & Hch' & Hz).
        eexists. split; [exact Hz|]. intros _. exists ch'. split; [reflexivity|].
        apply digit_any_case, Hch'. }
    destruct (HR _ _ _ Hy) as (z & Hz & Hp). inversion Hz; subst z.
    apply Hp. exists ch. split; [reflexivity | apply digit_any_case, Hch]. }
  destruct Hlast as (d & Hd & Hdigit). rewrite Hd in Hprev.
  destruct m as [|x m _] using rev_ind; [cbn in Hlen; lia|].
  rewrite lastOr_snoc in Hprev. inversion Hprev; subst x.
  rewrite unitCount_app. unfold unitCount at 2. cbn [List.filter]. rewrite Hdigit.
  cbn [length]. lia.
Qed.

Lemma position_digit : matchesHold digitUnit position_regex.
Proof.
  intros c y m Hy Hm. destruct (matched_text _ _ _ _ Hy Hm) as [Hlen _].
  change (minLen (re_pattern position_regex)) with 4 in Hlen.
  pose proof (position_matchAt c) as Hrun. rewrite Hy in Hrun. cbn [found] in Hrun.
  destruct (cu_rest c) as [|c0 [|c1 b]] eqn:Hrest; cbn [run positionScan] in Hrun;
    try discriminate;
    (destruct (litMatches noFlags (chr ":") c0); [|discriminate]);
    cbn [run positionScan] in Hrun; try discriminate.
  destruct (digitUnit c1) eqn:H1; [|discriminate].
  apply (unitCount_within digitUnit m (ms_rest y) [c0] c1 b); [|cbn; lia | exact H1].
  rewrite <- Hm. reflexivity.
Qed.

Lemma hex_digit : matchesHold digitUnit hex_regex.
Proof.
  intros c y m Hy Hm. destruct (matched_text _ _ _ _ Hy Hm) as [Hlen _].
  change (minLen (re_pattern hex_regex)) with 3 in Hlen.
  pose proof (hex_sound _ _ Hy) as Hhit.
  unfold wordHit in Hhit. apply andb_true_iff in Hhit as [_ Hhit].
  destruct (cu_rest c) as [|z t] eqn:Hrest; [discriminate|].
  cbn [takeWhile] in Hhit. destruct (isWordChar z); [|discriminate].
  destruct (takeWhile isWordChar t) as [|x h]; [discriminate|].
  unfold hexNumber in Hhit.
  destruct (litMatches flagI (chr "0") z) eqn:Hz; [|discriminate].
  apply (unitCount_within digitUnit m (ms_rest y) [] z t);
    [|cbn; lia | apply zero_digit, Hz].
  rewrite <- Hm. reflexivity.
Qed.

Lemma longNumber_digit : matchesHold digitUnit longNumber_regex.
Proof.
  intros c y m Hy Hm. destruct (matched_text _ _ _ _ Hy Hm) as [Hlen _].
  change (minLen (re_pattern longNumber_regex)) with 5 in Hlen.
  pose proof (longNumber_sound _ _ Hy) as Hhit.
  unfold wordHit in Hhit. apply andb_true_iff in Hhit as [_ Hhit].
  destruct (cu_rest c) as [|z t] eqn:Hrest; [discriminate|].
  cbn [takeWhile] in Hhit. destruct (isWordChar z); [|discriminate].
  unfold longNumber in Hhit. apply andb_true_iff in Hhit as [_ Hall].
  cbn [forallb] in Hall. apply andb_true_iff in Hall as [Hz _].
  apply (unitCount_within digitUnit m (ms_rest y) [] z t); [|cbn; lia | exact Hz].
  rewrite <- Hm. reflexivity.
Qed.

(** *** The signature of a signature *)

Lemma matchless_replaceAll re repl s : matchless re s -> replaceAll re repl s = s.
Proof. intros H. apply unmatched_replaceAll, unmatched_search, H. Qed.

(** The signature of a record without a code. *)
Lemma signature_steps r :
  truthy (e_code r) = false ->
  getErrorSignature r
  = trim (replaceAll longNumber_regex (u "<id>")
      (replaceAll hex_regex (u "<hex>")
        (replaceAll quoted_regex (u "'<name>'")
          (replaceAll position_regex (u ":<loc>")
            (replaceAll lineCol_regex (u "<loc>")
              (replaceAll windowsPath_regex (u "<path>")
                (replaceAll posixPath_regex (u "<path>")
                  (match e_message r with Some s => s | None => [] end)))))))).
Proof.
  intros Hcode. unfold getErrorSignature. cbv zeta.
  replace (match e_message r with Some (c :: m) => c :: m | _ => [] end)
    with (match e_message r with Some s => s | None => [] end)
    by (destruct (e_message r) as [[|c m]|]; reflexivity).
  destruct (e_code r) as [[|c code]|]; try discriminate; reflexivity.
Qed.

Lemma signature_trimmed r : trimmed (getErrorSignature r).
Proof. unfold getErrorSignature. cbv zeta. apply trimmed_trim. Qed.

(** In the signature of a record without a code five of the patterns
    have no match left. *)
Lemma signature_settled r :
  truthy (e_code r) = false ->
  let s := getErrorSignature r in
  matchless posixPath_regex s /\ matchless windowsPath_regex s /\
  matchless position_regex s /\ matchless hex_regex s /\ matchless longNumber_regex s.
Proof.
  intros Hcode s. pose proof (signature_steps r Hcode) as Hs. fold s in Hs.
  destruct (normalized_clean (match e_message r with Some s => s | None => [] end))
    as (C1 & C2 & C4 & C6 & C7).
  cbv zeta in C1, C2, C4, C6, C7.
  apply clean_trim in C1, C2, C4. apply cleanAt_trim in C6, C7.
  rewrite <- Hs in C1, C2, C4, C6, C7.
  repeat split; try assumption; apply unmatched_search.
  - apply (clean_unmatched posixScan); [apply posix_sound | exact C1].
  - apply (clean_unmatched windowsScan); [apply windows_sound | exact C2].
  - apply (clean_unmatched positionScan); [|exact C4].
    intros c' y Hy. exists [], (cu_rest c'). split; [reflexivity|]. split; [cbn; lia|].
    rewrite <- position_matchAt, Hy. reflexivity.
  - apply (cleanAt_unmatched hexNumber); [apply hex_sound | exact C6].
  - apply (cleanAt_unmatched longNumber); [apply longNumber_sound | exact C7].
Qed.

(** The steps that follow add no code unit of the kind. *)
Ltac later_steps :=
  repeat first
    [ apply le_n
    | etransitivity; [apply trim_count|]
    | etransitivity;
      [apply replaceAll_count; [apply signature_minLen | vm_compute; reflexivity]|] ].

(** A step that finds a match removes a code unit that no later step
    gives back. *)
Lemma step_matchless p re repl (later : jsstring -> jsstring) s s0 :
  1 <= minLen (re_pattern re) -> unitCount p repl = 0 -> matchesHold p re ->
  (forall x, unitCount p (later x) <= unitCount p x) ->
  unitCount p s <= unitCount p s0 ->
  later (replaceAll re repl s) = s0 -> matchless re s.
Proof.
  intros Hmin Hrepl Hhold Hlater Hs Hfix. unfold matchless.
  destruct (search re (startOf s)) as [found0|] eqn:E; [exfalso | reflexivity].
  assert (Hlt : unitCount p (replaceAll re repl s) < unitCount p s)
    by (apply replaceAll_fewer; try assumption; congruence).
  specialize (Hlater (replaceAll re repl s)). rewrite Hfix in Hlater. lia.
Qed.

(** C1 (amended): a record without a code whose message is the
    signature of a record has that signature as its own if and only if
    no step of the normalization finds anything to replace in it: the
    two path patterns, the line and column pattern, the position
    pattern, the hexadecimal pattern and the long-number pattern have
    no match in it, and the replacement of the quoted names leaves it
    as it is.  In the signature of a record without a code the two
    path patterns, the position pattern, the hexadecimal pattern and
    the long-number pattern never have a match, so that the signature
    is kept if and only if the line and column pattern has no match in
    it and the replacement of the quoted names leaves it as it is. *)
Theorem C1_signature_kept (r r' : ErrorRecord) :
  e_message r' = Some (getErrorSignature r) -> truthy (e_code r') = false ->
  let s := getErrorSignature r in
  (getErrorSignature r' = s <->
   matchless posixPath_regex s /\ matchless windowsPath_regex s /\
   matchless lineCol_regex s /\ matchless position_regex s /\
   replaceAll quoted_regex (u "'<name>'") s = s /\
   matchless hex_regex s /\ matchless longNumber_regex s) /\
  (truthy (e_code r) = false ->
   (matchless posixPath_regex s /\ matchless windowsPath_regex s /\
    matchless position_regex s /\ matchless hex_regex s /\ matchless longNumber_regex s) /\
   (getErrorSignature r' = s <->
    matchless lineCol_regex s /\ replaceAll quoted_regex (u "'<name>'") s = s)).
Proof.
  intros Hmsg Hcode' s.
  pose proof (signature_steps r' Hcode') as Hre. rewrite Hmsg in Hre. fold s in Hre.
  pose proof (signature_trimmed r) as Htrim. fold s in Htrim.
  destruct signature_minLen as (M1 & M2 & M3 & M4 & M5 & M6 & M7).
  assert (Hkept : getErrorSignature r' = s <->
    matchless posixPath_regex s /\ matchless windowsPath_regex s /\
    matchless lineCol_regex s /\ matchless position_regex s /\
    replaceAll quoted_regex (u "'<name>'") s = s /\
    matchless hex_regex s /\ matchless longNumber_regex s).
  { rewrite Hre. split.
    - (* the signature is kept: no step finds anything *)
      intros Hfix.
      pose (f7 := fun x => trim (replaceAll longNumber_regex (u "<id>") x)).
      pose (f6 := fun x => f7 (replaceAll hex_regex (u "<hex>") x)).
      pose (f5 := fun x => f6 (replaceAll quoted_regex (u "'<name>'") x)).
      pose (f4 := fun x => f5 (replaceAll position_regex (u ":<loc>") x)).
      pose (f3 := fun x => f4 (replaceAll lineCol_regex (u "<loc>") x)).
      pose (f2 := fun x => f3 (replaceAll windowsPath_regex (u "<path>") x)).
      assert (U1 : matchless posixPath_regex s).
      { apply (step_matchless slashUnit posixPath_regex (u "<path>") f2 s s
                 M1 eq_refl posix_slash); [|lia | exact Hfix].
        intros x. unfold f2, f3, f4, f5, f6, f7. later_steps. }
      rewrite (matchless_replaceAll _ _ _ U1) in Hfix.
      assert (U2 : matchless windowsPath_regex s).
      { apply (step_matchless backslashUnit windowsPath_regex (u "<path>") f3 s s
                 M2 eq_refl windows_backslash); [|lia | exact Hfix].
        intros x. unfold f3, f4, f5, f6, f7. later_steps. }
      rewrite (matchless_replaceAll _ _ _ U2) in Hfix.
      assert (U3 : matchless lineCol_regex s).
      { apply (step_matchless digitUnit lineCol_regex (u "<loc>") f4 s s
                 M3 eq_refl lineCol_digit); [|lia | exact Hfix].
        intros x. unfold f4, f5, f6, f7. later_steps. }
      rewrite (matchless_replaceAll _ _ _ U3) in Hfix.
      assert (U4 : matchless position_regex s).
      { apply (step_matchless digitUnit position_regex (u ":<loc>") f5 s s
                 M4 eq_refl position_digit); [|lia | exact Hfix].
        intros x. unfold f5, f6, f7. later_steps. }
      rewrite (matchless_replaceAll _ _ _ U4) in Hfix.
      pose proof (replaceAll_replaced quoted_regex (u "'<name>'") s M5) as Hrep.
      pose proof (replaceAll_count digitUnit quoted_regex (u "'<name>'") s M5 eq_refl) as H5.
      set (s5 := replaceAll quoted_regex (u "'<name>'") s) in *.
      assert (V6 : matchless hex_regex s5).
      { apply (step_matchless digitUnit hex_regex (u "<hex>") f7 s5 s
                 M6 eq_refl hex_digit); [|exact H5 | exact Hfix].
        intros x. unfold f7. later_steps. }
      rewrite (matchless_replaceAll _ _ _ V6) in Hfix.
      assert (V7 : matchless longNumber_regex s5).
      { apply (step_matchless digitUnit longNumber_regex (u "<id>") trim s5 s
                 M7 eq_refl longNumber_digit); [|exact H5 | exact Hfix].
        intros x. apply trim_count. }
      rewrite (matchless_replaceAll _ _ _ V7) in Hfix.
      assert (H55 : s5 = s).
      { transitivity (trim s5); [|exact Hfix]. symmetry. apply trim_trimmed.
        apply (replaced_trimmed quoted_regex (u "'<name>'") (startOf s) s5);
          [discriminate | | exact Hrep | exact Htrim].
        split; intros ch [= <-]; reflexivity. }
      rewrite H55 in V6, V7. repeat split; assumption.
    - (* no step finds anything: the signature is kept *)
      intros (U1 & U2 & U3 & U4 & H5 & U6 & U7).
      rewrite (matchless_replaceAll _ _ _ U1), (matchless_replaceAll _ _ _ U2),
        (matchless_replaceAll _ _ _ U3), (matchless_replaceAll _ _ _ U4), H5,
        (matchless_replaceAll _ _ _ U6), (matchless_replaceAll _ _ _ U7).
      apply trim_trimmed, Htrim. }
  split; [exact Hkept|].
  intros Hcode. destruct (signature_settled r Hcode) as (U1 & U2 & U4 & U6 & U7).
  fold s in U1, U2, U4, U6, U7.
  split; [repeat split; assumption|].
  rewrite Hkept. split.
  - intros (_ & _ & U3 & _ & H5 & _). split; assumption.
  - intros [U3 H5]. repeat split; assumption.
Qed.

Lemma C1_signature_kept_witness :
  truthy (e_code mixedRecord) = false /\
  getErrorSignature mixedRecord = u "Cannot find name '<name>' in <path>:<loc> at <loc>" /\
  matchless posixPath_regex (getErrorSignature mixedRecord) /\
  getErrorSignature (reapplied mixedRecord) = getErrorSignature mixedRecord.
Proof.
  destruct (C1_signature_kept mixedRecord (reapplied mixedRecord) eq_refl eq_refl)
    as [_ H].
  destruct (H eq_refl) as [(H1 & _) Hiff].
  split; [reflexivity|]. split; [vm_compute; reflexivity|]. split; [exact H1|].
  apply Hiff. split; vm_compute; reflexivity.
Defined.

(** The signatures of messages such as those of [tests/parser.test.js]
    and of the specification meet the two conditions, and are kept. *)
Example signature_kept_examples :
  Forall (fun m =>
            let s := getErrorSignature (msg m None) in
            matchless lineCol_regex s /\
            replaceAll quoted_regex (u "'<name>'") s = s /\
            getErrorSignature (reapplied (msg m None)) = s)
    [u "Cannot find name 'foo'"; u "Cannot find '/path/to/file.ts'";
     u "Error at line 10"; u "Property 'x' does not exist on type 'Y'";
     u "at C:\src\app.js:10:20 id 1234567 0xdeadBEEF"].
Proof. repeat constructor; vm_compute; reflexivity. Qed.

(** A signature with its code in front is kept by a record without a
    code that has it as its message, and not by one with the code. *)
Example signature_with_code :
  let r := msg (u "Cannot find name 'foo'") (Some (u "TS2304")) in
  let s := getErrorSignature r in
  s = u "[TS2304] Cannot find name '<name>'" /\
  getErrorSignature (msg s None) = s /\
  getErrorSignature (reapplied r) = u "[TS2304] [TS2304] Cannot find name '<name>'".
Proof. repeat split; vm_compute; reflexivity. Qed.
